(** * CSCSegAlgoDF: segment building in one cathode strip chamber

    A shallow embedding of [RecoLocalMuon/CSCSegment/src/CSCSegAlgoDF.cc].

    The algorithm mixes a combinatorial search (seed pairs, extension by
    proximity, per-layer conflict resolution, used-hit bookkeeping) with
    floating-point geometry and a least-squares fit.  The scalar arithmetic
    is kept behind the interface [Scalar], so that every general theorem
    holds for whatever arithmetic the compiler provides ([float] and
    [double] values are not told apart); it is instantiated with binary64
    floats and with exact rationals further down.  The chamber geometry,
    the vector helpers and the CLHEP linear algebra live outside this
    source file and enter as the records [CSCChamber] and [Extern]. *)

From Stdlib Require Import ZArith List Bool Lia Floats QArith Qabs Lqa Permutation.
Import ListNotations.

Set Implicit Arguments.

(** ** Scalars *)

(** The operations the source applies to [float] and [double] values:
    the literals [0.], [1.], [2.], the constant [M_PI], the four arithmetic
    operations, unary minus, [fabs], [sqrt] and the comparison [<].
    [fle] is the arithmetic's [<=]; the source never calls it, the
    properties below are stated with it. *)
Class Scalar (F : Type) : Type := {
  f0 : F;
  f1 : F;
  f2 : F;
  M_PI : F;
  fadd : F -> F -> F;
  fsub : F -> F -> F;
  fmul : F -> F -> F;
  fdiv : F -> F -> F;
  fneg : F -> F;
  fabs : F -> F;
  fsqrt : F -> F;
  flt : F -> F -> bool;
  fle : F -> F -> bool
}.

(** [a > b] is [b < a]. *)
Definition fgt {F} {SF : Scalar F} (a b : F) : bool := flt b a.

Declare Scope fl_scope.
Delimit Scope fl_scope with fl.
Infix "+" := fadd : fl_scope.
Infix "-" := fsub : fl_scope.
Infix "*" := fmul : fl_scope.
Infix "/" := fdiv : fl_scope.
Notation "- x" := (fneg x) : fl_scope.
Infix "<?" := flt : fl_scope.
Infix ">?" := fgt (at level 70) : fl_scope.
Infix "<=?" := fle : fl_scope.

(** A value that compares with itself; in binary64, any value but NaN. *)
Definition is_number {F} {SF : Scalar F} (a : F) : Prop := fle a a = true.

(** The order is total on numbers: when [a > b] fails, [a <= b] holds. *)
Definition total_order (F : Type) {SF : Scalar F} : Prop :=
  forall a b : F, is_number a -> is_number b -> fgt a b = false -> fle a b = true.

Arguments total_order F {SF}.

(** ** Data model *)

(** [LocalPoint], [GlobalPoint] and [LocalVector]: three coordinates. *)
Record Point3 (F : Type) : Type := mkPoint {
  pt_x : F;
  pt_y : F;
  pt_z : F
}.

(** A [const CSCRecHit2D*].  The source compares hits by pointer, so a hit
    carries the identity [hit_id] next to the data the algorithm reads:
    [cscDetId().layer()], [localPosition()] and the three entries of
    [localPositionError()]. *)
Record CSCRecHit2D (F : Type) : Type := mkHit {
  hit_id : nat;
  layer : Z;
  localPosition : Point3 F;
  err_xx : F;
  err_xy : F;
  err_yy : F
}.

(** Pointer equality of two hits, as in the test [aHit == *it]. *)
Definition same_hit {F} (a b : CSCRecHit2D F) : bool :=
  Nat.eqb (hit_id a) (hit_id b).

(** The geometry queries made on [theChamber]:
    [theChamber->layer(n)->toGlobal(p)], [theChamber->layer(n)->position().z()],
    [theChamber->toLocal(g)], [theChamber->toGlobal(p)] on points and on
    vectors. *)
Record CSCChamber (F : Type) : Type := mkChamber {
  layer_toGlobal : Z -> Point3 F -> Point3 F;
  layer_z : Z -> F;
  toLocal : Point3 F -> Point3 F;
  toGlobal : Point3 F -> Point3 F;
  toGlobal_vec : Point3 F -> Point3 F
}.

(** What the source takes from other libraries: [GlobalPoint::phi()],
    [LocalVector::unit()], CLHEP's in-place inversion of a 2x2 matrix
    (entries in the order 11, 12, 21, 22) and its [solve] for the 4x4
    normal equations, and the matrix algebra of [calculateError], which
    receives for every hit of the segment its local [z] and the three
    entries of its error matrix and yields an [AlgebraicSymMatrix] (the
    abstract type [E]). *)
Record Extern (F E : Type) : Type := mkExtern {
  phi : Point3 F -> F;
  unit : Point3 F -> Point3 F;
  invert : F * F * F * F -> F * F * F * F;
  solve : (F * F * F * F) * (F * F * F * F) * (F * F * F * F) * (F * F * F * F)
          -> F * F * F * F -> F * F * F * F;
  errorMatrix : list (F * F * F * F) -> E
}.

(** The parameters read by the constructor that the algorithm uses. *)
Record Config (F : Type) : Type := mkConfig {
  minLayersApart : Z;
  minHitsPerSegment : Z;
  dRPhiFineMax : F;
  dPhiFineMax : F;
  tanThetaMax : F;
  tanPhiMax : F
}.

(** The mutable members of the algorithm object. *)
Record AlgoState (F : Type) : Type := mkState {
  protoSegment : list (CSCRecHit2D F);
  protoSlope_u : F;
  protoSlope_v : F;
  protoIntercept : Point3 F;
  protoChi2 : F;
  protoDirection : Point3 F;
  closeHits : list (CSCRecHit2D F);
  usedHits : list bool
}.

(** A finished [CSCSegment]. *)
Record CSCSegment (F E : Type) : Type := mkSegment {
  seg_hits : list (CSCRecHit2D F);
  seg_intercept : Point3 F;
  seg_direction : Point3 F;
  seg_errors : E;
  seg_chi2 : F
}.

(** Arithmetic of [unsigned] (32 bits) and [size_t] (64 bits). *)
Definition wrap32 (n : Z) : Z := n mod 2 ^ 32.
Definition wrap64 (n : Z) : Z := n mod 2 ^ 64.

Section Model.

Context {F : Type} {SF : Scalar F} {E : Type}.
Variable theChamber : CSCChamber F.
Variable ext : Extern F E.
Variable cfg : Config F.

Let Hit : Type := CSCRecHit2D F.
Let State : Type := AlgoState F.
Let Segment : Type := CSCSegment F E.
Let Vec4 : Type := (F * F * F * F)%type.
Let Mat4 : Type := (Vec4 * Vec4 * Vec4 * Vec4)%type.

Local Open Scope fl_scope.

(** *** updateParameters *)

(** [theChamber->toLocal(layer->toGlobal(hit.localPosition()))]. *)
Definition hitInChamber (hit : Hit) : Point3 F :=
  toLocal theChamber (layer_toGlobal theChamber (layer hit) (localPosition hit)).

(** The matrix [IC] after [IC.invert(ierr)]; a failed inversion is only
    logged, the fit goes on with what the routine left in [IC]. *)
Definition hitWeight (hit : Hit) : Vec4 :=
  invert ext (err_xx hit, err_xy hit, err_xy hit, err_yy hit).

Definition v4add (a b : Vec4) : Vec4 :=
  let '(a1, a2, a3, a4) := a in
  let '(b1, b2, b3, b4) := b in
  (a1 + b1, a2 + b2, a3 + b3, a4 + b4).

Definition v4zero : Vec4 := (f0, f0, f0, f0).

(** One turn of the first loop: the sixteen [M(i,j) += ...] and the four
    [B(i) += ...]. *)
Definition normalEquations_step (acc : Mat4 * Vec4) (hit : Hit) : Mat4 * Vec4 :=
  let lp := hitInChamber hit in
  let u := pt_x lp in
  let v := pt_y lp in
  let z := pt_z lp in
  let '(ic11, ic12, ic21, ic22) := hitWeight hit in
  let '(m1, m2, m3, m4, b) := acc in
  (v4add m1 (ic11, ic12, ic11 * z, ic12 * z),
   v4add m2 (ic21, ic22, ic21 * z, ic22 * z),
   v4add m3 (ic11 * z, ic12 * z, ic11 * z * z, ic12 * z * z),
   v4add m4 (ic21 * z, ic22 * z, ic21 * z * z, ic22 * z * z),
   v4add b (u * ic11 + v * ic12,
            u * ic21 + v * ic22,
            (u * ic11 + v * ic12) * z,
            (u * ic21 + v * ic22) * z)).

(** One turn of the second loop: [chsq += du*du*IC(1,1) + 2.*du*dv*IC(1,2)
    + dv*dv*IC(2,2)]. *)
Definition chi2_step (icpt : Point3 F) (su sv : F) (chsq : F) (hit : Hit) : F :=
  let lp := hitInChamber hit in
  let u := pt_x lp in
  let v := pt_y lp in
  let z := pt_z lp in
  let du := pt_x icpt + su * z - u in
  let dv := pt_y icpt + sv * z - v in
  let '(ic11, ic12, _, ic22) := hitWeight hit in
  chsq + (du * du * ic11 + f2 * du * dv * ic12 + dv * dv * ic22).

Definition updateParameters (st : State) : State :=
  let '(m, b) := fold_left normalEquations_step (protoSegment st)
                   (v4zero, v4zero, v4zero, v4zero, v4zero) in
  let '(p1, p2, p3, p4) := solve ext m b in
  let icpt := mkPoint p1 p2 f0 in
  {| protoSegment := protoSegment st;
     protoSlope_u := p3;
     protoSlope_v := p4;
     protoIntercept := icpt;
     protoChi2 := fold_left (chi2_step icpt p3 p4) (protoSegment st) f0;
     protoDirection := protoDirection st;
     closeHits := closeHits st;
     usedHits := usedHits st |}.

(** *** isHitNearSegment *)

(** [if (phi < 0.) phi += 2.*M_PI]. *)
Definition shiftPhi (a : F) : F :=
  if a <? f0 then a + f2 * M_PI else a.

(** Lines 259-262, from the two shifted angles. *)
Definition deltaPhi (Sphi Hphi : F) : F :=
  let d := Sphi - Hphi in
  let d := if d >? f2 * M_PI then d - f2 * M_PI else d in
  let d := if d <? (- f2) * M_PI then d + f2 * M_PI else d in
  if d <? f0 then - d else d.

Definition isHitNearSegment (st : State) (hit : Hit) : bool :=
  let Hgp := layer_toGlobal theChamber (layer hit) (localPosition hit) in
  let Hphi := shiftPhi (phi ext Hgp) in
  let Hlp := toLocal theChamber Hgp in
  let z := pt_z Hlp in
  let LocalX := pt_x (protoIntercept st) + protoSlope_u st * z in
  let LocalY := pt_y (protoIntercept st) + protoSlope_v st * z in
  let Sgp := toGlobal theChamber (mkPoint LocalX LocalY z) in
  let Sphi := shiftPhi (phi ext Sgp) in
  let R := fsqrt (pt_x Sgp * pt_x Sgp + pt_y Sgp * pt_y Sgp) in
  let dphi := deltaPhi Sphi Hphi in
  let RdeltaPhi := R * dphi in
  (RdeltaPhi <? dRPhiFineMax cfg) && (dphi <? dPhiFineMax cfg).

(** *** addHit, hasHitOnLayer, compareProtoSegment *)

Definition set_protoSegment (st : State) (hits : list Hit) : State :=
  {| protoSegment := hits;
     protoSlope_u := protoSlope_u st;
     protoSlope_v := protoSlope_v st;
     protoIntercept := protoIntercept st;
     protoChi2 := protoChi2 st;
     protoDirection := protoDirection st;
     closeHits := closeHits st;
     usedHits := usedHits st |}.

Definition set_closeHits (st : State) (hits : list Hit) : State :=
  {| protoSegment := protoSegment st;
     protoSlope_u := protoSlope_u st;
     protoSlope_v := protoSlope_v st;
     protoIntercept := protoIntercept st;
     protoChi2 := protoChi2 st;
     protoDirection := protoDirection st;
     closeHits := hits;
     usedHits := usedHits st |}.

Definition set_usedHits (st : State) (used : list bool) : State :=
  {| protoSegment := protoSegment st;
     protoSlope_u := protoSlope_u st;
     protoSlope_v := protoSlope_v st;
     protoIntercept := protoIntercept st;
     protoChi2 := protoChi2 st;
     protoDirection := protoDirection st;
     closeHits := closeHits st;
     usedHits := used |}.

(** [addHit] returns [false] and leaves the proto-segment alone when the
    very same hit is already in it; otherwise the hit is appended.  The
    [layer] argument is not looked at. *)
Definition addHit (st : State) (aHit : Hit) (lay : Z) : bool * State :=
  if existsb (same_hit aHit) (protoSegment st) then (false, st)
  else (true, set_protoSegment st (protoSegment st ++ [aHit])).

Definition hasHitOnLayer (st : State) (lay : Z) : bool :=
  existsb (fun h => Z.eqb (layer h) lay) (protoSegment st).

(** The erase loop of [compareProtoSegment]: every hit on [lay] goes. *)
Definition eraseLayer (lay : Z) (hits : list Hit) : list Hit :=
  filter (fun h => negb (Z.eqb (layer h) lay)) hits.

(** The state [compareProtoSegment] holds just before its final test:
    same-layer hits erased, the candidate added, the fit redone when the
    add went through. *)
Definition substituteHit (st : State) (h : Hit) (lay : Z) : bool * State :=
  let (ok, st1) := addHit (set_protoSegment st (eraseLayer lay (protoSegment st))) h lay in
  (ok, if ok then updateParameters st1 else st1).

Definition compareProtoSegment (st : State) (h : Hit) (lay : Z) : State :=
  let old_protoChi2 := protoChi2 st in
  let old_protoIntercept := protoIntercept st in
  let old_protoSlope_u := protoSlope_u st in
  let old_protoSlope_v := protoSlope_v st in
  let old_protoDirection := protoDirection st in
  let old_protoSegment := protoSegment st in
  let (ok, st1) := substituteHit st h lay in
  if (protoChi2 st1 >? old_protoChi2) || negb ok then
    {| protoSegment := old_protoSegment;
       protoSlope_u := old_protoSlope_u;
       protoSlope_v := old_protoSlope_v;
       protoIntercept := old_protoIntercept;
       protoChi2 := old_protoChi2;
       protoDirection := old_protoDirection;
       closeHits := closeHits st1;
       usedHits := usedHits st1 |}
  else st1.

(** *** tryAddingHitsToSegment *)

(** The first loop, at position [i] of [rechits]: the two seeds and the
    used hits are passed over; a near hit joins the proto-segment when its
    layer is free and the close hits otherwise. *)
Definition extend_step (i1 i2 : nat) (st : State) (i : nat) (h : Hit) : State :=
  if Nat.eqb i i1 || Nat.eqb i i2 then st
  else if nth i (usedHits st) false then st
  else if isHitNearSegment st h then
    if negb (hasHitOnLayer st (layer h)) then snd (addHit st h (layer h))
    else set_closeHits st (closeHits st ++ [h])
  else st.

Fixpoint extendLoop (i1 i2 : nat) (i : nat) (rest : list Hit) (st : State) : State :=
  match rest with
  | [] => st
  | h :: rest' => extendLoop i1 i2 (S i) rest' (extend_step i1 i2 st i h)
  end.

Definition tryAddingHitsToSegment (st : State) (rechits : list Hit) (i1 i2 : nat) : State :=
  let st1 := extendLoop i1 i2 0 rechits (set_closeHits st []) in
  if (length (protoSegment st1) <? 3)%nat || (length (closeHits st1) <? 1)%nat then st1
  else
    let st2 := updateParameters st1 in
    fold_left (fun s h => compareProtoSegment s h (layer h)) (closeHits st2) st2.

(** The chi-squares the second loop compares with the one it holds: at
    each close hit, [protoChi2] as it stands at the test of
    [compareProtoSegment], with the hit substituted. *)
Fixpoint secondPassChi2 (st : State) (hits : list Hit) : list F :=
  match hits with
  | [] => []
  | h :: rest =>
      protoChi2 (snd (substituteHit st h (layer h)))
      :: secondPassChi2 (compareProtoSegment st h (layer h)) rest
  end.

(** *** flagHitsAsUsed *)

(** The inner loop over [rechitsInChamber] for one hit [hi]: every
    position holding that very hit gets its flag set. *)
Definition flagHit (rechits : list Hit) (used : list bool) (hi : Hit) : list bool :=
  map (fun p => if same_hit hi (fst p) then true else snd p) (combine rechits used).

Definition flagHitsAsUsed (st : State) (rechits : list Hit) : State :=
  let used1 := fold_left (flagHit rechits) (protoSegment st) (usedHits st) in
  let used2 := fold_left (flagHit rechits) (closeHits st) used1 in
  set_usedHits st used2.

(** *** buildSegments *)

(** The reversal at the head of [buildSegments]: from the z of layers 1
    and 6 alone it turns both lists round, or neither. *)
Definition orderHits (z1 z6 : F) (layerIndex : list Z) (rechits : list Hit)
  : list Z * list Hit :=
  if z1 >? f0 then
    if z1 >? z6 then (rev layerIndex, rev rechits) else (layerIndex, rechits)
  else if z1 <? f0 then
    if z1 <? z6 then (rev layerIndex, rev rechits) else (layerIndex, rechits)
  else (layerIndex, rechits).

(** [iadd]: one more hit is asked for above 20 hits in the chamber, and
    one more above 30. *)
Definition iadd (nHitInChamber : Z) : Z :=
  ((if 20 <? nHitInChamber then 1 else 0) + (if 30 <? nHitInChamber then 1 else 0))%Z.

(** [minHitsPerSegment+iadd], an [int] plus an [unsigned]. *)
Definition segmentThreshold (nHitInChamber : Z) : Z :=
  wrap32 (minHitsPerSegment cfg + iadd nHitInChamber).

(** The provisional slopes of a seed pair, with [gp2], [lp2] and [dz] as
    the source computes them. *)
Definition seedSlopes (h1 : Hit) (gp1 lp1 : Point3 F) (h2 : Hit) (layer2 : Z) : F * F :=
  let gp2 := layer_toGlobal theChamber layer2 (localPosition h1) in
  let lp2 := toLocal theChamber gp2 in
  let dz := pt_z gp2 - pt_z gp1 in
  ((pt_x lp2 - pt_x lp1) / dz, (pt_y lp2 - pt_y lp1) / dz).

(** The proto-segment state right after the slope assignments: hits
    cleared, intercept at the first seed. *)
Definition seedState (st : State) (h1 : Hit) (slopes : F * F) : State :=
  {| protoSegment := [];
     protoSlope_u := fst slopes;
     protoSlope_v := snd slopes;
     protoIntercept := localPosition h1;
     protoChi2 := protoChi2 st;
     protoDirection := protoDirection st;
     closeHits := closeHits st;
     usedHits := usedHits st |}.

(** The block under [if ( segok )] up to the construction of [temp]. *)
Definition finishSegment (st : State) : State * Segment :=
  let st1 := updateParameters st in
  let dz := f1 / fsqrt (f1 + protoSlope_u st1 * protoSlope_u st1
                           + protoSlope_v st1 * protoSlope_v st1) in
  let dx := dz * protoSlope_u st1 in
  let dy := dz * protoSlope_v st1 in
  let localDir := mkPoint dx dy dz in
  let globalZpos := pt_z (toGlobal theChamber (protoIntercept st1)) in
  let globalZdir := pt_z (toGlobal_vec theChamber localDir) in
  let directionSign := globalZpos * globalZdir in
  let dir := unit ext (mkPoint (directionSign * dx) (directionSign * dy) (directionSign * dz)) in
  let st2 :=
    {| protoSegment := protoSegment st1;
       protoSlope_u := protoSlope_u st1;
       protoSlope_v := protoSlope_v st1;
       protoIntercept := protoIntercept st1;
       protoChi2 := protoChi2 st1;
       protoDirection := dir;
       closeHits := closeHits st1;
       usedHits := usedHits st1 |} in
  let protoErrors :=
    errorMatrix ext
      (map (fun hit => (pt_z (hitInChamber hit), err_xx hit, err_xy hit, err_yy hit))
           (protoSegment st2)) in
  (st2, mkSegment (protoSegment st2) (protoIntercept st2) (protoDirection st2)
                  protoErrors (protoChi2 st2)).

(** How one turn of the inner loop ends: with [continue] or the end of the
    body, or with [return segmentInChamber]. *)
Inductive Flow : Type :=
| Continue (st : State) (segs : list Segment)
| Return (segs : list Segment).

Definition flow_segments (fl : Flow) : list Segment :=
  match fl with
  | Continue _ segs => segs
  | Return segs => segs
  end.

(** The body of the inner loop for the seeds at positions [i1] and [i2]. *)
Definition seedPair (rechits : list Hit) (nHitInChamber : Z)
    (i1 : nat) (h1 : Hit) (layer1 : Z) (gp1 lp1 : Point3 F)
    (i2 : nat) (h2 : Hit) (layer2 : Z)
    (st : State) (segmentInChamber : list Segment) : Flow :=
  if nth i2 (usedHits st) false then Continue st segmentInChamber
  else if (layer2 - layer1 <? minLayersApart cfg)%Z then Continue st segmentInChamber
  else
    let st1 := seedState st h1 (seedSlopes h1 gp1 lp1 h2 layer2) in
    if fabs (protoSlope_v st1) >? tanThetaMax cfg then Continue st1 segmentInChamber
    else if fabs (protoSlope_u st1) >? tanPhiMax cfg then Continue st1 segmentInChamber
    else
      let st2 := tryAddingHitsToSegment (set_protoSegment st1 [h1; h2]) rechits i1 i2 in
      if (Z.of_nat (length (protoSegment st2)) <? segmentThreshold nHitInChamber)%Z
      then Continue st2 segmentInChamber
      else
        let (st3, temp) := finishSegment st2 in
        let segs := segmentInChamber ++ [temp] in
        if (wrap64 (nHitInChamber - Z.of_nat (length (protoSegment st3))) <? 3)%Z
        then Return segs
        else if (4 <? Z.of_nat (length segs))%Z then Return segs
        else Continue (flagHitsAsUsed st3 rechits) segs.

(** The positions of a list with their entries, as the iterators
    [i1], [i2] see them. *)
Definition enumerate {A : Type} (l : list A) : list (nat * A) :=
  combine (seq 0 (length l)) l.

Fixpoint innerLoop (rechits : list Hit) (nHitInChamber : Z)
    (i1 : nat) (h1 : Hit) (layer1 : Z) (gp1 lp1 : Point3 F)
    (seconds : list (nat * (Hit * Z)))
    (st : State) (segmentInChamber : list Segment) : Flow :=
  match seconds with
  | [] => Continue st segmentInChamber
  | (i2, (h2, layer2)) :: rest =>
      match seedPair rechits nHitInChamber i1 h1 layer1 gp1 lp1 i2 h2 layer2
                     st segmentInChamber with
      | Continue st' segs => innerLoop rechits nHitInChamber i1 h1 layer1 gp1 lp1 rest st' segs
      | Return segs => Return segs
      end
  end.

(** [for (i2 = ie-1; i2 > ib; --i2)]: the positions from the last down to
    the second. *)
Definition secondSeeds (rechits : list Hit) (layerIndex : list Z) : list (nat * (Hit * Z)) :=
  rev (tl (enumerate (combine rechits layerIndex))).

Fixpoint outerLoop (rechits : list Hit) (layerIndex : list Z) (nHitInChamber : Z)
    (firsts : list (nat * (Hit * Z)))
    (st : State) (segmentInChamber : list Segment) : Flow :=
  match firsts with
  | [] => Continue st segmentInChamber
  | (i1, (h1, layer1)) :: rest =>
      if nth i1 (usedHits st) false
      then outerLoop rechits layerIndex nHitInChamber rest st segmentInChamber
      else
        let gp1 := layer_toGlobal theChamber layer1 (localPosition h1) in
        let lp1 := toLocal theChamber gp1 in
        match innerLoop rechits nHitInChamber i1 h1 layer1 gp1 lp1
                        (secondSeeds rechits layerIndex) st segmentInChamber with
        | Continue st' segs => outerLoop rechits layerIndex nHitInChamber rest st' segs
        | Return segs => Return segs
        end
  end.

(** [buildSegments], run on the algorithm object in state [st] (its
    members keep what the previous chamber left in them).  The hit count
    is held in an [unsigned]; hit lists are far shorter than 2^32, and
    [nHitInChamber] is the length of the list. *)
Definition buildSegments (st : State) (rechits0 : list Hit) : list Segment :=
  let nHitInChamber := Z.of_nat (length rechits0) in
  if (nHitInChamber <? 3)%Z then []
  else
    let z1 := layer_z theChamber 1 in
    let z6 := layer_z theChamber 6 in
    let (layerIndex, rechits) := orderHits z1 z6 (map (@layer F) rechits0) rechits0 in
    let st1 := set_usedHits st (repeat false (length rechits)) in
    flow_segments
      (outerLoop rechits layerIndex nHitInChamber
                 (enumerate (combine rechits layerIndex)) st1 []).

(** *** run *)

(** [run] stores the chamber it is given in [theChamber] and hands the
    hits to [buildSegments]; the chamber is the parameter [theChamber] of
    this section. *)
Definition run (st : State) (rechits : list Hit) : list Segment :=
  buildSegments st rechits.

(** *** Notions the properties are stated with *)

(** The proto-segment a seed pair grows into: the two seeds, extended and
    with its conflicts resolved. *)
Definition grownSegment (rechits : list Hit) (i1 : nat) (h1 : Hit) (gp1 lp1 : Point3 F)
    (i2 : nat) (h2 : Hit) (layer2 : Z) (st : State) : State :=
  tryAddingHitsToSegment
    (set_protoSegment (seedState st h1 (seedSlopes h1 gp1 lp1 h2 layer2)) [h1; h2])
    rechits i1 i2.

(** Every entry of a position list carries the layer of its own hit. *)
Definition layersAgree (items : list (nat * (Hit * Z))) : Prop :=
  forall i h l, In (i, (h, l)) items -> l = layer h.

(** While the search goes on at most four segments are stored; a return
    from inside the loops hands back at most five. *)
Definition flow_bounded (fl : Flow) : Prop :=
  match fl with
  | Continue _ segs => (length segs <= 4)%nat
  | Return segs => (length segs <= 5)%nat
  end.

(** No two hits of the list are on the same layer. *)
Definition distinctLayers (hits : list Hit) : Prop := NoDup (map (@layer F) hits).

(** An invariant [I] of the state and a property [P] of the stored
    segments, read off the way a turn of a loop ends. *)
Definition flow_inv (I : State -> Prop) (P : Segment -> Prop) (fl : Flow) : Prop :=
  match fl with
  | Continue st segs => I st /\ Forall P segs
  | Return segs => Forall P segs
  end.

(** Every entry of a position list is a position of [rechits], with the
    hit found there and the layer of that hit. *)
Definition seedsFrom (rechits : list Hit) (items : list (nat * (Hit * Z))) : Prop :=
  forall i h l, In (i, (h, l)) items -> nth_error rechits i = Some h /\ l = layer h.

(** Every close hit sits on a layer on which the proto-segment has a hit. *)
Definition closeHitsOnOccupiedLayers (st : State) : Prop :=
  forall c, In c (closeHits st) -> In (layer c) (map (@layer F) (protoSegment st)).

(** An invariant [Inv] of the state together with the stored segments, and
    what a [return segmentInChamber] hands back. *)
Definition flow_keeps (Inv : State -> list Segment -> Prop) (R : list Segment -> Prop)
    (fl : Flow) : Prop :=
  match fl with
  | Continue st segs => Inv st segs
  | Return segs => R segs
  end.

(** The hit [x] is, by identity, a hit of one of the segments [segs]. *)
Definition sharedWith (segs : list Segment) (x : Hit) : Prop :=
  exists s h, In s segs /\ In h (seg_hits s) /\ same_hit h x = true.

(** Of the hits of a stored segment, only one can be a hit of the
    segments stored before it. *)
Definition sharesFirstSeedOnly (rechits0 : list Hit) (segs : list Segment) : Prop :=
  forall b sb,
    nth_error segs b = Some sb ->
    exists h1, In h1 rechits0 /\
               forall x, In x (seg_hits sb) -> sharedWith (firstn b segs) x -> x = h1.

(** The line of the proto-segment, which [isHitNearSegment] reads. *)
Definition sameLine (a b : State) : Prop :=
  protoIntercept a = protoIntercept b /\
  protoSlope_u a = protoSlope_u b /\
  protoSlope_v a = protoSlope_v b.

(** Two states that differ at most in [protoChi2] and [protoDirection]. *)
Definition sameUpToChi2Direction (a b : State) : Prop :=
  protoSegment a = protoSegment b /\
  sameLine a b /\
  closeHits a = closeHits b /\
  usedHits a = usedHits b.

(** Two states that differ at most in [protoDirection]. *)
Definition sameUpToDirection (a b : State) : Prop :=
  sameUpToChi2Direction a b /\ protoChi2 a = protoChi2 b.

(** Two turns of a loop that end the same way, with the same segments
    stored and the same used flags. *)
Definition sameFlow (fa fb : Flow) : Prop :=
  match fa, fb with
  | Continue a segs, Continue b segs' => usedHits a = usedHits b /\ segs = segs'
  | Return segs, Return segs' => segs = segs'
  | _, _ => False
  end.

End Model.

Arguments Flow : clear implicits.

(** ** calculateError *)

Section ErrorMatrix.

Context {F : Type} {SF : Scalar F}.

(** An [AlgebraicSymMatrix]: entries are indexed from 1 and [a(r,c)] and
    [a(c,r)] are one and the same stored entry, kept here at the larger
    index first. *)
Definition SymMatrix : Type := nat -> nat -> F.

Definition sym_get (a : SymMatrix) (r c : nat) : F :=
  if (c <=? r)%nat then a r c else a c r.

Definition sym_set (a : SymMatrix) (r c : nat) (v : F) : SymMatrix :=
  fun i j =>
    if ((i =? Nat.max r c) && (j =? Nat.min r c))%nat then v else a i j.

(** An [AlgebraicMatrix], indexed from 1. *)
Definition Matrix : Type := nat -> nat -> F.

Definition mat_set (a : Matrix) (r c : nat) (v : F) : Matrix :=
  fun i j => if ((i =? r) && (j =? c))%nat then v else a i j.

(** The matrix algebra of CLHEP that [calculateError] calls: the
    constructor [AlgebraicMatrix A(rows, columns)], whose entries the
    source never initialises itself, the in-place inversion of a symmetric
    matrix of a given size and [W.similarityT(A)] for a [W] of that size. *)
Record MatrixLib : Type := mkMatrixLib {
  newMatrix : nat -> nat -> Matrix;
  symInvert : nat -> SymMatrix -> SymMatrix;
  similarityT : nat -> SymMatrix -> Matrix -> SymMatrix
}.

(** One turn of the loop over the hits, for a hit with local [z] and error
    entries [xx], [xy], [yy]: two rows of [weights] and of [A]. *)
Definition errorInputs_step (acc : nat * SymMatrix * Matrix) (hit : F * F * F * F)
  : nat * SymMatrix * Matrix :=
  let '(row, weights, A) := acc in
  let '(z, xx, xy, yy) := hit in
  let row := S row in
  let weights := sym_set weights row row xx in
  let weights := sym_set weights row (row + 1) xy in
  let A := mat_set A row 1 f1 in
  let A := mat_set A row 3 z in
  let row := S row in
  let weights := sym_set weights row (row - 1) xy in
  let weights := sym_set weights row row yy in
  let A := mat_set A row 2 f1 in
  let A := mat_set A row 4 z in
  (row, weights, A).

(** [weights] and [A] when the loop is left; [weights] starts from zero,
    [A] from whatever its constructor gives. *)
Definition errorInputs (A0 : Matrix) (hits : list (F * F * F * F))
  : nat * SymMatrix * Matrix :=
  fold_left errorInputs_step hits (0%nat, (fun _ _ => f0), A0).

(** The eight assignments that put the slope entries first. *)
Definition reorderError (a : SymMatrix) : SymMatrix :=
  let hold := a in
  let a := sym_set a 1 1 (sym_get hold 3 3) in
  let a := sym_set a 1 2 (sym_get hold 3 4) in
  let a := sym_set a 2 1 (sym_get hold 4 3) in
  let a := sym_set a 2 2 (sym_get hold 4 4) in
  let a := sym_set a 3 3 (sym_get hold 1 1) in
  let a := sym_set a 3 4 (sym_get hold 1 2) in
  let a := sym_set a 4 3 (sym_get hold 2 1) in
  let a := sym_set a 4 4 (sym_get hold 2 2) in
  a.

(** The error matrix before the reordering: [weights] inverted, then
    [weights.similarityT(A)], inverted. *)
Definition parameterCovariance (lib : MatrixLib) (hits : list (F * F * F * F)) : SymMatrix :=
  let nhits := length hits in
  let '(_, weights, A) := errorInputs (newMatrix lib (2 * nhits) 4) hits in
  let weights := symInvert lib (2 * nhits) weights in
  let a := similarityT lib (2 * nhits) weights A in
  symInvert lib 4 a.

(** [calculateError], on the local [z] and the error entries of the hits
    of the proto-segment: what [errorMatrix] stands for in [Extern]. *)
Definition calculateError (lib : MatrixLib) (hits : list (F * F * F * F)) : SymMatrix :=
  reorderError (parameterCovariance lib hits).

(** The order of the fitted parameters is (u0, v0, slope u, slope v); the
    slopes come first when parameters 1 and 3, and 2 and 4, change
    places. *)
Definition slopesFirst (i : nat) : nat :=
  match i with
  | 1 => 3
  | 2 => 4
  | 3 => 1
  | 4 => 2
  | _ => i
  end%nat.

End ErrorMatrix.

Arguments SymMatrix F : clear implicits.
Arguments Matrix F : clear implicits.
Arguments MatrixLib F : clear implicits.


(** ** Angles *)

Section Angles.

Context {F : Type} {SF : Scalar F}.
Local Open Scope fl_scope.

(** [2.*M_PI] and [-2.*M_PI] as the source writes them. *)
Definition twoPi : F := f2 * M_PI.
Definition minusTwoPi : F := (- f2) * M_PI.

End Angles.

(** ** Two arithmetics *)

(** Binary64, the arithmetic of [double]. *)
#[export] Instance float_scalar : Scalar float := {|
  f0 := 0%float;
  f1 := 1%float;
  f2 := 2%float;
  M_PI := 0x1.921fb54442d18p+1%float;
  fadd := PrimFloat.add;
  fsub := PrimFloat.sub;
  fmul := PrimFloat.mul;
  fdiv := PrimFloat.div;
  fneg := PrimFloat.opp;
  fabs := PrimFloat.abs;
  fsqrt := PrimFloat.sqrt;
  flt := PrimFloat.ltb;
  fle := PrimFloat.leb
|}.

(** Exact rationals; [M_PI] is the rational value of the double constant,
    and the square root is taken to 32 binary digits. *)
Definition Qltb (a b : Q) : bool := (Qnum a * QDen b <? Qnum b * QDen a)%Z.

Definition Qsqrt (a : Q) : Q :=
  Qred (Z.sqrt (Qnum a * QDen a * 2 ^ 64) # (Qden a * 2 ^ 32)).

Definition Qadd (a b : Q) : Q := Qred (a + b)%Q.
Definition Qsub (a b : Q) : Q := Qred (a - b)%Q.
Definition Qmul (a b : Q) : Q := Qred (a * b)%Q.
Definition Qquot (a b : Q) : Q := Qred (a / b)%Q.
Definition Qneg (a : Q) : Q := Qred (- a)%Q.

#[export] Instance Q_scalar : Scalar Q := {|
  f0 := 0%Q;
  f1 := 1%Q;
  f2 := 2%Q;
  M_PI := (884279719003555 # 281474976710656)%Q;
  fadd := Qadd;
  fsub := Qsub;
  fmul := Qmul;
  fdiv := Qquot;
  fneg := Qneg;
  fabs := fun a => Qred (Qabs a);
  fsqrt := Qsqrt;
  flt := Qltb;
  fle := Qle_bool
|}.

(** ** Binary64 values as integers

    A finite binary64 value is [m * 2^e] with an exponent [e] of at least
    -1074; [scaled m e] is that value in units of [2^-1074].  [2.*M_PI] is
    [twoPi_m * 2^twoPi_e]. *)
Definition scaled (m e : Z) : Z := (m * 2 ^ (e + 1074))%Z.

Definition twoPi_m : positive := 7074237752028440.
Definition twoPi_e : Z := (-50)%Z.

(** What a right shift of the mantissa [m] by [k] bits leaves: the
    shifted mantissa, and round and sticky bits that are clear when no bit
    set was shifted out. *)
Definition shr_inv (m k : Z) (r : shr_record) : Prop :=
  (0 <= shr_m r)%Z /\
  exists rem : Z,
    (0 <= rem < 2 ^ k)%Z /\ m = (shr_m r * 2 ^ k + rem)%Z /\
    (rem = 0%Z -> shr_r r = false /\ shr_s r = false).

(** ** Stand-ins for the external collaborators

    Used only to run the model on concrete chambers: a chamber whose layers
    are stacked along z and whose frame is the global one, and textbook
    versions of the library routines. *)

Section StandIns.

Context {F : Type} {SF : Scalar F}.
Local Open Scope fl_scope.

Let Vec4 : Type := (F * F * F * F)%type.

(** Layer [n] sits at global z [zOf n], the chamber frame at [zc]; the
    axes of all frames are parallel. *)
Definition stackedChamber (zc : F) (zOf : Z -> F) : CSCChamber F :=
  {| layer_toGlobal := fun n p => mkPoint (pt_x p) (pt_y p) (pt_z p + zOf n);
     layer_z := zOf;
     toLocal := fun g => mkPoint (pt_x g) (pt_y g) (pt_z g - zc);
     toGlobal := fun p => mkPoint (pt_x p) (pt_y p) (pt_z p + zc);
     toGlobal_vec := fun v => v |}.

Definition isZero (a : F) : bool := negb (a <? f0) && negb (f0 <? a).

(** 2x2 inversion by the adjugate; a singular matrix is left as it is. *)
Definition invert2 (m : Vec4) : Vec4 :=
  let '(m11, m12, m21, m22) := m in
  let det := m11 * m22 - m12 * m21 in
  if isZero det then m
  else
    let s := f1 / det in
    (s * m22, (- s) * m12, (- s) * m21, s * m11).

Definition det3 (a b c : F * F * F) : F :=
  let '(a1, a2, a3) := a in
  let '(b1, b2, b3) := b in
  let '(c1, c2, c3) := c in
  a1 * (b2 * c3 - b3 * c2) - a2 * (b1 * c3 - b3 * c1) + a3 * (b1 * c2 - b2 * c1).

Definition det4 (m : Vec4 * Vec4 * Vec4 * Vec4) : F :=
  let '(r1, r2, r3, r4) := m in
  let '(a1, a2, a3, a4) := r1 in
  let minor (k : Vec4 -> F * F * F) := det3 (k r2) (k r3) (k r4) in
  a1 * minor (fun r => let '(_, x2, x3, x4) := r in (x2, x3, x4))
  - a2 * minor (fun r => let '(x1, _, x3, x4) := r in (x1, x3, x4))
  + a3 * minor (fun r => let '(x1, x2, _, x4) := r in (x1, x2, x4))
  - a4 * minor (fun r => let '(x1, x2, x3, _) := r in (x1, x2, x3)).

(** The matrix with column [k] replaced by [b]. *)
Definition replaceColumn (k : nat) (m : Vec4 * Vec4 * Vec4 * Vec4) (b : Vec4)
  : Vec4 * Vec4 * Vec4 * Vec4 :=
  let '(r1, r2, r3, r4) := m in
  let '(b1, b2, b3, b4) := b in
  let put (r : Vec4) (v : F) : Vec4 :=
    let '(x1, x2, x3, x4) := r in
    match k with
    | 0%nat => (v, x2, x3, x4)
    | 1%nat => (x1, v, x3, x4)
    | 2%nat => (x1, x2, v, x4)
    | _ => (x1, x2, x3, v)
    end in
  (put r1 b1, put r2 b2, put r3 b3, put r4 b4).

(** Cramer's rule; the zero vector for a singular system. *)
Definition solve4 (m : Vec4 * Vec4 * Vec4 * Vec4) (b : Vec4) : Vec4 :=
  let d := det4 m in
  if isZero d then (f0, f0, f0, f0)
  else (det4 (replaceColumn 0 m b) / d, det4 (replaceColumn 1 m b) / d,
        det4 (replaceColumn 2 m b) / d, det4 (replaceColumn 3 m b) / d).

(** [v / |v|], and [v] itself when its length is zero. *)
Definition unitVector (v : Point3 F) : Point3 F :=
  let mag2 := pt_x v * pt_x v + pt_y v * pt_y v + pt_z v * pt_z v in
  if isZero mag2 then v
  else
    let s := f1 / fsqrt mag2 in
    mkPoint (pt_x v * s) (pt_y v * s) (pt_z v * s).

(** The azimuth by its small-angle value [y / x], for points with
    [x > 0]: it is [atan2(y, x)] where [y = 0], and it grows with
    [atan2(y, x)].  The error matrix is kept as the list of its inputs. *)
Definition standIns : Extern F (list Vec4) :=
  {| phi := fun g => pt_y g / pt_x g;
     unit := unitVector;
     invert := invert2;
     solve := solve4;
     errorMatrix := fun rows => rows |}.

End StandIns.

(** ** Concrete chambers and hit lists (binary64) *)

#[local] Set Warnings "-inexact-float".

Module Examples.

Local Open Scope float_scope.

(** Six layers 2.5 apart around z = 706.25; layer 1 nearest to the origin
    in [chamberUp], farthest in [chamberDown]. *)
Definition zUp (n : Z) : float :=
  match n with
  | 1%Z => 700 | 2%Z => 702.5 | 3%Z => 705 | 4%Z => 707.5 | 5%Z => 710 | _ => 712.5
  end.

Definition zDown (n : Z) : float :=
  match n with
  | 1%Z => 712.5 | 2%Z => 710 | 3%Z => 707.5 | 4%Z => 705 | 5%Z => 702.5 | _ => 700
  end.

Definition chamberUp : CSCChamber float := stackedChamber 706.25 zUp.
Definition chamberDown : CSCChamber float := stackedChamber 706.25 zDown.

(** The parameters of the standard configuration, and the same with two
    hits per segment allowed. *)
Definition standardConfig : Config float :=
  {| minLayersApart := 2; minHitsPerSegment := 3;
     dRPhiFineMax := 8; dPhiFineMax := 0.025;
     tanThetaMax := 1.2; tanPhiMax := 0.5 |}.

Definition twoHitConfig : Config float :=
  {| minLayersApart := 2; minHitsPerSegment := 2;
     dRPhiFineMax := 8; dPhiFineMax := 0.025;
     tanThetaMax := 1.2; tanPhiMax := 0.5 |}.

(** A hit at local [(x, y)] of its layer, with error matrix
    diag(0.01, 0.01). *)
Definition hitAt (id : nat) (lay : Z) (x y : float) : CSCRecHit2D float :=
  {| hit_id := id; layer := lay; localPosition := mkPoint x y 0;
     err_xx := 0.01; err_xy := 0; err_yy := 0.01 |}.

(** The algorithm object before its first chamber. *)
Definition freshState : AlgoState float :=
  {| protoSegment := []; protoSlope_u := 0; protoSlope_v := 0;
     protoIntercept := mkPoint 0 0 0; protoChi2 := 0;
     protoDirection := mkPoint 0 0 1; closeHits := []; usedHits := [] |}.

Definition hitIds {E : Type} (segs : list (CSCSegment float E)) : list (list nat) :=
  map (fun s => map (@hit_id float) (seg_hits s)) segs.

(** A steep track: three hits at x = 100, 120, 150 on layers 1, 3, 6. *)
Definition steep1 : CSCRecHit2D float := hitAt 0 1 100 0.
Definition steep3 : CSCRecHit2D float := hitAt 1 3 120 0.
Definition steep6 : CSCRecHit2D float := hitAt 2 6 150 0.
Definition steepTrack : list (CSCRecHit2D float) := [steep1; steep3; steep6].

(** The state in which [buildSegments] enters its loops on [steepTrack]. *)
Definition steepStart : AlgoState float :=
  set_usedHits freshState (repeat false 3).

(** The seed slopes as the specification words them: from the positions
    of the two hits themselves, each through its own layer. *)
Definition seedSlopes_ownPositions (ch : CSCChamber float) (h1 h2 : CSCRecHit2D float)
  : float * float :=
  let gp1 := layer_toGlobal ch (layer h1) (localPosition h1) in
  let lp1 := toLocal ch gp1 in
  let gp2 := layer_toGlobal ch (layer h2) (localPosition h2) in
  let lp2 := toLocal ch gp2 in
  let dz := pt_z gp2 - pt_z gp1 in
  ((pt_x lp2 - pt_x lp1) / dz, (pt_y lp2 - pt_y lp1) / dz).

(** One hit on layer 1 and four on layer 6.  The azimuths are 0, 0.29,
    0.61, 0.98 and 1.33 (by [y / x]: 0, 0.3, 0.7, 1.5 and 4): no two hits
    are within [dPhiFineMax = 0.025] of each other. *)
Definition fan : list (CSCRecHit2D float) :=
  [hitAt 0 1 100 0; hitAt 1 6 100 30; hitAt 2 6 100 70; hitAt 3 6 100 150;
   hitAt 4 6 100 400].


(** The turn of the inner loop of [buildSegments] for the first hit of
    [rechits] and the hit at position [i2], from state [st] with [segs]
    stored. *)
Definition firstSeedTurn (cfg : Config float) (rechits : list (CSCRecHit2D float))
    (i2 : nat) (st : AlgoState float)
    (segs : list (CSCSegment float (list (float * float * float * float))))
  : Flow float (list (float * float * float * float)) :=
  let h1 := hd (hitAt 0 0 0 0) rechits in
  let h2 := nth i2 rechits h1 in
  let gp1 := layer_toGlobal chamberUp (layer h1) (localPosition h1) in
  seedPair chamberUp standIns cfg rechits (Z.of_nat (length rechits))
           0 h1 (layer h1) gp1 (toLocal chamberUp gp1) i2 h2 (layer h2) st segs.



(** A straight track through layers 1, 3, 5 and 6 at x = 100 (hits 0, 2,
    4, 5), two hits one unit beside it on layers 3 and 5 (hits 1, 3), all
    at azimuth 0, and a hit on layer 6 at azimuth 1.33 (hit 6); the list
    is sorted by layer. *)
Definition noisyTrack : list (CSCRecHit2D float) :=
  [hitAt 0 1 100 0; hitAt 1 3 101 0; hitAt 2 3 100 0; hitAt 3 5 101 0;
   hitAt 4 5 100 0; hitAt 5 6 100 0; hitAt 6 6 100 400].

Definition noisyStart : AlgoState float :=
  set_usedHits freshState (repeat false 7).

Definition noisyTurn : nat -> AlgoState float
                       -> list (CSCSegment float (list (float * float * float * float)))
                       -> Flow float (list (float * float * float * float)) :=
  firstSeedTurn standardConfig noisyTrack.

(** Five tracks of three hits each, on layers 1, 3 and 6, at the five
    azimuths of [fan]; the hit list is sorted by layer. *)
Definition fiveTracks : list (CSCRecHit2D float) :=
  [hitAt 1 1 100 0; hitAt 2 1 100 30; hitAt 3 1 100 70; hitAt 4 1 100 150;
   hitAt 5 1 100 400;
   hitAt 11 3 100 0; hitAt 12 3 100 30; hitAt 13 3 100 70; hitAt 14 3 100 150;
   hitAt 15 3 100 400;
   hitAt 21 6 100 0; hitAt 22 6 100 30; hitAt 23 6 100 70; hitAt 24 6 100 150;
   hitAt 25 6 100 400].

(** A fitted three-hit proto-segment on a straight line, and a hit of
    layer 6 far off that line. *)
Definition straightProto : AlgoState float :=
  updateParameters chamberUp standIns
    (set_protoSegment freshState [hitAt 1 1 100 0; hitAt 11 3 100 0; hitAt 21 6 100 0]).

Definition strayHit : CSCRecHit2D float := hitAt 25 6 100 400.

(** The state a turn of the loop leaves, and [d] after a [return]. *)
Definition flow_state {E : Type} (fl : Flow float E) (d : AlgoState float) : AlgoState float :=
  match fl with
  | Continue st _ => st
  | Return _ => d
  end.


(** The ordering step as the specification words it: on lists the step
    has already ordered, it changes nothing. *)
Definition orderingIdempotent (z1 z6 : float) : Prop :=
  forall (layerIndex : list Z) (rechits : list (CSCRecHit2D float)),
    let ordered := orderHits z1 z6 layerIndex rechits in
    orderHits z1 z6 (fst ordered) (snd ordered) = ordered.

(** [noisyTrack] with the seeds at positions 0 and 5 in the proto-segment,
    as [tryAddingHitsToSegment] finds it. *)
Definition noisySeeds : AlgoState float :=
  let h1 := hitAt 0 1 100 0 in
  let h2 := hitAt 5 6 100 0 in
  let gp1 := layer_toGlobal chamberUp 1 (localPosition h1) in
  set_protoSegment
    (seedState noisyStart h1 (seedSlopes chamberUp h1 gp1 (toLocal chamberUp gp1) h2 6))
    [h1; h2].

(** Four hits on layer 6. *)
Definition oneLayer : list (CSCRecHit2D float) := tl fan.

(** [straightProto] with a close hit, and flags for [fiveTracks] with the
    first one set. *)
Definition straightFlagged : AlgoState float :=
  set_usedHits (set_closeHits straightProto [hitAt 12 3 100 30])
               (true :: repeat false 14).


(** Chambers with many hits: a track at azimuth 0 and, behind its hit on
    layer 1, [n] more hits on layer 1 at the azimuths 1, 2, ..., [n] (by
    [y / x]); none of them is near the track or near another. *)
Definition noiseHit (k : nat) : CSCRecHit2D float :=
  hitAt (100 + k) 1 100 (100 * PrimFloat.of_uint63 (Uint63.of_Z (Z.of_nat k))).

Definition crowded (track : list (CSCRecHit2D float)) (n : nat)
  : list (CSCRecHit2D float) :=
  firstn 1 track ++ map noiseHit (seq 1 n) ++ skipn 1 track.

Definition track3 : list (CSCRecHit2D float) :=
  [hitAt 0 1 100 0; hitAt 1 3 100 0; hitAt 2 6 100 0].

Definition track4 : list (CSCRecHit2D float) :=
  [hitAt 0 1 100 0; hitAt 1 3 100 0; hitAt 2 5 100 0; hitAt 3 6 100 0].

Definition track5 : list (CSCRecHit2D float) :=
  [hitAt 0 1 100 0; hitAt 1 2 100 0; hitAt 2 3 100 0; hitAt 3 5 100 0; hitAt 4 6 100 0].

(** A hit on layer 6 whose local x is infinite. *)
Definition infiniteHit : CSCRecHit2D float := hitAt 25 6 infinity 0.

(** The chi-square property as the specification words it: for every
    call. *)
Definition chi2NeverWorse {E : Type} (ch : CSCChamber float) (ext : Extern float E) : Prop :=
  forall (st : AlgoState float) (h : CSCRecHit2D float) (lay : Z),
    fle (protoChi2 (compareProtoSegment ch ext st h lay)) (protoChi2 st) = true.

(** [standardConfig] with both nearness cuts doubled. *)
Definition looseConfig : Config float :=
  {| minLayersApart := 2; minHitsPerSegment := 3;
     dRPhiFineMax := 16; dPhiFineMax := 0.05;
     tanThetaMax := 1.2; tanPhiMax := 0.5 |}.

End Examples.

#[local] Set Warnings "+inexact-float".

Unset Implicit Arguments.

(** ** Properties of the fit and of conflict resolution *)

Section CompareProperties.

Context {F : Type} {SF : Scalar F} {E : Type}.
Variable theChamber : CSCChamber F.
Variable ext : Extern F E.

Lemma updateParameters_protoSegment (st : AlgoState F) :
  protoSegment (updateParameters theChamber ext st) = protoSegment st.
Proof.
  unfold updateParameters.
  destruct (fold_left _ _ _) as [m b].
  destruct (solve ext m b) as [[[p1 p2] p3] p4].
  reflexivity.
Qed.

Lemma updateParameters_frame (st : AlgoState F) :
  closeHits (updateParameters theChamber ext st) = closeHits st /\
  usedHits (updateParameters theChamber ext st) = usedHits st /\
  protoDirection (updateParameters theChamber ext st) = protoDirection st.
Proof.
  unfold updateParameters.
  destruct (fold_left _ _ _) as [m b].
  destruct (solve ext m b) as [[[p1 p2] p3] p4].
  simpl. auto.
Qed.

Lemma addHit_frame (st : AlgoState F) (h : CSCRecHit2D F) (lay : Z) :
  closeHits (snd (addHit st h lay)) = closeHits st /\
  usedHits (snd (addHit st h lay)) = usedHits st.
Proof.
  unfold addHit. destruct (existsb _ _); simpl; auto.
Qed.

Lemma substituteHit_frame (st : AlgoState F) (h : CSCRecHit2D F) (lay : Z) :
  closeHits (snd (substituteHit theChamber ext st h lay)) = closeHits st /\
  usedHits (snd (substituteHit theChamber ext st h lay)) = usedHits st.
Proof.
  unfold substituteHit.
  pose proof (addHit_frame (set_protoSegment st (eraseLayer lay (protoSegment st))) h lay)
    as [Hc Hu].
  destruct (addHit _ h lay) as [ok st1]; simpl in *.
  destruct ok; simpl.
  - destruct (updateParameters_frame st1) as (Hc' & Hu' & _).
    rewrite Hc', Hu', Hc, Hu. auto.
  - rewrite Hc, Hu. auto.
Qed.

(** What [compareProtoSegment] returns, by the outcome of its test. *)
Lemma compareProtoSegment_cases (st : AlgoState F) (h : CSCRecHit2D F) (lay : Z) :
  let r := substituteHit theChamber ext st h lay in
  (compareProtoSegment theChamber ext st h lay = st /\
   (fgt (protoChi2 (snd r)) (protoChi2 st) = true \/ fst r = false)) \/
  (compareProtoSegment theChamber ext st h lay = snd r /\
   fgt (protoChi2 (snd r)) (protoChi2 st) = false /\ fst r = true).
Proof.
  intro r. subst r. unfold compareProtoSegment.
  pose proof (substituteHit_frame st h lay) as [Hc Hu].
  destruct (substituteHit theChamber ext st h lay) as [ok st1]; simpl in *.
  destruct (fgt (protoChi2 st1) (protoChi2 st)) eqn:Hgt; simpl.
  - left. split; [| now left].
    rewrite Hc, Hu. destruct st; reflexivity.
  - destruct ok; simpl.
    + right. auto.
    + left. split; [| now right].
      rewrite Hc, Hu. destruct st; reflexivity.
Qed.

(** C6.  Whenever the substitution makes the chi-square strictly greater
    than it was on entry, or the add fails, [compareProtoSegment] hands
    back the state it was called on: chi-square, intercept, both slopes,
    direction and the hits of the proto-segment are those of the snapshot
    (and the close hits and the used flags were never touched). *)
Theorem compareProtoSegment_rollback (st : AlgoState F) (h : CSCRecHit2D F) (lay : Z) :
  fgt (protoChi2 (snd (substituteHit theChamber ext st h lay))) (protoChi2 st) = true \/
  fst (substituteHit theChamber ext st h lay) = false ->
  compareProtoSegment theChamber ext st h lay = st /\
  protoChi2 (compareProtoSegment theChamber ext st h lay) = protoChi2 st /\
  protoIntercept (compareProtoSegment theChamber ext st h lay) = protoIntercept st /\
  protoSlope_u (compareProtoSegment theChamber ext st h lay) = protoSlope_u st /\
  protoSlope_v (compareProtoSegment theChamber ext st h lay) = protoSlope_v st /\
  protoDirection (compareProtoSegment theChamber ext st h lay) = protoDirection st /\
  protoSegment (compareProtoSegment theChamber ext st h lay) = protoSegment st.
Proof.
  intro Hworse.
  assert (Heq : compareProtoSegment theChamber ext st h lay = st).
  { destruct (compareProtoSegment_cases st h lay) as [[Heq _] | (_ & Hle & Hok)].
    - exact Heq.
    - destruct Hworse as [Hgt | Hfail]; congruence. }
  rewrite Heq. repeat split; reflexivity.
Qed.

(** C7.  After [compareProtoSegment] the chi-square of the proto-segment
    is at most what it was before the call.  The comparison is the one of
    the arithmetic: the statement is for chi-squares that are numbers, in
    an arithmetic whose order is total on numbers. *)
Theorem compareProtoSegment_chi2_not_worse
    (st : AlgoState F) (h : CSCRecHit2D F) (lay : Z) :
  total_order F ->
  is_number (protoChi2 st) ->
  is_number (protoChi2 (snd (substituteHit theChamber ext st h lay))) ->
  fle (protoChi2 (compareProtoSegment theChamber ext st h lay)) (protoChi2 st) = true.
Proof.
  intros Htot Hold Hnew.
  destruct (compareProtoSegment_cases st h lay) as [[Heq _] | (Heq & Hle & _)];
    rewrite Heq.
  - exact Hold.
  - apply Htot; assumption.
Qed.

End CompareProperties.

(** Binary64 has a total order on its numbers. *)
Lemma SFcompare_antisym (a b : SpecFloat.spec_float) (c : comparison) :
  SpecFloat.SFcompare a b = Some c -> SpecFloat.SFcompare b a = Some (CompOpp c).
Proof.
  destruct a as [sa | sa | | sa ma ea], b as [sb | sb | | sb mb eb]; simpl;
    try discriminate;
    try (destruct sa; intro H; injection H as <-; reflexivity);
    try (destruct sb; intro H; injection H as <-; reflexivity);
    try (destruct sa, sb; intro H; injection H as <-; reflexivity);
    try (intro H; injection H as <-; reflexivity).
  assert (Hm : Pos.compare_cont Eq mb ma = CompOpp (Pos.compare_cont Eq ma mb))
    by (rewrite Pos.compare_cont_antisym; reflexivity).
  rewrite (Z.compare_antisym ea eb), Hm.
  destruct sa, sb; intro H; injection H as <-; try reflexivity;
    destruct (ea ?= eb)%Z; simpl; try reflexivity;
    destruct (Pos.compare_cont Eq ma mb); reflexivity.
Qed.

Lemma float_total_order : total_order float.
Proof.
  intros a b Ha Hb. unfold is_number, fgt in *. simpl in *.
  rewrite leb_spec in Ha, Hb. rewrite leb_spec, ltb_spec.
  unfold SpecFloat.SFleb, SpecFloat.SFltb in *.
  destruct (SpecFloat.SFcompare (Prim2SF a) (Prim2SF b)) as [c |] eqn:Hab.
  - rewrite (SFcompare_antisym _ _ _ Hab). destruct c; simpl; congruence.
  - destruct (Prim2SF a), (Prim2SF b); simpl in *; discriminate.
Qed.

(** ** Properties of the search *)

Ltac case_if :=
  match goal with
  | |- context [if ?b then _ else _] => destruct b eqn:?
  end.

Section SearchProperties.

Context {F : Type} {SF : Scalar F} {E : Type}.
Variable theChamber : CSCChamber F.
Variable ext : Extern F E.
Variable cfg : Config F.

Let Hit : Type := CSCRecHit2D F.
Let State : Type := AlgoState F.
Let Segment : Type := CSCSegment F E.

(** *** Frame properties: who writes the used flags *)

Lemma compareProtoSegment_usedHits (st : State) (h : Hit) (lay : Z) :
  usedHits (compareProtoSegment theChamber ext st h lay) = usedHits st.
Proof.
  destruct (compareProtoSegment_cases theChamber ext st h lay) as [[Heq _] | (Heq & _)];
    rewrite Heq; [reflexivity |].
  apply (substituteHit_frame theChamber ext st h lay).
Qed.

Lemma extendLoop_usedHits (i1 i2 : nat) (rest : list Hit) (i : nat) (st : State) :
  usedHits (extendLoop theChamber ext cfg i1 i2 i rest st) = usedHits st.
Proof.
  revert i st. induction rest as [| h rest IH]; intros i st; simpl; [reflexivity |].
  rewrite IH. unfold extend_step.
  repeat case_if; try reflexivity.
  apply addHit_frame.
Qed.

Lemma resolve_usedHits (hits : list Hit) (st : State) :
  usedHits (fold_left (fun s h => compareProtoSegment theChamber ext s h (layer h)) hits st)
  = usedHits st.
Proof.
  revert st. induction hits as [| h hits IH]; intro st; simpl; [reflexivity |].
  rewrite IH. apply compareProtoSegment_usedHits.
Qed.

Lemma tryAddingHitsToSegment_usedHits (st : State) (rechits : list Hit) (i1 i2 : nat) :
  usedHits (tryAddingHitsToSegment theChamber ext cfg st rechits i1 i2) = usedHits st.
Proof.
  unfold tryAddingHitsToSegment. case_if.
  - now rewrite extendLoop_usedHits.
  - rewrite resolve_usedHits.
    destruct (updateParameters_frame theChamber ext
                (extendLoop theChamber ext cfg i1 i2 0 rechits (set_closeHits st [])))
      as (_ & Hu & _).
    rewrite Hu. now rewrite extendLoop_usedHits.
Qed.

Lemma finishSegment_hits (st : State) :
  seg_hits (snd (finishSegment theChamber ext st)) = protoSegment st /\
  protoSegment (fst (finishSegment theChamber ext st)) = protoSegment st.
Proof.
  unfold finishSegment. simpl.
  now rewrite updateParameters_protoSegment.
Qed.

(** *** One seed pair *)

(** The three ways the body of the inner loop can end: the pair is passed
    over or its proto-segment is too small (no segment, flags untouched);
    a segment is stored and the function returns; a segment is stored, its
    hits are flagged and the search goes on. *)
Lemma seedPair_cases (rechits : list Hit) (nHit : Z)
    (i1 : nat) (h1 : Hit) (layer1 : Z) (gp1 lp1 : Point3 F)
    (i2 : nat) (h2 : Hit) (layer2 : Z) (st : State) (segs : list Segment) :
  let fl := seedPair theChamber ext cfg rechits nHit i1 h1 layer1 gp1 lp1 i2 h2 layer2 st segs in
  let st2 := grownSegment theChamber ext cfg rechits i1 h1 gp1 lp1 i2 h2 layer2 st in
  let st3 := fst (finishSegment theChamber ext st2) in
  let temp := snd (finishSegment theChamber ext st2) in
  (exists st', fl = Continue st' segs /\ usedHits st' = usedHits st) \/
  ((minLayersApart cfg <= layer2 - layer1)%Z /\
   nth i2 (usedHits st) false = false /\
   (segmentThreshold cfg nHit <= Z.of_nat (length (protoSegment st2)))%Z /\
   ((fl = Return (segs ++ [temp]) /\
     ((wrap64 (nHit - Z.of_nat (length (protoSegment st3))) < 3)%Z \/
      (4 < Z.of_nat (length (segs ++ [temp])))%Z)) \/
    (fl = Continue (flagHitsAsUsed st3 rechits) (segs ++ [temp]) /\
     (3 <= wrap64 (nHit - Z.of_nat (length (protoSegment st3))))%Z /\
     (Z.of_nat (length (segs ++ [temp])) <= 4)%Z))).
Proof.
  cbv zeta. unfold seedPair, grownSegment.
  destruct (nth i2 (usedHits st) false) eqn:Hused; [left; eauto |].
  destruct (layer2 - layer1 <? minLayersApart cfg)%Z eqn:Hgap; [left; eauto |].
  case_if; [left; eexists; split; [reflexivity | reflexivity] |].
  case_if; [left; eexists; split; [reflexivity | reflexivity] |].
  pose proof (tryAddingHitsToSegment_usedHits
                (set_protoSegment
                   (seedState st h1 (seedSlopes theChamber h1 gp1 lp1 h2 layer2)) [h1; h2])
                rechits i1 i2) as Hframe.
  set (st2 := tryAddingHitsToSegment theChamber ext cfg _ rechits i1 i2) in *.
  destruct (Z.of_nat (length (protoSegment st2)) <? segmentThreshold cfg nHit)%Z eqn:Hsize.
  - left. eexists; split; [reflexivity | exact Hframe].
  - right. apply Z.ltb_ge in Hgap, Hsize.
    repeat split; try assumption.
    destruct (finishSegment theChamber ext st2) as [st3 temp] eqn:Hfin.
    cbn [fst snd].
    case_if; [left; split; [reflexivity | left; now apply Z.ltb_lt] |].
    case_if; [left; split; [reflexivity | right; now apply Z.ltb_lt] |].
    right. repeat split; now apply Z.ltb_ge.
Qed.

(** *** A property of every stored segment *)

Section StoredSegments.

Variable nHit : Z.
Variable P : Segment -> Prop.

(** [P] holds of whatever a seed pair stores: the pair has the layer gap
    asked for and its grown proto-segment reaches the threshold. *)
Hypothesis P_stored :
  forall (rechits : list Hit) (i1 : nat) (h1 : Hit) (gp1 lp1 : Point3 F)
         (i2 : nat) (h2 : Hit) (st : State),
    (minLayersApart cfg <= layer h2 - layer h1)%Z ->
    (segmentThreshold cfg nHit
     <= Z.of_nat (length (protoSegment (grownSegment theChamber ext cfg rechits i1 h1 gp1 lp1 i2 h2 (layer h2) st))))%Z ->
    P (snd (finishSegment theChamber ext
              (grownSegment theChamber ext cfg rechits i1 h1 gp1 lp1 i2 h2 (layer h2) st))).

Lemma seedPair_stored (rechits : list Hit)
    (i1 : nat) (h1 : Hit) (gp1 lp1 : Point3 F) (i2 : nat) (h2 : Hit)
    (st : State) (segs : list Segment) :
  Forall P segs ->
  Forall P (flow_segments
              (seedPair theChamber ext cfg rechits nHit i1 h1 (layer h1) gp1 lp1
                        i2 h2 (layer h2) st segs)).
Proof.
  intro Hsegs.
  destruct (seedPair_cases rechits nHit i1 h1 (layer h1) gp1 lp1 i2 h2 (layer h2) st segs)
    as [(st' & -> & _) | (Hgap & _ & Hsize & [[-> _] | [-> _]])]; simpl;
    try assumption;
    (apply Forall_app; split; [assumption | constructor; [| constructor]]);
    now apply P_stored.
Qed.

Lemma innerLoop_stored (rechits : list Hit)
    (i1 : nat) (h1 : Hit) (gp1 lp1 : Point3 F) (seconds : list (nat * (Hit * Z))) :
  layersAgree seconds ->
  forall (st : State) (segs : list Segment),
    Forall P segs ->
    Forall P (flow_segments
                (innerLoop theChamber ext cfg rechits nHit i1 h1 (layer h1) gp1 lp1
                           seconds st segs)).
Proof.
  induction seconds as [| [i2 [h2 layer2]] rest IH]; intros Hagree st segs Hsegs; simpl.
  - assumption.
  - assert (layer2 = layer h2) as -> by (apply (Hagree i2); now left).
    pose proof (seedPair_stored rechits i1 h1 gp1 lp1 i2 h2 st segs Hsegs) as Hstep.
    destruct (seedPair theChamber ext cfg rechits nHit i1 h1 (layer h1) gp1 lp1
                       i2 h2 (layer h2) st segs) as [st' segs' | segs']; simpl in *.
    + apply IH; [| assumption].
      intros i h l Hin. apply (Hagree i). now right.
    + assumption.
Qed.

Lemma outerLoop_stored (rechits : list Hit) (layerIndex : list Z)
    (firsts : list (nat * (Hit * Z))) :
  layersAgree (secondSeeds rechits layerIndex) ->
  layersAgree firsts ->
  forall (st : State) (segs : list Segment),
    Forall P segs ->
    Forall P (flow_segments
                (outerLoop theChamber ext cfg rechits layerIndex nHit firsts st segs)).
Proof.
  intro Hsec.
  induction firsts as [| [i1 [h1 layer1]] rest IH]; intros Hagree st segs Hsegs; simpl.
  - assumption.
  - assert (Hrest : layersAgree rest)
      by (intros i h l Hin; apply (Hagree i); now right).
    assert (layer1 = layer h1) as -> by (apply (Hagree i1); now left).
    case_if; [now apply IH |].
    pose proof (innerLoop_stored rechits i1 h1
                  (layer_toGlobal theChamber (layer h1) (localPosition h1))
                  (toLocal theChamber (layer_toGlobal theChamber (layer h1) (localPosition h1)))
                  (secondSeeds rechits layerIndex) Hsec st segs Hsegs) as Hstep.
    destruct (innerLoop theChamber ext cfg rechits nHit i1 h1 (layer h1) _ _
                        (secondSeeds rechits layerIndex) st segs) as [st' segs' | segs'];
      simpl in *.
    + now apply IH.
    + assumption.
Qed.

End StoredSegments.

(** *** The two lists stay in step *)

Lemma enumerate_In {A : Type} (l : list A) (i : nat) (a : A) :
  In (i, a) (enumerate l) -> In a l.
Proof. unfold enumerate. apply in_combine_r. Qed.

Lemma combine_layers_agree (rechits : list Hit) (h : Hit) (l : Z) :
  In (h, l) (combine rechits (map (@layer F) rechits)) -> l = layer h.
Proof.
  induction rechits as [| x rest IH]; simpl; [tauto |].
  intros [Heq | Hin]; [now inversion Heq | now apply IH].
Qed.

Lemma firsts_agree (rechits : list Hit) :
  layersAgree (enumerate (combine rechits (map (@layer F) rechits))).
Proof.
  intros i h l Hin. apply enumerate_In in Hin. now apply combine_layers_agree in Hin.
Qed.

Lemma tl_In {A : Type} (l : list A) (a : A) : In a (tl l) -> In a l.
Proof. destruct l; simpl; auto. Qed.

Lemma seconds_agree (rechits : list Hit) :
  layersAgree (secondSeeds rechits (map (@layer F) rechits)).
Proof.
  intros i h l Hin. unfold secondSeeds in Hin. apply in_rev in Hin.
  apply (firsts_agree rechits i). now apply tl_In.
Qed.

(** The reversal keeps the layer list the list of the hits' layers. *)
Lemma orderHits_in_step (z1 z6 : F) (rechits : list Hit) :
  fst (orderHits z1 z6 (map (@layer F) rechits) rechits)
  = map (@layer F) (snd (orderHits z1 z6 (map (@layer F) rechits) rechits)).
Proof.
  unfold orderHits. repeat case_if; simpl; try reflexivity; now rewrite map_rev.
Qed.

(** What holds of every stored segment holds of every returned one. *)
Lemma buildSegments_stored (P : Segment -> Prop) (st : State) (rechits0 : list Hit) :
  (forall (rechits : list Hit) (i1 : nat) (h1 : Hit) (gp1 lp1 : Point3 F)
          (i2 : nat) (h2 : Hit) (st' : State),
      (minLayersApart cfg <= layer h2 - layer h1)%Z ->
      (segmentThreshold cfg (Z.of_nat (length rechits0))
       <= Z.of_nat (length (protoSegment
                              (grownSegment theChamber ext cfg rechits i1 h1 gp1 lp1 i2 h2 (layer h2) st'))))%Z ->
      P (snd (finishSegment theChamber ext
                (grownSegment theChamber ext cfg rechits i1 h1 gp1 lp1 i2 h2 (layer h2) st')))) ->
  Forall P (buildSegments theChamber ext cfg st rechits0).
Proof.
  intro HP. unfold buildSegments.
  case_if; [constructor |].
  pose proof (orderHits_in_step (layer_z theChamber 1) (layer_z theChamber 6) rechits0) as Hstep.
  destruct (orderHits _ _ _ rechits0) as [layerIndex rechits]; simpl in Hstep. subst layerIndex.
  apply outerLoop_stored; try assumption.
  - apply seconds_agree.
  - apply firsts_agree.
  - constructor.
Qed.

(** *** At most five segments *)

Lemma seedPair_bounded (rechits : list Hit) (nHit : Z)
    (i1 : nat) (h1 : Hit) (layer1 : Z) (gp1 lp1 : Point3 F)
    (i2 : nat) (h2 : Hit) (layer2 : Z) (st : State) (segs : list Segment) :
  (length segs <= 4)%nat ->
  flow_bounded (seedPair theChamber ext cfg rechits nHit i1 h1 layer1 gp1 lp1
                         i2 h2 layer2 st segs).
Proof.
  intro Hlen.
  destruct (seedPair_cases rechits nHit i1 h1 layer1 gp1 lp1 i2 h2 layer2 st segs)
    as [(st' & -> & _) | (_ & _ & _ & [[-> _] | (-> & _ & Hfew)])]; simpl.
  - assumption.
  - rewrite length_app. simpl. lia.
  - apply Nat2Z.inj_le. exact Hfew.
Qed.

Lemma innerLoop_bounded (rechits : list Hit) (nHit : Z)
    (i1 : nat) (h1 : Hit) (layer1 : Z) (gp1 lp1 : Point3 F)
    (seconds : list (nat * (Hit * Z))) (st : State) (segs : list Segment) :
  (length segs <= 4)%nat ->
  flow_bounded (innerLoop theChamber ext cfg rechits nHit i1 h1 layer1 gp1 lp1
                          seconds st segs).
Proof.
  revert st segs.
  induction seconds as [| [i2 [h2 layer2]] rest IH]; intros st segs Hlen; simpl.
  - assumption.
  - pose proof (seedPair_bounded rechits nHit i1 h1 layer1 gp1 lp1 i2 h2 layer2 st segs Hlen)
      as Hstep.
    destruct (seedPair theChamber ext cfg rechits nHit i1 h1 layer1 gp1 lp1
                       i2 h2 layer2 st segs) as [st' segs' | segs']; simpl in *.
    + now apply IH.
    + assumption.
Qed.

Lemma outerLoop_bounded (rechits : list Hit) (layerIndex : list Z) (nHit : Z)
    (firsts : list (nat * (Hit * Z))) (st : State) (segs : list Segment) :
  (length segs <= 4)%nat ->
  flow_bounded (outerLoop theChamber ext cfg rechits layerIndex nHit firsts st segs).
Proof.
  revert st segs.
  induction firsts as [| [i1 [h1 layer1]] rest IH]; intros st segs Hlen; simpl.
  - assumption.
  - case_if; [now apply IH |].
    pose proof (innerLoop_bounded rechits nHit i1 h1 layer1
                  (layer_toGlobal theChamber layer1 (localPosition h1))
                  (toLocal theChamber (layer_toGlobal theChamber layer1 (localPosition h1)))
                  (secondSeeds rechits layerIndex) st segs Hlen) as Hstep.
    destruct (innerLoop theChamber ext cfg rechits nHit i1 h1 layer1 _ _
                        (secondSeeds rechits layerIndex) st segs) as [st' segs' | segs'];
      simpl in *.
    + now apply IH.
    + assumption.
Qed.

(** C2, as the code has it.  A chamber invocation returns at most five
    segments: the test [segmentInChamber.size() > 4] comes after the
    [push_back], so the fifth segment is stored before the function
    returns. *)
Theorem buildSegments_at_most_five (st : State) (rechits0 : list Hit) :
  (length (buildSegments theChamber ext cfg st rechits0) <= 5)%nat.
Proof.
  unfold buildSegments.
  case_if; [simpl; lia |].
  destruct (orderHits _ _ _ rechits0) as [layerIndex rechits].
  match goal with
  | |- (length (flow_segments ?fl) <= 5)%nat =>
      assert (Hb : flow_bounded fl) by (apply outerLoop_bounded; simpl; lia);
      destruct fl; simpl in *; lia
  end.
Qed.

(** *** Minimum size *)

Lemma wrap32_ge (n : Z) : (n < 2 ^ 32)%Z -> (n <= wrap32 n)%Z.
Proof.
  intro Hn. unfold wrap32.
  destruct (Z_lt_le_dec n 0) as [Hneg | Hpos].
  - pose proof (Z.mod_pos_bound n (2 ^ 32) ltac:(lia)). lia.
  - rewrite Z.mod_small; lia.
Qed.

Lemma iadd_range (n : Z) : (0 <= iadd n <= 2)%Z.
Proof. unfold iadd. repeat case_if; lia. Qed.

(** [iadd] by the hit count of the chamber: 0 up to 20 hits, 1 from 21 to
    30, 2 above 30. *)
Lemma iadd_tiers (n : Z) :
  iadd n = (if (30 <? n)%Z then 2 else if (20 <? n)%Z then 1 else 0)%Z.
Proof.
  unfold iadd.
  destruct (30 <? n)%Z eqn:H30, (20 <? n)%Z eqn:H20; try reflexivity.
  apply Z.ltb_lt in H30. apply Z.ltb_ge in H20. lia.
Qed.

(** C8.  With [minHitsPerSegment] an [int]: every returned segment has at
    least [minHitsPerSegment] hits, one more when the chamber has more
    than 20 hits, two more when it has more than 30; and a seed pair whose
    proto-segment is below that stores nothing, flags nothing, and the
    inner loop goes on with the seed pairs that remain. *)
Theorem buildSegments_minimum_hits (st : State) (rechits0 : list Hit) :
  (- 2 ^ 31 <= minHitsPerSegment cfg < 2 ^ 31)%Z ->
  Forall (fun s : Segment =>
            (minHitsPerSegment cfg
             + (if (30 <? Z.of_nat (length rechits0))%Z then 2
                else if (20 <? Z.of_nat (length rechits0))%Z then 1 else 0)
             <= Z.of_nat (length (seg_hits s)))%Z)
         (buildSegments theChamber ext cfg st rechits0) /\
  (forall (rechits : list Hit) (nHit : Z) (i1 : nat) (h1 : Hit) (layer1 : Z)
          (gp1 lp1 : Point3 F) (i2 : nat) (h2 : Hit) (layer2 : Z)
          (st' : State) (segs : list Segment),
      (Z.of_nat (length (protoSegment (grownSegment theChamber ext cfg rechits i1 h1 gp1 lp1 i2 h2 layer2 st')))
       < minHitsPerSegment cfg
         + (if (30 <? nHit)%Z then 2 else if (20 <? nHit)%Z then 1 else 0))%Z ->
      exists st'',
        seedPair theChamber ext cfg rechits nHit i1 h1 layer1 gp1 lp1 i2 h2 layer2 st' segs
        = Continue st'' segs /\
        usedHits st'' = usedHits st' /\
        forall rest : list (nat * (Hit * Z)),
          innerLoop theChamber ext cfg rechits nHit i1 h1 layer1 gp1 lp1
                    ((i2, (h2, layer2)) :: rest) st' segs
          = innerLoop theChamber ext cfg rechits nHit i1 h1 layer1 gp1 lp1 rest st'' segs).
Proof.
  intro Hint. split.
  - apply buildSegments_stored.
    intros rechits i1 h1 gp1 lp1 i2 h2 st' _ Hsize.
    destruct (finishSegment_hits
                (grownSegment theChamber ext cfg rechits i1 h1 gp1 lp1 i2 h2 (layer h2) st')) as [-> _].
    rewrite <- iadd_tiers.
    pose proof (iadd_range (Z.of_nat (length rechits0))).
    unfold segmentThreshold in Hsize.
    pose proof (wrap32_ge (minHitsPerSegment cfg + iadd (Z.of_nat (length rechits0)))
                  ltac:(lia)).
    lia.
  - intros rechits nHit i1 h1 layer1 gp1 lp1 i2 h2 layer2 st' segs Hsmall.
    rewrite <- iadd_tiers in Hsmall.
    destruct (seedPair_cases rechits nHit i1 h1 layer1 gp1 lp1 i2 h2 layer2 st' segs)
      as [(st'' & Hfl & Hused) | (_ & _ & Hsize & _)].
    + exists st''. split; [exact Hfl | split; [exact Hused |]].
      intro rest. cbn [innerLoop]. now rewrite Hfl.
    + exfalso.
      pose proof (iadd_range nHit).
      unfold segmentThreshold in Hsize.
      pose proof (wrap32_ge (minHitsPerSegment cfg + iadd nHit) ltac:(lia)).
      lia.
Qed.

(** *** One hit per layer *)

Lemma distinctLayers_snoc (hits : list Hit) (h : Hit) :
  distinctLayers hits ->
  (forall x, In x hits -> layer x <> layer h) ->
  distinctLayers (hits ++ [h]).
Proof.
  intros Hd Hfree. unfold distinctLayers. rewrite map_app. simpl.
  apply NoDup_app.
  - exact Hd.
  - constructor; [simpl; tauto | constructor].
  - intros a Ha [<- | []].
    apply in_map_iff in Ha as (x & Hx & Hin).
    now apply (Hfree x Hin).
Qed.

Lemma eraseLayer_In (lay : Z) (hits : list Hit) (x : Hit) :
  In x (eraseLayer lay hits) -> In x hits /\ layer x <> lay.
Proof.
  unfold eraseLayer. intro Hin. apply filter_In in Hin as [Hin Hne]. split; [exact Hin |].
  apply negb_true_iff, Z.eqb_neq in Hne. exact Hne.
Qed.

Lemma eraseLayer_distinct (lay : Z) (hits : list Hit) :
  distinctLayers hits -> distinctLayers (eraseLayer lay hits).
Proof.
  unfold distinctLayers.
  induction hits as [| x rest IH]; simpl; intro Hd; [constructor |].
  inversion Hd as [| ? ? Hnotin Hrest]; subst.
  destruct (negb (layer x =? lay)%Z); simpl; [| now apply IH].
  constructor; [| now apply IH].
  intro Hin. apply Hnotin.
  apply in_map_iff in Hin as (y & Hy & Hiny).
  apply eraseLayer_In in Hiny as [Hiny _].
  apply in_map_iff. now exists y.
Qed.

Lemma hasHitOnLayer_false (st : State) (lay : Z) :
  hasHitOnLayer st lay = false ->
  forall x, In x (protoSegment st) -> layer x <> lay.
Proof.
  intros Hnone x Hin Heq.
  assert (Hex : hasHitOnLayer st lay = true).
  { unfold hasHitOnLayer. apply existsb_exists.
    exists x. split; [exact Hin | now apply Z.eqb_eq]. }
  congruence.
Qed.

(** [addHit] appends the hit or does nothing. *)
Lemma addHit_protoSegment (st : State) (h : Hit) (lay : Z) :
  (fst (addHit st h lay) = true /\
   protoSegment (snd (addHit st h lay)) = protoSegment st ++ [h]) \/
  (fst (addHit st h lay) = false /\ snd (addHit st h lay) = st).
Proof.
  unfold addHit. destruct (existsb _ _); simpl; auto.
Qed.

(** Direct extension puts a hit on the proto-segment only when no hit of
    the proto-segment is on its layer. *)
Lemma extend_step_protoSegment (i1 i2 : nat) (st : State) (i : nat) (h : Hit) :
  protoSegment (extend_step theChamber ext cfg i1 i2 st i h) = protoSegment st \/
  (hasHitOnLayer st (layer h) = false /\
   protoSegment (extend_step theChamber ext cfg i1 i2 st i h) = protoSegment st ++ [h]).
Proof.
  unfold extend_step.
  repeat case_if; try (left; reflexivity).
  apply negb_true_iff in Heqb2.
  destruct (addHit_protoSegment st h (layer h)) as [[_ Hadd] | [_ Hsame]].
  - right. split; assumption.
  - left. now rewrite Hsame.
Qed.

Lemma extendLoop_distinct (i1 i2 : nat) (rest : list Hit) (i : nat) (st : State) :
  distinctLayers (protoSegment st) ->
  distinctLayers (protoSegment (extendLoop theChamber ext cfg i1 i2 i rest st)).
Proof.
  revert i st. induction rest as [| h rest IH]; intros i st Hd; simpl; [exact Hd |].
  apply IH.
  destruct (extend_step_protoSegment i1 i2 st i h) as [-> | [Hfree ->]]; [exact Hd |].
  apply distinctLayers_snoc; [exact Hd |].
  now apply hasHitOnLayer_false.
Qed.

(** Conflict resolution: when the add goes through, the proto-segment is
    the old one without any hit of layer [lay], followed by the candidate. *)
Lemma substituteHit_protoSegment (st : State) (h : Hit) (lay : Z) :
  fst (substituteHit theChamber ext st h lay) = true ->
  protoSegment (snd (substituteHit theChamber ext st h lay))
  = eraseLayer lay (protoSegment st) ++ [h].
Proof.
  unfold substituteHit.
  destruct (addHit_protoSegment
              (set_protoSegment st (eraseLayer lay (protoSegment st))) h lay)
    as [[Hok Hadd] | [Hfail _]];
    destruct (addHit _ h lay) as [ok st1]; simpl in *; subst ok; [| discriminate].
  intros _. now rewrite updateParameters_protoSegment.
Qed.

Lemma compareProtoSegment_distinct (st : State) (h : Hit) :
  distinctLayers (protoSegment st) ->
  distinctLayers (protoSegment (compareProtoSegment theChamber ext st h (layer h))).
Proof.
  intro Hd.
  destruct (compareProtoSegment_cases theChamber ext st h (layer h))
    as [[-> _] | (-> & _ & Hok)]; [exact Hd |].
  rewrite (substituteHit_protoSegment st h (layer h) Hok).
  apply distinctLayers_snoc.
  - now apply eraseLayer_distinct.
  - intros x Hin. now apply eraseLayer_In in Hin.
Qed.

Lemma resolve_distinct (hits : list Hit) (st : State) :
  distinctLayers (protoSegment st) ->
  distinctLayers
    (protoSegment
       (fold_left (fun s h => compareProtoSegment theChamber ext s h (layer h)) hits st)).
Proof.
  revert st. induction hits as [| h hits IH]; intros st Hd; simpl; [exact Hd |].
  apply IH. now apply compareProtoSegment_distinct.
Qed.

Lemma tryAddingHitsToSegment_distinct (st : State) (rechits : list Hit) (i1 i2 : nat) :
  distinctLayers (protoSegment st) ->
  distinctLayers (protoSegment (tryAddingHitsToSegment theChamber ext cfg st rechits i1 i2)).
Proof.
  intro Hd. unfold tryAddingHitsToSegment.
  assert (Hext : distinctLayers
                   (protoSegment (extendLoop theChamber ext cfg i1 i2 0 rechits
                                             (set_closeHits st []))))
    by now apply extendLoop_distinct.
  case_if; [exact Hext |].
  apply resolve_distinct. now rewrite updateParameters_protoSegment.
Qed.

(** C9.  With [minLayersApart >= 1], no two hits of a returned segment are
    on the same layer: the seeds are on different layers, direct extension
    adds a hit only to a layer that holds none, and conflict resolution
    takes every hit of the candidate's layer out before it adds the
    candidate. *)
Theorem buildSegments_one_hit_per_layer (st : State) (rechits0 : list Hit) :
  (1 <= minLayersApart cfg)%Z ->
  Forall (fun s : Segment => NoDup (map (@layer F) (seg_hits s)))
         (buildSegments theChamber ext cfg st rechits0) /\
  (forall (i1 i2 : nat) (st' : State) (i : nat) (h : Hit),
      protoSegment (extend_step theChamber ext cfg i1 i2 st' i h) = protoSegment st' \/
      (hasHitOnLayer st' (layer h) = false /\
       protoSegment (extend_step theChamber ext cfg i1 i2 st' i h) = protoSegment st' ++ [h])) /\
  (forall (st' : State) (h : Hit) (lay : Z),
      fst (substituteHit theChamber ext st' h lay) = true ->
      protoSegment (snd (substituteHit theChamber ext st' h lay))
      = eraseLayer lay (protoSegment st') ++ [h]).
Proof.
  intro Hapart. split; [| split].
  - apply buildSegments_stored.
    intros rechits i1 h1 gp1 lp1 i2 h2 st' Hgap _.
    destruct (finishSegment_hits
                (grownSegment theChamber ext cfg rechits i1 h1 gp1 lp1 i2 h2 (layer h2) st')) as [-> _].
    unfold grownSegment. apply tryAddingHitsToSegment_distinct. simpl.
    unfold distinctLayers. simpl.
    constructor; [| constructor; [simpl; tauto | constructor]].
    simpl. intros [Heq | []]. lia.
  - exact extend_step_protoSegment.
  - exact substituteHit_protoSegment.
Qed.

(** *** The ordering step *)

(** C4, as the code has it.  The step turns both lists round or neither,
    by the chamber alone; done twice it gives back the lists it started
    from, whatever their order. *)
Theorem orderHits_twice (z1 z6 : F) (layerIndex : list Z) (rechits : list Hit) :
  orderHits z1 z6 (fst (orderHits z1 z6 layerIndex rechits))
                  (snd (orderHits z1 z6 layerIndex rechits))
  = (layerIndex, rechits) /\
  (orderHits z1 z6 layerIndex rechits = (layerIndex, rechits) \/
   orderHits z1 z6 layerIndex rechits = (rev layerIndex, rev rechits)).
Proof.
  unfold orderHits.
  destruct (fgt z1 f0), (fgt z1 z6), (flt z1 f0), (flt z1 z6); simpl;
    rewrite ?rev_involutive; auto.
Qed.

(** *** The seed slopes *)

(** The slopes of a seed pair are a function of the first seed and of the
    layer of the second: the position of the second seed is not read. *)
Lemma seedSlopes_second_hit_unread (h1 : Hit) (gp1 lp1 : Point3 F) (h2 h2' : Hit) (layer2 : Z) :
  seedSlopes theChamber h1 gp1 lp1 h2 layer2 = seedSlopes theChamber h1 gp1 lp1 h2' layer2.
Proof. reflexivity. Qed.

(** *** The used flags are only ever set *)

Lemma flagHit_length (rechits : list Hit) (used : list bool) (hi : Hit) :
  length used = length rechits -> length (flagHit rechits used hi) = length rechits.
Proof.
  intro Hlen. unfold flagHit. rewrite length_map, length_combine, Hlen.
  apply Nat.min_id.
Qed.

(** One scan of [flagHit]: a flag that is set stays set, and the flag of
    every position that holds the hit [hi] itself is set. *)
Lemma flagHit_nth (rechits : list Hit) (used : list bool) (hi : Hit) (i : nat) (h : Hit) :
  length used = length rechits ->
  nth_error rechits i = Some h ->
  nth i (flagHit rechits used hi) false
  = (if same_hit hi h then true else nth i used false).
Proof.
  unfold flagHit. revert used i.
  induction rechits as [| x rest IH]; intros used i Hlen Hnth.
  - destruct i; discriminate.
  - destruct used as [| u used]; [discriminate |].
    destruct i as [| i]; simpl in *.
    + now inversion Hnth.
    + apply IH; [lia | exact Hnth].
Qed.

Lemma flagHits_nth (rechits : list Hit) (hits : list Hit) (used : list bool)
    (i : nat) (h : Hit) :
  length used = length rechits ->
  nth_error rechits i = Some h ->
  nth i (fold_left (flagHit rechits) hits used) false
  = (existsb (fun hi => same_hit hi h) hits || nth i used false).
Proof.
  revert used. induction hits as [| hi hits IH]; intros used Hlen Hnth; simpl.
  - reflexivity.
  - rewrite IH; [| now apply flagHit_length | exact Hnth].
    rewrite (flagHit_nth rechits used hi i h Hlen Hnth).
    destruct (same_hit hi h); simpl; [now rewrite orb_true_r | reflexivity].
Qed.

Lemma flagHits_length (rechits : list Hit) (hits : list Hit) (used : list bool) :
  length used = length rechits ->
  length (fold_left (flagHit rechits) hits used) = length rechits.
Proof.
  revert used. induction hits as [| hi hits IH]; intros used Hlen; simpl.
  - exact Hlen.
  - apply IH. now apply flagHit_length.
Qed.

(** [flagHitsAsUsed]: the flag at position [i] is set when it was set
    before, or when the hit at [i] is, by identity, one of the
    proto-segment or one of the close hits; and in no other case. *)
Lemma flagHitsAsUsed_nth (st : State) (rechits : list Hit) (i : nat) (h : Hit) :
  length (usedHits st) = length rechits ->
  nth_error rechits i = Some h ->
  nth i (usedHits (flagHitsAsUsed st rechits)) false
  = (existsb (fun hi => same_hit hi h) (closeHits st)
     || (existsb (fun hi => same_hit hi h) (protoSegment st)
         || nth i (usedHits st) false)).
Proof.
  intros Hlen Hnth. unfold flagHitsAsUsed. simpl.
  rewrite (flagHits_nth rechits (closeHits st) _ i h);
    [| now apply flagHits_length | exact Hnth].
  now rewrite (flagHits_nth rechits (protoSegment st) _ i h Hlen Hnth).
Qed.

(** A flagged hit is never taken as second seed nor by the extension. *)
Lemma flagged_second_seed_skipped (rechits : list Hit) (nHit : Z)
    (i1 : nat) (h1 : Hit) (layer1 : Z) (gp1 lp1 : Point3 F)
    (i2 : nat) (h2 : Hit) (layer2 : Z) (st : State) (segs : list Segment) :
  nth i2 (usedHits st) false = true ->
  seedPair theChamber ext cfg rechits nHit i1 h1 layer1 gp1 lp1 i2 h2 layer2 st segs
  = Continue st segs.
Proof. intro Hused. unfold seedPair. now rewrite Hused. Qed.

Lemma flagged_hit_not_extended (i1 i2 : nat) (st : State) (i : nat) (h : Hit) :
  nth i (usedHits st) false = true ->
  extend_step theChamber ext cfg i1 i2 st i h = st.
Proof.
  intro Hused. unfold extend_step. rewrite Hused. now destruct (_ || _).
Qed.

(** The slope cut: a pair whose provisional slopes, as the source computes
    them, exceed either bound stores no segment and flags nothing. *)
Lemma seedPair_slope_cut (rechits : list Hit) (nHit : Z)
    (i1 : nat) (h1 : Hit) (layer1 : Z) (gp1 lp1 : Point3 F)
    (i2 : nat) (h2 : Hit) (layer2 : Z) (st : State) (segs : list Segment) :
  fgt (fabs (snd (seedSlopes theChamber h1 gp1 lp1 h2 layer2))) (tanThetaMax cfg) = true \/
  fgt (fabs (fst (seedSlopes theChamber h1 gp1 lp1 h2 layer2))) (tanPhiMax cfg) = true ->
  exists st',
    seedPair theChamber ext cfg rechits nHit i1 h1 layer1 gp1 lp1 i2 h2 layer2 st segs
    = Continue st' segs /\
    usedHits st' = usedHits st /\
    protoSegment st' = (if nth i2 (usedHits st) false then protoSegment st
                        else if (layer2 - layer1 <? minLayersApart cfg)%Z then protoSegment st
                        else []).
Proof.
  intro Hcut. unfold seedPair.
  destruct (nth i2 (usedHits st) false); [eauto |].
  destruct (layer2 - layer1 <? minLayersApart cfg)%Z; [eauto |].
  cbn [protoSlope_v protoSlope_u seedState].
  destruct (fgt (fabs (snd (seedSlopes theChamber h1 gp1 lp1 h2 layer2))) (tanThetaMax cfg))
    eqn:Htheta; [eexists; repeat split |].
  destruct Hcut as [Hcut | Hcut]; [congruence |].
  rewrite Hcut. eexists; repeat split.
Qed.

End SearchProperties.

(** ** Binary64 rounding within representable bounds

    The azimuth arithmetic of [isHitNearSegment] adds and subtracts values
    of magnitude at most [2.*M_PI].  The sum or difference of two binary64
    values is the rounding of an integer multiple of a power of two; when
    that exact value is within the bounds [-P, P] of a binary64 value [P]
    with a full mantissa, so is the rounded one. *)

Section BinaryRounding.

Local Open Scope Z_scope.

(** *** The order of spec floats *)

Ltac sf_cmp :=
  repeat match goal with
         | |- context [(?a ?= ?b)%Z] => destruct (Z.compare_spec a b)
         | |- context [Pos.compare_cont Eq ?a ?b] =>
             change (Pos.compare_cont Eq a b) with (Pos.compare a b);
             destruct (Pos.compare_spec a b)
         end;
  simpl; intros; subst; try discriminate; try reflexivity; try lia.

Lemma SFleb_trans (x y z : spec_float) :
  SFleb x y = true -> SFleb y z = true -> SFleb x z = true.
Proof.
  unfold SFleb, SFcompare.
  destruct x as [sx | sx | | sx mx ex], y as [sy | sy | | sy my ey],
           z as [sz | sz | | sz mz ez];
    try (destruct sx); try (destruct sy); try (destruct sz);
    try (simpl; intros; first [discriminate | reflexivity]);
    sf_cmp.
Qed.

Lemma SFltb_leb_trans (x y z : spec_float) :
  SFltb x y = true -> SFleb y z = true -> SFltb x z = true.
Proof.
  unfold SFltb, SFleb, SFcompare.
  destruct x as [sx | sx | | sx mx ex], y as [sy | sy | | sy my ey],
           z as [sz | sz | | sz mz ez];
    try (destruct sx); try (destruct sy); try (destruct sz);
    try (simpl; intros; first [discriminate | reflexivity]);
    sf_cmp.
Qed.

Lemma SFleb_not_ltb (x y : spec_float) :
  SFleb x y = true -> SFltb y x = false.
Proof.
  unfold SFltb, SFleb, SFcompare.
  destruct x as [sx | sx | | sx mx ex], y as [sy | sy | | sy my ey];
    try (destruct sx); try (destruct sy);
    try (simpl; intros; first [discriminate | reflexivity]);
    sf_cmp.
Qed.

Lemma SFltb_leb (x y : spec_float) : SFltb x y = true -> SFleb x y = true.
Proof.
  unfold SFltb, SFleb. destruct (SFcompare x y) as [[| |] |]; intros; try discriminate; reflexivity.
Qed.

Lemma SFleb_opp (x y : spec_float) :
  SFleb x y = true -> SFleb (SFopp y) (SFopp x) = true.
Proof.
  unfold SFleb, SFcompare, SFopp.
  destruct x as [sx | sx | | sx mx ex], y as [sy | sy | | sy my ey];
    try (destruct sx); try (destruct sy);
    try (simpl; intros; first [discriminate | reflexivity]);
    sf_cmp.
Qed.

Lemma SFleb_total (x y : spec_float) :
  SFleb x x = true -> SFleb y y = true -> SFltb y x = false -> SFleb x y = true.
Proof.
  unfold SFltb, SFleb, SFcompare.
  destruct x as [sx | sx | | sx mx ex], y as [sy | sy | | sy my ey];
    try (destruct sx); try (destruct sy);
    try (simpl; intros; first [discriminate | reflexivity]);
    sf_cmp.
Qed.

Lemma SFleb_number (x y : spec_float) :
  SFleb x y = true -> SFleb x x = true /\ SFleb y y = true.
Proof.
  unfold SFleb, SFcompare.
  destruct x as [sx | sx | | sx mx ex], y as [sy | sy | | sy my ey];
    try (destruct sx); try (destruct sy);
    try (simpl; intros; first [discriminate | split; reflexivity]);
    intros _; split; simpl; rewrite ?Z.compare_refl;
    change (Pos.compare_cont Eq ?a ?b) with (Pos.compare a b);
    rewrite ?Pos.compare_refl; reflexivity.
Qed.

(** *** Shifts *)

Lemma shr_1_inv (m k : Z) (r : shr_record) :
  0 <= k -> shr_inv m k r -> shr_inv m (k + 1) (shr_1 r).
Proof.
  intros Hk (Hpos & rem & Hrem & Hm & Hbits).
  destruct r as [mm rr ss]. unfold shr_inv.
  cbn [shr_m shr_r shr_s] in Hpos, Hm, Hbits.
  assert (H2 : 2 ^ (k + 1) = 2 * 2 ^ k)
    by (replace (k + 1) with (Z.succ k) by lia; apply Z.pow_succ_r; lia).
  assert (Hp : 0 < 2 ^ k) by (apply Z.pow_pos_nonneg; lia).
  rewrite H2. generalize dependent (2 ^ k). intros pw Hrem Hm _ Hp.
  destruct mm as [| p | p]; [| destruct p as [p | p |] |];
    cbn [shr_1 shr_m shr_r shr_s]; try lia.
  - split; [lia |]. exists rem.
    split; [lia |]. split; [lia |].
    intro H0. destruct (Hbits H0) as [-> ->]. split; reflexivity.
  - split; [lia |]. exists (pw + rem).
    split; [lia |]. split; [lia |]. intro H0. lia.
  - split; [lia |]. exists rem.
    split; [lia |]. split; [lia |].
    intro H0. destruct (Hbits H0) as [-> ->]. split; reflexivity.
  - split; [lia |]. exists (pw + rem).
    split; [lia |]. split; [lia |]. intro H0. lia.
Qed.

Lemma iter_shr_1_inv (p : positive) :
  forall (m k : Z) (r : shr_record),
    0 <= k -> shr_inv m k r -> shr_inv m (k + Zpos p) (SpecFloat.iter_pos shr_1 p r).
Proof.
  induction p as [p IH | p IH |]; intros m k r Hk Hinv; simpl.
  - replace (k + Zpos p~1) with (k + 1 + Zpos p + Zpos p) by lia.
    apply IH; [lia |]. apply IH; [lia |]. now apply shr_1_inv.
  - replace (k + Zpos p~0) with (k + Zpos p + Zpos p) by lia.
    apply IH; [lia |]. now apply IH.
  - now apply shr_1_inv.
Qed.

Lemma shr_spec (m e n : Z) :
  0 <= m ->
  exists k, 0 <= k /\ k = Z.max n 0 /\
            snd (shr (Build_shr_record m false false) e n) = e + k /\
            shr_inv m k (fst (shr (Build_shr_record m false false) e n)).
Proof.
  intro Hm.
  assert (H0 : shr_inv m 0 (Build_shr_record m false false)).
  { split; [exact Hm |]. exists 0. simpl. repeat split; lia. }
  destruct n as [| p | p]; simpl.
  - exists 0. split; [lia | split; [lia | split; [lia | exact H0]]].
  - exists (Zpos p). split; [lia | split; [lia | split; [lia |]]].
    apply (iter_shr_1_inv p m 0 _ (Z.le_refl 0) H0).
  - exists 0. split; [lia | split; [lia | split; [lia | exact H0]]].
Qed.

Lemma round_nearest_even_bounds (r : shr_record) :
  shr_m r <= round_nearest_even (shr_m r) (loc_of_shr_record r) <= shr_m r + 1 /\
  (shr_r r = false /\ shr_s r = false ->
   round_nearest_even (shr_m r) (loc_of_shr_record r) = shr_m r).
Proof.
  destruct r as [m rr ss]. cbn [shr_m shr_r shr_s].
  destruct rr, ss; cbn [loc_of_shr_record round_nearest_even].
  - split; [lia | intros [? ?]; congruence].
  - destruct (Z.even m); (split; [lia | intros [? ?]; congruence]).
  - split; [lia | intros [? ?]; congruence].
  - split; [lia | reflexivity].
Qed.

(** *** Digits *)

Lemma digits2_pos_bounds (p : positive) :
  2 ^ (Zpos (digits2_pos p) - 1) <= Zpos p < 2 ^ Zpos (digits2_pos p).
Proof.
  induction p as [p IH | p IH |]; simpl digits2_pos.
  - rewrite Pos2Z.inj_succ.
    replace (Z.succ (Zpos (digits2_pos p)) - 1) with (Z.succ (Zpos (digits2_pos p) - 1)) by lia.
    rewrite !Z.pow_succ_r by lia. lia.
  - rewrite Pos2Z.inj_succ.
    replace (Z.succ (Zpos (digits2_pos p)) - 1) with (Z.succ (Zpos (digits2_pos p) - 1)) by lia.
    rewrite !Z.pow_succ_r by lia. lia.
  - simpl. lia.
Qed.

Lemma iter_xO_value (d m : positive) :
  Zpos (Pos.iter xO m d) = Zpos m * 2 ^ Zpos d /\
  Zpos (digits2_pos (Pos.iter xO m d)) = Zpos (digits2_pos m) + Zpos d.
Proof.
  induction d as [| d IH] using Pos.peano_ind.
  - simpl. split; lia.
  - rewrite Pos.iter_succ. destruct IH as [IH1 IH2].
    rewrite Pos2Z.inj_succ, Z.pow_succ_r by lia.
    split.
    + rewrite Pos2Z.inj_xO, IH1. lia.
    + simpl digits2_pos. rewrite Pos2Z.inj_succ, IH2. lia.
Qed.

Lemma shl_align_spec (m : positive) (e e' : Z) :
  snd (shl_align m e e') = Z.min e e' /\
  Zpos (fst (shl_align m e e')) = Zpos m * 2 ^ (e - Z.min e e') /\
  Zpos (digits2_pos (fst (shl_align m e e'))) + Z.min e e' = Zpos (digits2_pos m) + e.
Proof.
  unfold shl_align.
  destruct (e' - e) as [| d | d] eqn:Hd; cbn [fst snd].
  - rewrite Z.min_l by lia. rewrite Z.sub_diag, Z.pow_0_r. lia.
  - rewrite Z.min_l by lia. rewrite Z.sub_diag, Z.pow_0_r. lia.
  - destruct (iter_xO_value d m) as [H1 H2].
    rewrite Z.min_r by lia. rewrite H1, H2.
    replace (e - e') with (Zpos d) by lia. lia.
Qed.

Lemma fexp64 (x : Z) : fexp 53 1024 x = Z.max (x - 53) (-1074).
Proof. reflexivity. Qed.

Lemma scaled_shift (m e k : Z) :
  -1074 <= e -> 0 <= k -> scaled (m * 2 ^ k) e = scaled m (e + k).
Proof.
  intros He Hk. unfold scaled.
  replace (e + k + 1074) with (k + (e + 1074)) by lia.
  rewrite (Z.pow_add_r 2 k (e + 1074)) by lia. ring.
Qed.

Lemma scaled_le_cancel (a b e : Z) :
  -1074 <= e -> scaled a e <= scaled b e -> a <= b.
Proof.
  intros He H. unfold scaled in H.
  apply Z.mul_le_mono_pos_r in H; [exact H |].
  apply Z.pow_pos_nonneg; lia.
Qed.

Lemma scaled_le_mono (a b e : Z) :
  -1074 <= e -> a <= b -> scaled a e <= scaled b e.
Proof.
  intros He H. unfold scaled.
  apply Z.mul_le_mono_nonneg_r; [| exact H].
  apply Z.pow_nonneg. lia.
Qed.

(** What validity gives: the exponent is at least -1074, the mantissa has
    at most 53 digits, and exactly 53 above the least exponent. *)
Lemma bounded_canonical (m : positive) (e : Z) :
  bounded 53 1024 m e = true ->
  -1074 <= e /\ Zpos (digits2_pos m) <= 53 /\
  (-1074 < e -> Zpos (digits2_pos m) = 53).
Proof.
  unfold bounded, canonical_mantissa. rewrite fexp64.
  intro H. apply andb_true_iff in H as [H _]. apply Z.eqb_eq in H. lia.
Qed.

Section Bounded.

Variable Mb : positive.
Variable Eb : Z.
Hypothesis HMb : 2 ^ 52 <= Zpos Mb < 2 ^ 53.
Hypothesis HEb : -1074 <= Eb <= 918.

Lemma exponent_below (m : Z) (d e : Z) :
  -1074 <= e -> 1 <= d -> 2 ^ (d - 1) <= m ->
  scaled m e <= scaled (Zpos Mb) Eb ->
  d + e - 53 <= Eb.
Proof.
  intros He Hd Hm Hle.
  assert (H1 : scaled (2 ^ (d - 1)) e <= scaled m e) by (now apply scaled_le_mono).
  assert (H2 : scaled (Zpos Mb) Eb < scaled (2 ^ 53) Eb).
  { unfold scaled. apply Z.mul_lt_mono_pos_r; [| exact (proj2 HMb)].
    apply Z.pow_pos_nonneg; lia. }
  unfold scaled in H1, H2, Hle.
  rewrite <- Z.pow_add_r in H1, H2 by lia.
  assert (H3 : 2 ^ (d - 1 + (e + 1074)) < 2 ^ (53 + (Eb + 1074))) by lia.
  apply Z.pow_lt_mono_r_iff in H3; lia.
Qed.

Lemma binary_round_bounded (s : bool) (p : positive) (e : Z) :
  -1074 <= e ->
  scaled (Zpos p) e <= scaled (Zpos Mb) Eb ->
  match binary_round 53 1024 s p e with
  | S754_zero s' => s' = s
  | S754_finite s' m e' =>
      s' = s /\ -1074 <= e' /\ scaled (Zpos m) e' <= scaled (Zpos Mb) Eb
  | _ => False
  end.
Proof.
  intros He Hle. unfold binary_round.
  destruct (shl_align_spec p e (fexp 53 1024 (Zpos (digits2_pos p) + e)))
    as (He1 & Hmz & Hdig).
  destruct (shl_align p e _) as [mz e1]. cbn [fst snd] in He1, Hmz, Hdig.
  rewrite fexp64 in He1, Hmz, Hdig.
  pose proof (digits2_pos_bounds p) as Hdp.
  pose proof (digits2_pos_bounds mz) as Hdmz.
  set (d := Zpos (digits2_pos p)) in *.
  set (fe := Z.max (d + e - 53) (-1074)) in *.
  assert (Hfe : fe <= Eb).
  { assert (d + e - 53 <= Eb) by (apply (exponent_below (Zpos p) d e); lia). lia. }
  rewrite <- He1 in Hmz, Hdig.
  assert (He1' : -1074 <= e1 <= fe) by lia.
  assert (He1e : e1 <= e) by lia.
  assert (Hval : scaled (Zpos mz) e1 = scaled (Zpos p) e).
  { rewrite Hmz. rewrite scaled_shift by lia. f_equal. lia. }
  unfold binary_round_aux, shr_fexp. cbn [Zdigits2 shr_record_of_loc].
  rewrite fexp64. rewrite Hdig. fold fe.
  destruct (shr_spec (Zpos mz) e1 (fe - e1) ltac:(lia)) as (k & Hk0 & Hk & Hsnd & Hq0 & rem & Hrem & Hm & Hbits).
  destruct (shr {| shr_m := Zpos mz; shr_r := false; shr_s := false |} e1 (fe - e1))
    as [mrs' e'].
  cbn [fst snd] in Hsnd, Hq0, Hm, Hbits.
  rewrite Z.max_l in Hk by lia. subst k.
  replace (e1 + (fe - e1)) with fe in Hsnd by lia. subst e'.
  destruct (round_nearest_even_bounds mrs') as [Hrne Hexact].
  set (m1 := round_nearest_even (shr_m mrs') (loc_of_shr_record mrs')) in *.
  (* the bound as a multiple of the unit in the last place *)
  set (K := Zpos Mb * 2 ^ (Eb - fe)).
  assert (HK : scaled K fe = scaled (Zpos Mb) Eb).
  { unfold K. rewrite scaled_shift by lia. f_equal. lia. }
  assert (Hm1 : m1 <= K).
  { assert (Hmz_le : Zpos mz <= K * 2 ^ (fe - e1)).
    { apply (scaled_le_cancel _ _ e1); [lia |].
      rewrite scaled_shift by lia. replace (e1 + (fe - e1)) with fe by lia.
      rewrite HK, Hval. exact Hle. }
    assert (Hpw : 0 < 2 ^ (fe - e1)) by (apply Z.pow_pos_nonneg; lia).
    rewrite Hm in Hmz_le.
    remember (2 ^ (fe - e1)) as pw eqn:Hpweq. clear Hpweq.
    clearbody K m1.
    destruct (Z.eq_dec rem 0) as [Hz | Hnz].
    - rewrite (Hexact (Hbits Hz)).
      apply (Z.mul_le_mono_pos_r _ _ pw Hpw). lia.
    - assert (Hlt : shr_m mrs' < K).
      { apply (Z.mul_lt_mono_pos_r pw _ _ Hpw). lia. }
      lia. }
  assert (Hm1pos : 0 <= m1) by lia.
  destruct (shr_spec m1 fe (fexp 53 1024 (Zdigits2 m1 + fe) - fe) Hm1pos)
    as (k2 & Hk20 & _ & Hsnd2 & Hq2 & rem2 & Hrem2 & Hm2 & _).
  destruct (shr {| shr_m := m1; shr_r := false; shr_s := false |} fe
                (fexp 53 1024 (Zdigits2 m1 + fe) - fe)) as [mrs'' e''].
  cbn [fst snd] in Hsnd2, Hq2, Hm2.
  assert (Hfinal : scaled (shr_m mrs'') e'' <= scaled (Zpos Mb) Eb).
  { rewrite Hsnd2, <- scaled_shift by lia. rewrite <- HK.
    apply scaled_le_mono; [lia |]. lia. }
  destruct (shr_m mrs'') as [| m'' | m''] eqn:Hm''; [reflexivity | | lia].
  assert (He'' : 1 + e'' - 53 <= Eb).
  { apply (exponent_below (Zpos m'') 1 e''); try lia; exact Hfinal. }
  replace (e'' <=? 1024 - 53) with true by (symmetry; apply Z.leb_le; lia).
  split; [reflexivity | split; [lia | exact Hfinal]].
Qed.

Lemma leb_of_scaled (m : positive) (e : Z) :
  bounded 53 1024 m e = true ->
  scaled (Zpos m) e <= scaled (Zpos Mb) Eb ->
  SFleb (S754_finite false m e) (S754_finite false Mb Eb) = true.
Proof.
  intros Hb Hle. destruct (bounded_canonical m e Hb) as (He & Hd & Hnormal).
  pose proof (digits2_pos_bounds m) as Hdig.
  assert (Hexp : Zpos (digits2_pos m) + e - 53 <= Eb)
    by (apply (exponent_below (Zpos m)); try lia; assumption).
  unfold SFleb, SFcompare.
  destruct (Z.compare_spec e Eb) as [Heq | Hlt | Hgt]; [| reflexivity | lia].
  subst e. apply scaled_le_cancel in Hle; [| exact He].
  change (Pos.compare_cont Eq m Mb) with (Pos.compare m Mb).
  destruct (Pos.compare_spec m Mb); try reflexivity. lia.
Qed.

Lemma scaled_of_leb (m : positive) (e : Z) :
  bounded 53 1024 m e = true ->
  SFleb (S754_finite false m e) (S754_finite false Mb Eb) = true ->
  scaled (Zpos m) e <= scaled (Zpos Mb) Eb.
Proof.
  intros Hb. destruct (bounded_canonical m e Hb) as (He & Hd & _).
  pose proof (digits2_pos_bounds m) as [_ Hdig].
  unfold SFleb, SFcompare.
  destruct (Z.compare_spec e Eb) as [Heq | Hlt | Hgt]; [| | discriminate].
  - change (Pos.compare_cont Eq m Mb) with (Pos.compare m Mb).
    destruct (Pos.compare_spec m Mb); try discriminate; intros _;
      subst; apply scaled_le_mono; lia.
  - intros _.
    assert (H1 : Zpos m < 2 ^ 53).
    { eapply Z.lt_le_trans; [exact Hdig |]. apply Z.pow_le_mono_r; lia. }
    assert (H2 : scaled (Zpos m) e <= scaled (2 ^ 53) e) by (apply scaled_le_mono; lia).
    assert (H3 : scaled (2 ^ 52) Eb <= scaled (Zpos Mb) Eb)
      by (apply scaled_le_mono; lia).
    assert (H4 : scaled (2 ^ 53) e <= scaled (2 ^ 52) Eb).
    { unfold scaled.
      rewrite <- (Z.pow_add_r 2 53 (e + 1074)), <- (Z.pow_add_r 2 52 (Eb + 1074)) by lia.
      apply Z.pow_le_mono_r; lia. }
    lia.
Qed.

End Bounded.

Lemma scaled_add (a b e : Z) : scaled (a + b) e = scaled a e + scaled b e.
Proof. unfold scaled. ring. Qed.

Lemma scaled_opp (a e : Z) : scaled (- a) e = - scaled a e.
Proof. unfold scaled. ring. Qed.

Lemma scaled_pos (m : positive) (e : Z) : -1074 <= e -> 0 < scaled (Zpos m) e.
Proof.
  intro He. unfold scaled. apply Z.mul_pos_pos; [lia |].
  apply Z.pow_pos_nonneg; lia.
Qed.

Lemma scaled_sign (a e : Z) : -1074 <= e -> 0 <= scaled a e -> 0 <= a.
Proof.
  intros He H. apply (scaled_le_cancel 0 a e He). unfold scaled at 1. simpl. exact H.
Qed.

Lemma shl_align_scaled (m : positive) (e e2 : Z) :
  -1074 <= Z.min e e2 ->
  scaled (Zpos (fst (shl_align m e (Z.min e e2)))) (Z.min e e2) = scaled (Zpos m) e.
Proof.
  intro Hmin.
  destruct (shl_align_spec m e (Z.min e e2)) as (_ & Hv & _).
  rewrite Hv. rewrite Z.min_r by lia.
  rewrite scaled_shift by lia. f_equal. lia.
Qed.

Lemma cond_Zopp_scaled (s : bool) (a e : Z) :
  scaled (cond_Zopp s a) e = cond_Zopp s (scaled a e).
Proof. destruct s; simpl; [apply scaled_opp | reflexivity]. Qed.

(** The sum and the difference of two finite values are the rounding of
    an integer at the smaller exponent, whose value is the exact sum or
    difference. *)
Lemma SFadd_finite (sx : bool) (mx : positive) (ex : Z) (sy : bool) (my : positive) (ey : Z) :
  -1074 <= ex -> -1074 <= ey ->
  exists I,
    SFadd 53 1024 (S754_finite sx mx ex) (S754_finite sy my ey)
    = binary_normalize 53 1024 I (Z.min ex ey) false /\
    scaled I (Z.min ex ey)
    = cond_Zopp sx (scaled (Zpos mx) ex) + cond_Zopp sy (scaled (Zpos my) ey).
Proof.
  intros Hx Hy. eexists. split; [reflexivity |].
  rewrite scaled_add, !cond_Zopp_scaled.
  rewrite (shl_align_scaled mx ex ey) by lia.
  rewrite (Z.min_comm ex ey), (shl_align_scaled my ey ex) by lia. reflexivity.
Qed.

Lemma SFsub_finite (sx : bool) (mx : positive) (ex : Z) (sy : bool) (my : positive) (ey : Z) :
  -1074 <= ex -> -1074 <= ey ->
  exists I,
    SFsub 53 1024 (S754_finite sx mx ex) (S754_finite sy my ey)
    = binary_normalize 53 1024 I (Z.min ex ey) false /\
    scaled I (Z.min ex ey)
    = cond_Zopp sx (scaled (Zpos mx) ex) - cond_Zopp sy (scaled (Zpos my) ey).
Proof.
  intros Hx Hy. eexists. split; [reflexivity |].
  unfold Z.sub at 1. rewrite scaled_add, scaled_opp, !cond_Zopp_scaled.
  rewrite (shl_align_scaled mx ex ey) by lia.
  rewrite (Z.min_comm ex ey), (shl_align_scaled my ey ex) by lia. reflexivity.
Qed.

Section Range.

Variable Mb : positive.
Variable Eb : Z.
Hypothesis HMb : 2 ^ 52 <= Zpos Mb < 2 ^ 53.
Hypothesis HEb : -1074 <= Eb <= 918.

Let top : spec_float := S754_finite false Mb Eb.
Let bottom : spec_float := S754_finite true Mb Eb.

(** Rounding an integer whose value is within the bounds gives a value
    within the bounds, of the same sign. *)
Lemma binary_normalize_range (I ez : Z) :
  -1074 <= ez ->
  - scaled (Zpos Mb) Eb <= scaled I ez <= scaled (Zpos Mb) Eb ->
  valid_binary (binary_normalize 53 1024 I ez false) = true ->
  SFleb bottom (binary_normalize 53 1024 I ez false) = true /\
  SFleb (binary_normalize 53 1024 I ez false) top = true /\
  (0 <= scaled I ez -> SFleb (S754_zero false) (binary_normalize 53 1024 I ez false) = true).
Proof.
  intros Hez Hrange Hvalid.
  destruct I as [| p | p]; cbn [binary_normalize] in *.
  - repeat split; reflexivity.
  - pose proof (binary_round_bounded Mb Eb HMb HEb false p ez Hez (proj2 Hrange)) as Hr.
    destruct (binary_round 53 1024 false p ez) as [s | s | | s m e]; try contradiction.
    + subst s. repeat split; reflexivity.
    + destruct Hr as (-> & He & Hle).
      split; [reflexivity |]. split; [| reflexivity].
      now apply leb_of_scaled.
  - assert (Hmag : scaled (Zpos p) ez <= scaled (Zpos Mb) Eb).
    { change (Zneg p) with (- Zpos p) in Hrange. rewrite scaled_opp in Hrange. lia. }
    pose proof (binary_round_bounded Mb Eb HMb HEb true p ez Hez Hmag) as Hr.
    pose proof (scaled_pos p ez Hez) as Hpos.
    change (Zneg p) with (- Zpos p). rewrite scaled_opp.
    destruct (binary_round 53 1024 true p ez) as [s | s | | s m e]; try contradiction.
    + subst s. split; [reflexivity |]. split; [reflexivity |]. lia.
    + destruct Hr as (-> & He & Hle).
      split; [| split; [reflexivity | lia]].
      apply (SFleb_opp (S754_finite false m e) top).
      now apply leb_of_scaled.
Qed.

(** A valid value between zero and the bound: a zero, or finite and
    positive with value at most the bound. *)
Lemma in_range_cases (x : spec_float) :
  valid_binary x = true ->
  SFleb (S754_zero false) x = true -> SFleb x top = true ->
  (exists s, x = S754_zero s) \/
  (exists m e, x = S754_finite false m e /\ -1074 <= e /\
               scaled (Zpos m) e <= scaled (Zpos Mb) Eb).
Proof.
  intros Hvalid Hlow Hhigh.
  destruct x as [s | s | | s m e]; [left; eauto | | discriminate |].
  - destruct s; discriminate.
  - destruct s; [discriminate |]. right. exists m, e.
    split; [reflexivity |].
    destruct (bounded_canonical m e Hvalid) as (He & _).
    split; [exact He |]. now apply (scaled_of_leb Mb Eb HMb HEb).
Qed.

Lemma SFadd_shift_range (x : spec_float) :
  valid_binary x = true ->
  SFleb bottom x = true -> SFltb x (S754_zero false) = true ->
  valid_binary (SFadd 53 1024 x top) = true ->
  SFleb (S754_zero false) (SFadd 53 1024 x top) = true /\
  SFleb (SFadd 53 1024 x top) top = true.
Proof.
  intros Hvalid Hlow Hneg Hres.
  destruct x as [s | s | | s m e]; try discriminate.
  - destruct s; discriminate.
  - destruct s; [| discriminate].
    destruct (bounded_canonical m e Hvalid) as (He & _).
    assert (Hmag : scaled (Zpos m) e <= scaled (Zpos Mb) Eb).
    { apply (scaled_of_leb Mb Eb HMb HEb m e Hvalid).
      apply (SFleb_opp bottom (S754_finite true m e)) in Hlow. exact Hlow. }
    pose proof (scaled_pos m e He) as Hpos.
    destruct (SFadd_finite true m e false Mb Eb He (proj1 HEb)) as (I & HI & Hval).
    unfold top in *. rewrite HI in *. cbn [cond_Zopp] in Hval.
    destruct (binary_normalize_range I (Z.min e Eb)) as (_ & Hhigh & Hzero);
      try assumption; try lia.
    split; [apply Hzero; lia | exact Hhigh].
Qed.

Lemma SFsub_range (x y : spec_float) :
  valid_binary x = true -> valid_binary y = true ->
  SFleb (S754_zero false) x = true -> SFleb x top = true ->
  SFleb (S754_zero false) y = true -> SFleb y top = true ->
  valid_binary (SFsub 53 1024 x y) = true ->
  SFleb bottom (SFsub 53 1024 x y) = true /\
  SFleb (SFsub 53 1024 x y) top = true.
Proof.
  intros Hvx Hvy Hx0 Hx1 Hy0 Hy1 Hres.
  destruct (in_range_cases x Hvx Hx0 Hx1) as [[sx ->] | (mx & ex & -> & Hex & Hmx)];
    destruct (in_range_cases y Hvy Hy0 Hy1) as [[sy ->] | (my & ey & -> & Hey & Hmy)].
  - destruct sx, sy; split; reflexivity.
  - cbn [SFsub negb]. split; [| reflexivity].
    apply (SFleb_opp (S754_finite false my ey) top). exact Hy1.
  - cbn [SFsub]. split; [reflexivity | exact Hx1].
  - pose proof (scaled_pos mx ex Hex) as Hpx.
    pose proof (scaled_pos my ey Hey) as Hpy.
    destruct (SFsub_finite false mx ex false my ey Hex Hey) as (I & HI & Hval).
    rewrite HI in *. cbn [cond_Zopp] in Hval.
    destruct (binary_normalize_range I (Z.min ex ey)) as (Hlow & Hhigh & _);
      try assumption; try lia.
    split; assumption.
Qed.

End Range.

Lemma twoPi_m_range : (2 ^ 52 <= Zpos twoPi_m < 2 ^ 53)%Z.
Proof. split; [apply Z.leb_le | apply Z.ltb_lt]; vm_compute; reflexivity. Qed.

Lemma twoPi_e_range : (-1074 <= twoPi_e <= 918)%Z.
Proof. unfold twoPi_e. lia. Qed.

Lemma twoPi_spec : Prim2SF (@twoPi float float_scalar) = S754_finite false twoPi_m twoPi_e.
Proof. vm_compute. reflexivity. Qed.

Lemma minusTwoPi_spec :
  Prim2SF (@minusTwoPi float float_scalar) = S754_finite true twoPi_m twoPi_e.
Proof. vm_compute. reflexivity. Qed.

Lemma zero_SF : Prim2SF (@f0 float float_scalar) = S754_zero false.
Proof. vm_compute. reflexivity. Qed.

End BinaryRounding.

(** ** The azimuth difference of [isHitNearSegment] *)

(** *** The order and the rounding of binary64 *)

Ltac float_ops :=
  change (@fle float float_scalar) with PrimFloat.leb in *;
  change (@flt float float_scalar) with PrimFloat.ltb in *;
  change (@fadd float float_scalar) with PrimFloat.add in *;
  change (@fsub float float_scalar) with PrimFloat.sub in *;
  change (@fneg float float_scalar) with PrimFloat.opp in *.

Section FloatAngles.

Local Open Scope fl_scope.

Lemma float_le_trans (a b c : float) :
  (a <=? b) = true -> (b <=? c) = true -> (a <=? c) = true.
Proof.
  float_ops. rewrite !leb_spec. apply SFleb_trans.
Qed.

Lemma float_lt_le_trans (a b c : float) :
  (a <? b) = true -> (b <=? c) = true -> (a <? c) = true.
Proof.
  float_ops. rewrite !leb_spec, !ltb_spec. apply SFltb_leb_trans.
Qed.

Lemma float_le_not_lt (a b : float) : (a <=? b) = true -> (b <? a) = false.
Proof.
  float_ops. rewrite leb_spec, ltb_spec. apply SFleb_not_ltb.
Qed.

Lemma float_not_lt_le (a b : float) :
  (a <=? a) = true -> (b <=? b) = true -> (b <? a) = false -> (a <=? b) = true.
Proof.
  float_ops. rewrite !leb_spec, ltb_spec. apply SFleb_total.
Qed.

Lemma float_le_number (a b : float) :
  (a <=? b) = true -> (a <=? a) = true /\ (b <=? b) = true.
Proof.
  float_ops. rewrite !leb_spec. apply SFleb_number.
Qed.

Lemma float_neg_le (a b : float) : (a <=? b) = true -> (- b <=? - a) = true.
Proof.
  float_ops. rewrite !leb_spec, !opp_spec. apply SFleb_opp.
Qed.

(** Adding [2.*M_PI] to a negative azimuth that is at least [-2.*M_PI]
    gives a value of [0, 2.*M_PI]. *)
Lemma float_shift_range (a : float) :
  (minusTwoPi <=? a) = true -> (a <? f0) = true ->
  (f0 <=? a + twoPi) = true /\ (a + twoPi <=? twoPi) = true.
Proof.
  float_ops. rewrite !leb_spec, ltb_spec, add_spec.
  rewrite twoPi_spec, minusTwoPi_spec, zero_SF.
  intros Hlow Hneg.
  apply (SFadd_shift_range twoPi_m twoPi_e twoPi_m_range twoPi_e_range);
    try assumption.
  - apply Prim2SF_valid.
  - rewrite <- twoPi_spec, <- add_spec. apply Prim2SF_valid.
Qed.

(** The difference of two values of [0, 2.*M_PI] is a value of
    [-2.*M_PI, 2.*M_PI]. *)
Lemma float_difference_range (s h : float) :
  (f0 <=? s) = true -> (s <=? twoPi) = true ->
  (f0 <=? h) = true -> (h <=? twoPi) = true ->
  (minusTwoPi <=? s - h) = true /\ (s - h <=? twoPi) = true.
Proof.
  float_ops. rewrite !leb_spec, sub_spec.
  rewrite twoPi_spec, minusTwoPi_spec, zero_SF.
  intros Hs0 Hs1 Hh0 Hh1.
  apply (SFsub_range twoPi_m twoPi_e twoPi_m_range twoPi_e_range);
    try assumption; try apply Prim2SF_valid.
  rewrite <- sub_spec. apply Prim2SF_valid.
Qed.

Lemma float_lt_le (a b : float) : (a <? b) = true -> (a <=? b) = true.
Proof.
  float_ops. rewrite leb_spec, ltb_spec. apply SFltb_leb.
Qed.

Lemma float_zero_number : is_number (f0 : float).
Proof. reflexivity. Qed.

(** A raw azimuth within [-2.*M_PI, 2.*M_PI] is shifted into
    [0, 2.*M_PI], both ends included. *)
Lemma float_shiftPhi_range (a : float) :
  (minusTwoPi <=? a) = true -> (a <=? twoPi) = true ->
  (f0 <=? shiftPhi a) = true /\ (shiftPhi a <=? twoPi) = true.
Proof.
  intros Hlow Hhigh. unfold shiftPhi. fold (@twoPi float float_scalar).
  destruct (a <? f0) eqn:Hneg.
  - now apply float_shift_range.
  - split; [| exact Hhigh].
    apply float_not_lt_le;
      [exact float_zero_number | exact (proj2 (float_le_number _ _ Hlow)) | exact Hneg].
Qed.

(** C10, as the code has it, in binary64.  For raw azimuths within
    [-2.*M_PI, 2.*M_PI] (those of [phi()] are within [-pi, pi]) both
    angles are shifted into the closed interval [0, 2.*M_PI], their
    difference lies in [-2.*M_PI, 2.*M_PI], neither wrap-around test fires
    (both are strict), and [deltaPhi] is the absolute value of the
    difference, within [0, 2.*M_PI]. *)
Theorem deltaPhi_is_plain_difference (S0 H0 : float) :
  (minusTwoPi <=? S0) = true -> (S0 <=? twoPi) = true ->
  (minusTwoPi <=? H0) = true -> (H0 <=? twoPi) = true ->
  let Sphi := shiftPhi S0 in
  let Hphi := shiftPhi H0 in
  ((f0 <=? Sphi) = true /\ (Sphi <=? twoPi) = true) /\
  ((f0 <=? Hphi) = true /\ (Hphi <=? twoPi) = true) /\
  ((minusTwoPi <=? Sphi - Hphi) = true /\ (Sphi - Hphi <=? twoPi) = true) /\
  (Sphi - Hphi >? f2 * M_PI) = false /\
  (Sphi - Hphi <? (- f2) * M_PI) = false /\
  deltaPhi Sphi Hphi = (if Sphi - Hphi <? f0 then - (Sphi - Hphi) else Sphi - Hphi) /\
  ((f0 <=? deltaPhi Sphi Hphi) = true /\ (deltaPhi Sphi Hphi <=? twoPi) = true).
Proof.
  intros HS0 HS1 HH0 HH1 Sphi Hphi.
  destruct (float_shiftPhi_range S0 HS0 HS1) as [Hs0 Hs1].
  destruct (float_shiftPhi_range H0 HH0 HH1) as [Hh0 Hh1].
  fold Sphi in Hs0, Hs1. fold Hphi in Hh0, Hh1.
  destruct (float_difference_range Sphi Hphi Hs0 Hs1 Hh0 Hh1) as [Hd0 Hd1].
  assert (Hup : (Sphi - Hphi >? f2 * M_PI) = false)
    by (unfold fgt; now apply float_le_not_lt).
  assert (Hdown : (Sphi - Hphi <? (- f2) * M_PI) = false)
    by (now apply float_le_not_lt).
  assert (Hdelta : deltaPhi Sphi Hphi
                   = (if Sphi - Hphi <? f0 then - (Sphi - Hphi) else Sphi - Hphi)).
  { unfold deltaPhi. cbv zeta. rewrite Hup, Hdown. reflexivity. }
  repeat split; try assumption.
  - rewrite Hdelta. destruct (Sphi - Hphi <? f0) eqn:Hneg.
    + apply float_le_trans with (b := - f0); [reflexivity |].
      apply float_neg_le. now apply float_lt_le.
    + apply float_not_lt_le;
        [exact float_zero_number | exact (proj2 (float_le_number _ _ Hd0)) | exact Hneg].
  - rewrite Hdelta. destruct (Sphi - Hphi <? f0) eqn:Hneg; [| exact Hd1].
    apply float_le_trans with (b := - minusTwoPi); [| reflexivity].
    now apply float_neg_le.
Qed.

End FloatAngles.

(** *** Exact arithmetic *)

Lemma Qltb_lt (a b : Q) : Qltb a b = true <-> (a < b)%Q.
Proof. unfold Qltb, Qlt. apply Z.ltb_lt. Qed.

Lemma Qltb_ge (a b : Q) : Qltb a b = false <-> (b <= a)%Q.
Proof. unfold Qltb, Qle. apply Z.ltb_ge. Qed.

Lemma Q_total_order : total_order Q.
Proof.
  intros a b _ _ Hgt. unfold fgt in Hgt. simpl in *.
  apply Qle_bool_iff. now apply Qltb_ge.
Qed.

Lemma Q_twoPi : (@twoPi Q Q_scalar == 2 * (884279719003555 # 281474976710656))%Q.
Proof. vm_compute. reflexivity. Qed.

Lemma Q_minusTwoPi : (@minusTwoPi Q Q_scalar == - (2 * (884279719003555 # 281474976710656)))%Q.
Proof. vm_compute. reflexivity. Qed.

Ltac q_order :=
  repeat match goal with
         | H : fle _ _ = true |- _ => apply Qle_bool_iff in H
         | H : flt _ _ = true |- _ => apply Qltb_lt in H
         | H : flt _ _ = false |- _ => apply Qltb_ge in H
         | |- fle _ _ = true => apply Qle_bool_iff
         | |- flt _ _ = true => apply Qltb_lt
         | |- flt _ _ = false => apply Qltb_ge
         end;
  change (@fadd Q Q_scalar) with Qadd in *;
  change (@fsub Q Q_scalar) with Qsub in *;
  change (@fmul Q Q_scalar) with Qmul in *;
  change (@fneg Q Q_scalar) with Qneg in *;
  change (@f0 Q Q_scalar) with 0%Q in *;
  change (@f2 Q Q_scalar) with 2%Q in *;
  change (@M_PI Q Q_scalar) with (884279719003555 # 281474976710656)%Q in *;
  unfold Qadd, Qsub, Qmul, Qneg in *;
  rewrite ?Qred_correct in *; rewrite ?Q_twoPi, ?Q_minusTwoPi in *;
  try lra.

(** In exact arithmetic, and for raw azimuths within [-pi, pi], the
    shifted angle stays strictly below [2.*M_PI] and so does [deltaPhi]:
    the closed ends of the bounds above are reached by rounding alone. *)
Lemma exact_shiftPhi_range (a : Q) :
  fle (fneg M_PI) a = true -> fle a M_PI = true ->
  fle f0 (shiftPhi a) = true /\ flt (shiftPhi a) twoPi = true.
Proof.
  intros Hlow Hhigh. unfold shiftPhi.
  destruct (flt a f0) eqn:Hneg; split; q_order.
Qed.

Lemma exact_deltaPhi_below_twoPi (S0 H0 : Q) :
  fle (fneg M_PI) S0 = true -> fle S0 M_PI = true ->
  fle (fneg M_PI) H0 = true -> fle H0 M_PI = true ->
  flt (deltaPhi (shiftPhi S0) (shiftPhi H0)) twoPi = true.
Proof.
  intros HS0 HS1 HH0 HH1.
  destruct (exact_shiftPhi_range S0 HS0 HS1) as [Hs0 Hs1].
  destruct (exact_shiftPhi_range H0 HH0 HH1) as [Hh0 Hh1].
  unfold deltaPhi. cbv zeta.
  generalize dependent (shiftPhi H0). generalize dependent (shiftPhi S0).
  intros s Hs0 Hs1 h Hh0 Hh1. unfold fgt.
  destruct (flt (fmul f2 M_PI) (fsub s h)) eqn:Hup; [exfalso; q_order |].
  destruct (flt (fsub s h) (fmul (fneg f2) M_PI)) eqn:Hdown; [exfalso; q_order |].
  destruct (flt (fsub s h) f0) eqn:Hneg; q_order.
Qed.

(** ** The model run on concrete chambers *)

Section Runs.

Import Examples.
Local Open Scope float_scope.

(** C1 at a steep track.  The slope between hits [steep1] and [steep6],
    taken from their own positions, is 4 and beyond [tanPhiMax = 0.5]; the
    source projects the position of the first seed through both layers,
    gets slope 0, keeps the pair and returns a segment seeded by it. *)
Theorem steep_seed_pair_not_skipped :
  seedSlopes_ownPositions chamberUp steep1 steep6 = (4, 0) /\
  fgt (fabs (fst (seedSlopes_ownPositions chamberUp steep1 steep6)))
      (tanPhiMax standardConfig) = true /\
  (let gp1 := layer_toGlobal chamberUp 1 (localPosition steep1) in
   seedSlopes chamberUp steep1 gp1 (toLocal chamberUp gp1) steep6 6 = (0, 0)) /\
  hitIds (buildSegments chamberUp standIns standardConfig freshState steepTrack)
  = [[0; 2; 1]]%nat.
Proof. vm_compute. repeat split; reflexivity. Qed.

(** C2: five tracks give five segments. *)
Lemma five_tracks_five_segments :
  hitIds (buildSegments chamberUp standIns standardConfig freshState fiveTracks)
  = [[1; 11; 21]; [2; 12; 22]; [3; 13; 23]; [4; 14; 24]; [5; 25; 15]]%nat /\
  ~ (length (buildSegments chamberUp standIns standardConfig freshState fiveTracks) <= 4)%nat.
Proof.
  split; [now vm_compute |].
  assert (Hlen : length (buildSegments chamberUp standIns standardConfig freshState fiveTracks)
                 = 5%nat) by now vm_compute.
  rewrite Hlen. lia.
Qed.

(** C3 on [noisyTrack], standard configuration.  The first turn of the
    inner loop (hits 0 and 6) stores the segment of hits 0, 2, 4, 5 and
    flags hit 0; the hits 5 and 4 are flagged and passed over; the turn
    for hits 0 and 3 then stores a second segment seeded by the flagged
    hit 0.  On [fan] the same hit seeds all four segments. *)
Theorem first_seed_used_again :
  hitIds (buildSegments chamberUp standIns standardConfig freshState noisyTrack)
  = [[0; 2; 4; 5]; [0; 3; 1]]%nat /\
  (let fl1 := noisyTurn 6 noisyStart [] in
   let st1 := flow_state fl1 noisyStart in
   let segs1 := flow_segments fl1 in
   fl1 = Continue st1 segs1 /\
   hitIds segs1 = [[0; 2; 4; 5]]%nat /\
   usedHits st1 = [true; false; true; false; true; true; false] /\
   noisyTurn 5 st1 segs1 = Continue st1 segs1 /\
   noisyTurn 4 st1 segs1 = Continue st1 segs1 /\
   hitIds (flow_segments (noisyTurn 3 st1 segs1)) = [[0; 2; 4; 5]; [0; 3; 1]]%nat) /\
  hitIds (buildSegments chamberUp standIns twoHitConfig freshState fan)
  = [[0; 4]; [0; 3]; [0; 2]; [0; 1]]%nat.
Proof. vm_compute. repeat split; reflexivity. Qed.

(** C4 in a chamber whose layer 1 is the farthest: one more pass over
    lists the step has ordered turns them round again. *)
Lemma ordering_not_idempotent :
  orderHits (layer_z chamberDown 1) (layer_z chamberDown 6)
            [1; 6]%Z [hitAt 0 1 100 0; hitAt 1 6 100 0]
  = ([6; 1]%Z, [hitAt 1 6 100 0; hitAt 0 1 100 0]) /\
  orderHits (layer_z chamberDown 1) (layer_z chamberDown 6)
            [6; 1]%Z [hitAt 1 6 100 0; hitAt 0 1 100 0]
  = ([1; 6]%Z, [hitAt 0 1 100 0; hitAt 1 6 100 0]) /\
  ~ orderingIdempotent (layer_z chamberDown 1) (layer_z chamberDown 6).
Proof.
  split; [now vm_compute | split; [now vm_compute |]].
  intro Hidem.
  specialize (Hidem [1; 6]%Z [hitAt 0 1 100 0; hitAt 1 6 100 0]).
  vm_compute in Hidem. discriminate Hidem.
Qed.


(** C10 in binary64.  The azimuth -2^-70 is negative; adding [2.*M_PI]
    rounds to [2.*M_PI] itself, so the shifted angle is not below
    [2.*M_PI], and against the azimuth 0 the difference is [-2.*M_PI] and
    [deltaPhi] is [2.*M_PI]. *)
Lemma tiny_negative_azimuth_reaches_twoPi :
  fle (fneg M_PI) (-0x1p-70) = true /\ fle (-0x1p-70) M_PI = true /\
  shiftPhi (-0x1p-70) = twoPi /\
  flt (shiftPhi (-0x1p-70)) twoPi = false /\
  fsub (shiftPhi 0) (shiftPhi (-0x1p-70)) = minusTwoPi /\
  flt minusTwoPi (fsub (shiftPhi 0) (shiftPhi (-0x1p-70))) = false /\
  deltaPhi (shiftPhi 0) (shiftPhi (-0x1p-70)) = twoPi /\
  flt (deltaPhi (shiftPhi 0) (shiftPhi (-0x1p-70))) twoPi = false.
Proof. vm_compute. repeat split; reflexivity. Qed.

(** C7 in binary64.  On [straightProto] (chi-square 0) the hit with an
    infinite local x on layer 6 replaces the hit of that layer; the refit
    gives a chi-square that is not a number, the test
    [protoChi2 > old_protoChi2] is false, and the substitution is kept: the
    chi-square after the call is not at most the one before. *)
Lemma nan_chi2_is_kept :
  protoChi2 straightProto = 0%float /\
  map (@hit_id float) (protoSegment straightProto) = [1; 11; 21]%nat /\
  map (@hit_id float)
      (protoSegment (compareProtoSegment chamberUp standIns straightProto infiniteHit 6))
  = [1; 11; 25]%nat /\
  fgt (protoChi2 (snd (substituteHit chamberUp standIns straightProto infiniteHit 6)))
      (protoChi2 straightProto) = false /\
  ~ is_number (protoChi2 (compareProtoSegment chamberUp standIns straightProto infiniteHit 6)) /\
  fle (protoChi2 (compareProtoSegment chamberUp standIns straightProto infiniteHit 6))
      (protoChi2 straightProto) = false /\
  ~ chi2NeverWorse chamberUp standIns.
Proof.
  assert (Hnot : fle (protoChi2 (compareProtoSegment chamberUp standIns straightProto
                                                     infiniteHit 6))
                     (protoChi2 straightProto) = false) by now vm_compute.
  split; [now vm_compute | split; [now vm_compute | split; [now vm_compute |]]].
  split; [now vm_compute | split; [| split; [exact Hnot |]]].
  - unfold is_number. now vm_compute.
  - intro Hclaim. specialize (Hclaim straightProto infiniteHit 6%Z). congruence.
Qed.

(** C8 on chambers with many hits, under the standard configuration
    ([minHitsPerSegment = 3]).  With 20 hits a track of three hits is
    stored; with 21 it is not, and a track of four hits is.  With 30 hits
    a track of four hits is stored; with 31 it is not, and a track of five
    hits is. *)
Lemma crowded_chambers_ask_for_more :
  (length (crowded track3 17) = 20%nat /\
   hitIds (buildSegments chamberUp standIns standardConfig freshState (crowded track3 17))
   = [[0; 2; 1]]%nat) /\
  (length (crowded track3 18) = 21%nat /\
   buildSegments chamberUp standIns standardConfig freshState (crowded track3 18) = []) /\
  (length (crowded track4 17) = 21%nat /\
   hitIds (buildSegments chamberUp standIns standardConfig freshState (crowded track4 17))
   = [[0; 3; 1; 2]]%nat) /\
  (length (crowded track4 26) = 30%nat /\
   hitIds (buildSegments chamberUp standIns standardConfig freshState (crowded track4 26))
   = [[0; 3; 1; 2]]%nat) /\
  (length (crowded track4 27) = 31%nat /\
   buildSegments chamberUp standIns standardConfig freshState (crowded track4 27) = []) /\
  (length (crowded track5 26) = 31%nat /\
   hitIds (buildSegments chamberUp standIns standardConfig freshState (crowded track5 26))
   = [[0; 4; 1; 2; 3]]%nat).
Proof. repeat split; now vm_compute. Qed.

(** *** The general theorems at concrete inputs *)

Lemma compareProtoSegment_rollback_witness :
  fgt (protoChi2 (snd (substituteHit chamberUp standIns straightProto strayHit 6)))
      (protoChi2 straightProto) = true /\
  compareProtoSegment chamberUp standIns straightProto strayHit 6 = straightProto.
Proof.
  assert (Hworse : fgt (protoChi2 (snd (substituteHit chamberUp standIns straightProto strayHit 6)))
                       (protoChi2 straightProto) = true) by now vm_compute.
  split; [exact Hworse |].
  exact (proj1 (compareProtoSegment_rollback chamberUp standIns straightProto strayHit 6
                  (or_introl Hworse))).
Defined.

Lemma compareProtoSegment_chi2_not_worse_witness :
  is_number (protoChi2 straightProto) /\
  is_number (protoChi2 (snd (substituteHit chamberUp standIns straightProto strayHit 6))) /\
  fle (protoChi2 (compareProtoSegment chamberUp standIns straightProto strayHit 6))
      (protoChi2 straightProto) = true.
Proof.
  assert (Hold : is_number (protoChi2 straightProto)) by now vm_compute.
  assert (Hnew : is_number
                   (protoChi2 (snd (substituteHit chamberUp standIns straightProto strayHit 6))))
    by now vm_compute.
  split; [exact Hold | split; [exact Hnew |]].
  exact (compareProtoSegment_chi2_not_worse chamberUp standIns straightProto strayHit 6
           float_total_order Hold Hnew).
Defined.

Lemma buildSegments_minimum_hits_witness :
  (- 2 ^ 31 <= minHitsPerSegment standardConfig < 2 ^ 31)%Z /\
  length (crowded track5 26) = 31%nat /\
  hitIds (buildSegments chamberUp standIns standardConfig freshState (crowded track5 26))
  = [[0; 4; 1; 2; 3]]%nat /\
  Forall (fun s =>
            (minHitsPerSegment standardConfig
             + (if (30 <? Z.of_nat (length (crowded track5 26)))%Z then 2
                else if (20 <? Z.of_nat (length (crowded track5 26)))%Z then 1 else 0)
             <= Z.of_nat (length (seg_hits s)))%Z)
         (buildSegments chamberUp standIns standardConfig freshState (crowded track5 26)).
Proof.
  assert (Hint : (- 2 ^ 31 <= minHitsPerSegment standardConfig < 2 ^ 31)%Z)
    by (simpl; lia).
  split; [exact Hint | split; [reflexivity | split; [now vm_compute |]]].
  exact (proj1 (buildSegments_minimum_hits chamberUp standIns standardConfig freshState
                  (crowded track5 26) Hint)).
Defined.

Lemma buildSegments_one_hit_per_layer_witness :
  (1 <= minLayersApart standardConfig)%Z /\
  Forall (fun s => NoDup (map (@layer float) (seg_hits s)))
         (buildSegments chamberUp standIns standardConfig freshState fiveTracks).
Proof.
  assert (Hapart : (1 <= minLayersApart standardConfig)%Z) by (simpl; lia).
  split; [exact Hapart |].
  exact (proj1 (buildSegments_one_hit_per_layer chamberUp standIns standardConfig freshState
                  fiveTracks Hapart)).
Defined.

(** The azimuths -2^-70 and 0 in binary64: the first is shifted to
    [2.*M_PI] itself, the closed end of the interval, and [deltaPhi] is
    [2.*M_PI]. *)
Lemma deltaPhi_is_plain_difference_witness :
  (fle minusTwoPi (-0x1p-70)%float = true /\ fle (-0x1p-70)%float twoPi = true) /\
  (fle minusTwoPi 0%float = true /\ fle 0%float twoPi = true) /\
  shiftPhi (-0x1p-70)%float = twoPi /\
  deltaPhi (shiftPhi (-0x1p-70)%float) (shiftPhi 0%float) = twoPi /\
  deltaPhi (shiftPhi (-0x1p-70)%float) (shiftPhi 0%float)
  = (if flt (fsub (shiftPhi (-0x1p-70)%float) (shiftPhi 0%float)) f0
     then fneg (fsub (shiftPhi (-0x1p-70)%float) (shiftPhi 0%float))
     else fsub (shiftPhi (-0x1p-70)%float) (shiftPhi 0%float)) /\
  fle (deltaPhi (shiftPhi (-0x1p-70)%float) (shiftPhi 0%float)) twoPi = true.
Proof.
  assert (H1 : fle minusTwoPi (-0x1p-70)%float = true) by now vm_compute.
  assert (H2 : fle (-0x1p-70)%float twoPi = true) by now vm_compute.
  assert (H3 : fle minusTwoPi 0%float = true) by now vm_compute.
  assert (H4 : fle 0%float twoPi = true) by now vm_compute.
  pose proof (deltaPhi_is_plain_difference (-0x1p-70)%float 0%float H1 H2 H3 H4) as Hthm.
  cbv zeta in Hthm.
  destruct Hthm as (_ & _ & _ & _ & _ & Hdelta & _ & Hhigh).
  split; [split; assumption | split; [split; assumption |]].
  split; [now vm_compute | split; [now vm_compute | split; assumption]].
Defined.

End Runs.

(** ** Further properties of the search *)

Section LoopInvariants.

Context {F : Type} {SF : Scalar F} {E : Type}.
Variable theChamber : CSCChamber F.
Variable ext : Extern F E.
Variable cfg : Config F.

Let Hit : Type := CSCRecHit2D F.
Let State : Type := AlgoState F.
Let Segment : Type := CSCSegment F E.

(** *** Positions and hits *)

Lemma combine_seq_nth_error {A : Type} (l : list A) (s i : nat) (a : A) :
  In (i, a) (combine (seq s (length l)) l) ->
  (s <= i)%nat /\ nth_error l (i - s) = Some a.
Proof.
  revert s. induction l as [| x rest IH]; intros s Hin; simpl in Hin; [tauto |].
  destruct Hin as [Heq | Hin].
  - inversion Heq; subst. rewrite Nat.sub_diag. split; [lia | reflexivity].
  - apply IH in Hin as [Hle Hnth]. split; [lia |].
    replace (i - s)%nat with (S (i - S s)) by lia. exact Hnth.
Qed.

Lemma enumerate_nth_error {A : Type} (l : list A) (i : nat) (a : A) :
  In (i, a) (enumerate l) -> nth_error l i = Some a.
Proof.
  intro Hin. apply combine_seq_nth_error in Hin as [_ Hnth].
  now rewrite Nat.sub_0_r in Hnth.
Qed.

Lemma combine_layers_nth_error (rechits : list Hit) (i : nat) (h : Hit) (l : Z) :
  nth_error (combine rechits (map (@layer F) rechits)) i = Some (h, l) ->
  nth_error rechits i = Some h /\ l = layer h.
Proof.
  revert i. induction rechits as [| x rest IH]; intros i Hnth.
  - destruct i; discriminate.
  - destruct i as [| i]; simpl in Hnth.
    + inversion Hnth; subst. split; reflexivity.
    + now apply IH.
Qed.

Lemma firsts_from (rechits : list Hit) :
  seedsFrom rechits (enumerate (combine rechits (map (@layer F) rechits))).
Proof.
  intros i h l Hin. apply enumerate_nth_error in Hin.
  now apply combine_layers_nth_error.
Qed.

Lemma seconds_from (rechits : list Hit) :
  seedsFrom rechits (secondSeeds rechits (map (@layer F) rechits)).
Proof.
  intros i h l Hin. unfold secondSeeds in Hin. apply in_rev in Hin.
  apply (firsts_from rechits i). now apply tl_In.
Qed.

(** The ordering step gives back the two lists, or both turned round. *)
Lemma orderHits_same_or_reversed (z1 z6 : F) (layerIndex : list Z) (rechits : list Hit) :
  orderHits z1 z6 layerIndex rechits = (layerIndex, rechits) \/
  orderHits z1 z6 layerIndex rechits = (rev layerIndex, rev rechits).
Proof.
  unfold orderHits.
  destruct (fgt z1 f0), (fgt z1 z6), (flt z1 f0), (flt z1 z6); auto.
Qed.

(** *** An invariant through the loops *)

Section Invariant.

Variable rechits : list Hit.
Variable nHit : Z.
Variable I : State -> Prop.
Variable P : Segment -> Prop.

(** Every turn of the inner loop on two positions of [rechits] keeps [I]
    and stores only segments with [P]. *)
Hypothesis pair_inv :
  forall (i1 : nat) (h1 : Hit) (gp1 lp1 : Point3 F) (i2 : nat) (h2 : Hit)
         (st : State) (segs : list Segment),
    nth_error rechits i1 = Some h1 ->
    nth_error rechits i2 = Some h2 ->
    I st -> Forall P segs ->
    flow_inv I P (seedPair theChamber ext cfg rechits nHit i1 h1 (layer h1) gp1 lp1
                           i2 h2 (layer h2) st segs).

Lemma innerLoop_inv (i1 : nat) (h1 : Hit) (gp1 lp1 : Point3 F)
    (seconds : list (nat * (Hit * Z))) :
  nth_error rechits i1 = Some h1 ->
  seedsFrom rechits seconds ->
  forall (st : State) (segs : list Segment),
    I st -> Forall P segs ->
    flow_inv I P (innerLoop theChamber ext cfg rechits nHit i1 h1 (layer h1) gp1 lp1
                            seconds st segs).
Proof.
  intro Hh1.
  induction seconds as [| [i2 [h2 layer2]] rest IH]; intros Hfrom st segs HI HP; simpl.
  - split; assumption.
  - destruct (Hfrom i2 h2 layer2 (or_introl eq_refl)) as [Hh2 ->].
    pose proof (pair_inv i1 h1 gp1 lp1 i2 h2 st segs Hh1 Hh2 HI HP) as Hstep.
    destruct (seedPair theChamber ext cfg rechits nHit i1 h1 (layer h1) gp1 lp1
                       i2 h2 (layer h2) st segs) as [st' segs' | segs']; simpl in Hstep.
    + destruct Hstep as [HI' HP']. apply IH; try assumption.
      intros i h l Hin. apply (Hfrom i). now right.
    + exact Hstep.
Qed.

Lemma outerLoop_inv (layerIndex : list Z) (firsts : list (nat * (Hit * Z))) :
  seedsFrom rechits (secondSeeds rechits layerIndex) ->
  seedsFrom rechits firsts ->
  forall (st : State) (segs : list Segment),
    I st -> Forall P segs ->
    flow_inv I P (outerLoop theChamber ext cfg rechits layerIndex nHit firsts st segs).
Proof.
  intro Hsec.
  induction firsts as [| [i1 [h1 layer1]] rest IH]; intros Hfrom st segs HI HP; simpl.
  - split; assumption.
  - assert (Hrest : seedsFrom rechits rest)
      by (intros i h l Hin; apply (Hfrom i); now right).
    destruct (Hfrom i1 h1 layer1 (or_introl eq_refl)) as [Hh1 ->].
    case_if; [now apply IH |].
    pose proof (innerLoop_inv i1 h1
                  (layer_toGlobal theChamber (layer h1) (localPosition h1))
                  (toLocal theChamber (layer_toGlobal theChamber (layer h1) (localPosition h1)))
                  (secondSeeds rechits layerIndex) Hh1 Hsec st segs HI HP) as Hstep.
    destruct (innerLoop theChamber ext cfg rechits nHit i1 h1 (layer h1) _ _
                        (secondSeeds rechits layerIndex) st segs) as [st' segs' | segs'];
      simpl in Hstep.
    + destruct Hstep as [HI' HP']. now apply IH.
    + exact Hstep.
Qed.

End Invariant.

(** The same for [run]: the loops work on the hit list as given or turned
    round, with the hit count of the list as given. *)
Lemma run_inv (I : State -> Prop) (P : Segment -> Prop) (st : State) (rechits0 : list Hit) :
  (forall rechits : list Hit,
      rechits = rechits0 \/ rechits = rev rechits0 ->
      I (set_usedHits st (repeat false (length rechits))) /\
      forall (i1 : nat) (h1 : Hit) (gp1 lp1 : Point3 F) (i2 : nat) (h2 : Hit)
             (st' : State) (segs : list Segment),
        nth_error rechits i1 = Some h1 ->
        nth_error rechits i2 = Some h2 ->
        I st' -> Forall P segs ->
        flow_inv I P (seedPair theChamber ext cfg rechits (Z.of_nat (length rechits0))
                               i1 h1 (layer h1) gp1 lp1 i2 h2 (layer h2) st' segs)) ->
  Forall P (run theChamber ext cfg st rechits0).
Proof.
  intro Hinv. unfold run, buildSegments.
  case_if; [constructor |].
  pose proof (orderHits_in_step (layer_z theChamber 1) (layer_z theChamber 6) rechits0) as Hstep.
  pose proof (orderHits_same_or_reversed (layer_z theChamber 1) (layer_z theChamber 6)
                (map (@layer F) rechits0) rechits0) as Hcases.
  destruct (orderHits _ _ _ rechits0) as [layerIndex rechits]; simpl in Hstep. subst layerIndex.
  assert (Hrechits : rechits = rechits0 \/ rechits = rev rechits0)
    by (destruct Hcases as [Heq | Heq]; inversion Heq; auto).
  destruct (Hinv rechits Hrechits) as [HI Hpair].
  match goal with
  | |- Forall P (flow_segments ?fl) =>
      assert (Hfl : flow_inv I P fl)
  end.
  { apply outerLoop_inv; try assumption.
    - apply seconds_from.
    - apply firsts_from.
    - constructor. }
  match goal with
  | |- Forall P (flow_segments ?fl) => destruct fl; simpl in *; tauto
  end.
Qed.

End LoopInvariants.

Section SegmentContents.

Context {F : Type} {SF : Scalar F} {E : Type}.
Variable theChamber : CSCChamber F.
Variable ext : Extern F E.
Variable cfg : Config F.

Let Hit : Type := CSCRecHit2D F.
Let State : Type := AlgoState F.
Let Segment : Type := CSCSegment F E.

(** *** One turn of the inner loop, for an invariant of the used flags *)

Lemma finishSegment_usedHits (st : State) :
  usedHits (fst (finishSegment theChamber ext st)) = usedHits st.
Proof.
  unfold finishSegment. simpl.
  apply (updateParameters_frame theChamber ext st).
Qed.

Lemma grownSegment_usedHits (rechits : list Hit) (i1 : nat) (h1 : Hit)
    (gp1 lp1 : Point3 F) (i2 : nat) (h2 : Hit) (layer2 : Z) (st : State) :
  usedHits (grownSegment theChamber ext cfg rechits i1 h1 gp1 lp1 i2 h2 layer2 st)
  = usedHits st.
Proof.
  unfold grownSegment. now rewrite tryAddingHitsToSegment_usedHits.
Qed.

Lemma seedPair_flow_inv (J : list bool -> Prop) (P : Segment -> Prop)
    (rechits : list Hit) (nHit : Z)
    (i1 : nat) (h1 : Hit) (layer1 : Z) (gp1 lp1 : Point3 F)
    (i2 : nat) (h2 : Hit) (layer2 : Z) (st : State) (segs : list Segment) :
  J (usedHits st) ->
  Forall P segs ->
  ((minLayersApart cfg <= layer2 - layer1)%Z ->
   nth i2 (usedHits st) false = false ->
   (segmentThreshold cfg nHit
    <= Z.of_nat (length (protoSegment
                           (grownSegment theChamber ext cfg rechits i1 h1 gp1 lp1
                                         i2 h2 layer2 st))))%Z ->
   P (snd (finishSegment theChamber ext
             (grownSegment theChamber ext cfg rechits i1 h1 gp1 lp1 i2 h2 layer2 st))) /\
   J (usedHits
        (flagHitsAsUsed
           (fst (finishSegment theChamber ext
                   (grownSegment theChamber ext cfg rechits i1 h1 gp1 lp1 i2 h2 layer2 st)))
           rechits))) ->
  flow_inv (fun s => J (usedHits s)) P
           (seedPair theChamber ext cfg rechits nHit i1 h1 layer1 gp1 lp1
                     i2 h2 layer2 st segs).
Proof.
  intros HJ HP Hstored.
  destruct (seedPair_cases theChamber ext cfg rechits nHit i1 h1 layer1 gp1 lp1
                           i2 h2 layer2 st segs)
    as [(st' & -> & Hused) | (Hgap & Hfree & Hsize & [[-> _] | (-> & _)])];
    cbn [flow_inv].
  - rewrite Hused. split; assumption.
  - destruct (Hstored Hgap Hfree Hsize) as [HPt _].
    apply Forall_app. split; [assumption | now constructor].
  - destruct (Hstored Hgap Hfree Hsize) as [HPt HJt].
    split; [exact HJt |].
    apply Forall_app. split; [assumption | now constructor].
Qed.

(** *** Where the hits of a proto-segment come from *)

Lemma extend_step_closeHits (i1 i2 : nat) (st : State) (i : nat) (h : Hit) :
  closeHits (extend_step theChamber ext cfg i1 i2 st i h) = closeHits st \/
  (hasHitOnLayer st (layer h) = true /\
   closeHits (extend_step theChamber ext cfg i1 i2 st i h) = closeHits st ++ [h]).
Proof.
  unfold extend_step.
  repeat case_if; try (left; reflexivity).
  - left. apply (addHit_frame st h (layer h)).
  - right. apply negb_false_iff in Heqb2. split; [exact Heqb2 | reflexivity].
Qed.

Lemma extendLoop_hits (i1 i2 : nat) (rest : list Hit) (i : nat) (st : State) (x : Hit) :
  (In x (protoSegment (extendLoop theChamber ext cfg i1 i2 i rest st)) ->
   In x (protoSegment st) \/ In x rest) /\
  (In x (closeHits (extendLoop theChamber ext cfg i1 i2 i rest st)) ->
   In x (closeHits st) \/ In x rest).
Proof.
  revert i st. induction rest as [| h rest IH]; intros i st; simpl; [tauto |].
  destruct (IH (S i) (extend_step theChamber ext cfg i1 i2 st i h)) as [IHp IHc].
  split; intro Hin.
  - apply IHp in Hin as [Hin | Hin]; [| auto].
    destruct (extend_step_protoSegment theChamber ext cfg i1 i2 st i h) as [Heq | [_ Heq]];
      rewrite Heq in Hin; [auto |].
    apply in_app_or in Hin as [Hin | [<- | []]]; auto.
  - apply IHc in Hin as [Hin | Hin]; [| auto].
    destruct (extend_step_closeHits i1 i2 st i h) as [Heq | [_ Heq]];
      rewrite Heq in Hin; [auto |].
    apply in_app_or in Hin as [Hin | [<- | []]]; auto.
Qed.

Lemma compareProtoSegment_hits (st : State) (h : Hit) (lay : Z) (x : Hit) :
  In x (protoSegment (compareProtoSegment theChamber ext st h lay)) ->
  In x (protoSegment st) \/ x = h.
Proof.
  destruct (compareProtoSegment_cases theChamber ext st h lay)
    as [[-> _] | (-> & _ & Hok)]; [auto |].
  rewrite (substituteHit_protoSegment theChamber ext st h lay Hok).
  intro Hin. apply in_app_or in Hin as [Hin | [<- | []]]; [| auto].
  left. now apply eraseLayer_In in Hin.
Qed.

Lemma resolve_hits (hits : list Hit) (st : State) (x : Hit) :
  In x (protoSegment
          (fold_left (fun s h => compareProtoSegment theChamber ext s h (layer h)) hits st)) ->
  In x (protoSegment st) \/ In x hits.
Proof.
  revert st. induction hits as [| h hits IH]; intros st Hin; simpl in *; [auto |].
  apply IH in Hin as [Hin | Hin]; [| auto].
  apply compareProtoSegment_hits in Hin as [Hin | ->]; auto.
Qed.

Lemma tryAddingHitsToSegment_hits (st : State) (rechits : list Hit) (i1 i2 : nat) (x : Hit) :
  In x (protoSegment (tryAddingHitsToSegment theChamber ext cfg st rechits i1 i2)) ->
  In x (protoSegment st) \/ In x rechits.
Proof.
  unfold tryAddingHitsToSegment.
  set (st1 := extendLoop theChamber ext cfg i1 i2 0 rechits (set_closeHits st [])).
  assert (Hp : forall y, In y (protoSegment st1) -> In y (protoSegment st) \/ In y rechits)
    by (intros y Hy; now apply (extendLoop_hits i1 i2 rechits 0 (set_closeHits st []) y)).
  assert (Hc : forall y, In y (closeHits st1) -> In y rechits).
  { intros y Hy.
    apply (extendLoop_hits i1 i2 rechits 0 (set_closeHits st []) y) in Hy as [[] | Hy].
    exact Hy. }
  case_if; [apply Hp |].
  intro Hin. apply resolve_hits in Hin as [Hin | Hin].
  - rewrite updateParameters_protoSegment in Hin. now apply Hp.
  - right. apply Hc.
    destruct (updateParameters_frame theChamber ext st1) as (Hclose & _).
    now rewrite Hclose in Hin.
Qed.

Lemma grownSegment_hits (rechits : list Hit) (i1 : nat) (h1 : Hit)
    (gp1 lp1 : Point3 F) (i2 : nat) (h2 : Hit) (layer2 : Z) (st : State) (x : Hit) :
  In h1 rechits -> In h2 rechits ->
  In x (protoSegment (grownSegment theChamber ext cfg rechits i1 h1 gp1 lp1 i2 h2 layer2 st)) ->
  In x rechits.
Proof.
  intros Hh1 Hh2 Hin. unfold grownSegment in Hin.
  apply tryAddingHitsToSegment_hits in Hin as [[<- | [<- | []]] | Hin]; assumption.
Qed.

Lemma ordered_In (rechits rechits0 : list Hit) (x : Hit) :
  rechits = rechits0 \/ rechits = rev rechits0 -> In x rechits -> In x rechits0.
Proof.
  intros [-> | ->] Hin; [exact Hin | now apply in_rev].
Qed.

(** X1.  [run] returns no segment when the chamber has fewer than 3 hits,
    and none when no two of its hits are [minLayersApart] layers apart,
    as when all hits are on one layer and [minLayersApart] is at least 1. *)
Theorem run_without_seed_pair (st : State) (rechits0 : list Hit) :
  (length rechits0 < 3)%nat \/
  (forall h1 h2 : Hit,
      In h1 rechits0 -> In h2 rechits0 -> (layer h2 - layer h1 < minLayersApart cfg)%Z) ->
  run theChamber ext cfg st rechits0 = [].
Proof.
  intros [Hfew | Hgap].
  - unfold run, buildSegments.
    case_if; [reflexivity |].
    apply Z.ltb_ge in Heqb. unfold Hit in *. lia.
  - assert (Hnone : Forall (fun _ : Segment => False) (run theChamber ext cfg st rechits0)).
    { apply (run_inv theChamber ext cfg (fun s => True)).
      intros rechits Hrechits. split; [exact I |].
      intros i1 h1 gp1 lp1 i2 h2 st' segs Hh1 Hh2 _ HP.
      apply (seedPair_flow_inv (fun _ => True)); [exact I | exact HP |].
      intros Hfar _ _. exfalso.
      apply nth_error_In in Hh1, Hh2.
      pose proof (Hgap h1 h2 (ordered_In rechits rechits0 h1 Hrechits Hh1)
                       (ordered_In rechits rechits0 h2 Hrechits Hh2)).
      lia. }
    destruct (run theChamber ext cfg st rechits0) as [| s rest]; [reflexivity |].
    now inversion Hnone.
Qed.

(** X2.  Every hit of every segment [run] returns is one of the hits it
    was given. *)
Theorem run_segments_of_input_hits (st : State) (rechits0 : list Hit) :
  Forall (fun s : Segment => forall h, In h (seg_hits s) -> In h rechits0)
         (run theChamber ext cfg st rechits0).
Proof.
  apply (run_inv theChamber ext cfg (fun s => True)).
  intros rechits Hrechits. split; [exact I |].
  intros i1 h1 gp1 lp1 i2 h2 st' segs Hh1 Hh2 _ HP.
  apply (seedPair_flow_inv (fun _ => True)); [exact I | exact HP |].
  intros _ _ _. split; [| exact I].
  destruct (finishSegment_hits theChamber ext
              (grownSegment theChamber ext cfg rechits i1 h1 gp1 lp1 i2 h2 (layer h2) st'))
    as [-> _].
  intros h Hin. apply (ordered_In rechits rechits0 h Hrechits).
  apply nth_error_In in Hh1, Hh2.
  now apply (grownSegment_hits rechits i1 h1 gp1 lp1 i2 h2 (layer h2) st' h).
Qed.

End SegmentContents.

Section SegmentParameters.

Context {F : Type} {SF : Scalar F} {E : Type}.
Variable theChamber : CSCChamber F.
Variable ext : Extern F E.
Variable cfg : Config F.

Let Hit : Type := CSCRecHit2D F.
Let State : Type := AlgoState F.
Let Segment : Type := CSCSegment F E.

(** *** Size of a segment *)

Lemma layer_in_chamber (l : Z) : (1 <= l <= 6)%Z -> In l [1; 2; 3; 4; 5; 6]%Z.
Proof.
  intro Hl.
  assert (Hcases : (l = 1 \/ l = 2 \/ l = 3 \/ l = 4 \/ l = 5 \/ l = 6)%Z) by lia.
  simpl. intuition.
Qed.

Lemma distinctLayers_length (hits others : list Hit) :
  distinctLayers hits ->
  (forall h, In h hits -> In h others) ->
  (length hits <= length others)%nat.
Proof.
  intros Hd Hin. unfold Hit in *.
  rewrite <- (length_map (@layer F) hits), <- (length_map (@layer F) others).
  apply NoDup_incl_length; [exact Hd |].
  intros l Hl. apply in_map_iff in Hl as (h & <- & Hh).
  apply in_map. now apply Hin.
Qed.

Lemma distinctLayers_at_most_six (hits : list Hit) :
  distinctLayers hits ->
  (forall h, In h hits -> (1 <= layer h <= 6)%Z) ->
  (length hits <= 6)%nat.
Proof.
  intros Hd Hlay. unfold Hit in *.
  rewrite <- (length_map (@layer F) hits).
  change 6%nat with (length [1; 2; 3; 4; 5; 6]%Z).
  apply NoDup_incl_length; [exact Hd |].
  intros l Hl. apply in_map_iff in Hl as (h & <- & Hh).
  apply layer_in_chamber. now apply Hlay.
Qed.

Lemma grownSegment_distinct (rechits : list Hit) (i1 : nat) (h1 : Hit)
    (gp1 lp1 : Point3 F) (i2 : nat) (h2 : Hit) (st : State) :
  (1 <= minLayersApart cfg)%Z ->
  (minLayersApart cfg <= layer h2 - layer h1)%Z ->
  distinctLayers
    (protoSegment (grownSegment theChamber ext cfg rechits i1 h1 gp1 lp1 i2 h2 (layer h2) st)).
Proof.
  intros Hapart Hgap. unfold grownSegment.
  apply tryAddingHitsToSegment_distinct. simpl.
  unfold distinctLayers. simpl.
  constructor; [| constructor; [simpl; tauto | constructor]].
  simpl. intros [Heq | []]. lia.
Qed.

(** X3.  With [minLayersApart >= 1], a segment returned by [run] never has
    more hits than the chamber was given, and never more than 6 when the
    layers of all hits are numbered 1 to 6. *)
Theorem run_segment_size (st : State) (rechits0 : list Hit) :
  (1 <= minLayersApart cfg)%Z ->
  Forall (fun s : Segment =>
            (length (seg_hits s) <= length rechits0)%nat /\
            ((forall h, In h rechits0 -> (1 <= layer h <= 6)%Z) ->
             (length (seg_hits s) <= 6)%nat))
         (run theChamber ext cfg st rechits0).
Proof.
  intro Hapart.
  assert (Hboth : Forall (fun s : Segment =>
                            distinctLayers (seg_hits s) /\
                            forall h, In h (seg_hits s) -> In h rechits0)
                         (run theChamber ext cfg st rechits0)).
  { apply (run_inv theChamber ext cfg (fun s => True)).
    intros rechits Hrechits. split; [exact I |].
    intros i1 h1 gp1 lp1 i2 h2 st' segs Hh1 Hh2 _ HP.
    apply (seedPair_flow_inv theChamber ext cfg (fun _ => True)); [exact I | exact HP |].
    intros Hgap _ _. split; [| exact I].
    destruct (finishSegment_hits theChamber ext
                (grownSegment theChamber ext cfg rechits i1 h1 gp1 lp1 i2 h2 (layer h2) st'))
      as [-> _].
    split.
    - now apply grownSegment_distinct.
    - intros h Hin. apply (ordered_In rechits rechits0 h Hrechits).
      apply nth_error_In in Hh1, Hh2.
      now apply (grownSegment_hits theChamber ext cfg rechits i1 h1 gp1 lp1
                                   i2 h2 (layer h2) st' h). }
  apply (Forall_impl _ (P := fun s : Segment =>
                              distinctLayers (seg_hits s) /\
                              forall h, In h (seg_hits s) -> In h rechits0));
    [| exact Hboth].
  intros s [Hd Hin]. split.
  - now apply distinctLayers_length.
  - intro Hlay. apply distinctLayers_at_most_six; [exact Hd |].
    intros h Hh. apply Hlay. now apply Hin.
Qed.

(** *** The fit has no memory *)

(** What [updateParameters] computes is a function of the hits of the
    proto-segment: the parameters it finds there do not enter. *)
Lemma updateParameters_of_hits (st st' : State) :
  protoSegment st = protoSegment st' ->
  protoChi2 (updateParameters theChamber ext st)
  = protoChi2 (updateParameters theChamber ext st') /\
  protoIntercept (updateParameters theChamber ext st)
  = protoIntercept (updateParameters theChamber ext st') /\
  protoSlope_u (updateParameters theChamber ext st)
  = protoSlope_u (updateParameters theChamber ext st') /\
  protoSlope_v (updateParameters theChamber ext st)
  = protoSlope_v (updateParameters theChamber ext st').
Proof.
  intro Hhits. unfold updateParameters. rewrite Hhits.
  destruct (fold_left _ _ _) as [m b].
  destruct (solve ext m b) as [[[p1 p2] p3] p4].
  simpl. auto.
Qed.

Lemma updateParameters_again (st : State) :
  updateParameters theChamber ext (updateParameters theChamber ext st)
  = updateParameters theChamber ext st.
Proof.
  destruct (updateParameters_of_hits (updateParameters theChamber ext st) st
              (updateParameters_protoSegment theChamber ext st))
    as (Hchi & Hicpt & Hu & Hv).
  destruct (updateParameters_frame theChamber ext (updateParameters theChamber ext st))
    as (Hc & Hused & Hdir).
  pose proof (updateParameters_protoSegment theChamber ext
                (updateParameters theChamber ext st)) as Hseg.
  destruct (updateParameters theChamber ext (updateParameters theChamber ext st)) as [a b c d e f g h].
  simpl in *. subst.
  now destruct (updateParameters theChamber ext st).
Qed.

Lemma updateParameters_intercept_z (st : State) :
  pt_z (protoIntercept (updateParameters theChamber ext st)) = f0.
Proof.
  unfold updateParameters.
  destruct (fold_left _ _ _) as [m b].
  destruct (solve ext m b) as [[[p1 p2] p3] p4].
  reflexivity.
Qed.

(** X4.  A refit finds the same parameters again: [updateParameters]
    applied twice gives the state it gives when applied once, its
    intercept, slopes and chi-square depend on the hits of the
    proto-segment alone, the intercept has z = 0, and the chi-square of a
    proto-segment without hits is 0. *)
Theorem updateParameters_refit (st : State) :
  updateParameters theChamber ext (updateParameters theChamber ext st)
  = updateParameters theChamber ext st /\
  (forall st' : State,
      protoSegment st = protoSegment st' ->
      protoChi2 (updateParameters theChamber ext st)
      = protoChi2 (updateParameters theChamber ext st') /\
      protoIntercept (updateParameters theChamber ext st)
      = protoIntercept (updateParameters theChamber ext st') /\
      protoSlope_u (updateParameters theChamber ext st)
      = protoSlope_u (updateParameters theChamber ext st') /\
      protoSlope_v (updateParameters theChamber ext st)
      = protoSlope_v (updateParameters theChamber ext st')) /\
  pt_z (protoIntercept (updateParameters theChamber ext st)) = f0 /\
  (protoSegment st = [] -> protoChi2 (updateParameters theChamber ext st) = f0).
Proof.
  split; [apply updateParameters_again |].
  split; [intros st'; apply updateParameters_of_hits |].
  split; [apply updateParameters_intercept_z |].
  intro Hnone. unfold updateParameters. rewrite Hnone. simpl.
  destruct (solve ext _ _) as [[[p1 p2] p3] p4]. reflexivity.
Qed.

(** The segment built from a proto-segment is a function of its hits. *)
Lemma finishSegment_of_hits (st st' : State) :
  protoSegment st = protoSegment st' ->
  snd (finishSegment theChamber ext st) = snd (finishSegment theChamber ext st').
Proof.
  intro Hhits.
  destruct (updateParameters_of_hits st st' Hhits) as (Hchi & Hicpt & Hu & Hv).
  unfold finishSegment. cbn [snd protoSegment protoIntercept protoDirection protoChi2].
  rewrite !updateParameters_protoSegment, Hhits, Hchi, Hicpt, Hu, Hv.
  reflexivity.
Qed.

Lemma finishSegment_fit (st : State) :
  seg_chi2 (snd (finishSegment theChamber ext st))
  = protoChi2 (updateParameters theChamber ext st) /\
  seg_intercept (snd (finishSegment theChamber ext st))
  = protoIntercept (updateParameters theChamber ext st) /\
  protoChi2 (fst (finishSegment theChamber ext st))
  = protoChi2 (updateParameters theChamber ext st).
Proof.
  unfold finishSegment. simpl. auto.
Qed.

(** X5.  Every segment [run] returns is the segment of its own hits:
    intercept, direction, error matrix and chi-square are those of a fit
    to the hits of the segment, whatever the proto-segment went through
    before, and the intercept has z = 0. *)
Theorem run_segment_fitted_to_its_hits (st : State) (rechits0 : list Hit) :
  Forall (fun s : Segment =>
            forall st0 : State,
              s = snd (finishSegment theChamber ext (set_protoSegment st0 (seg_hits s))) /\
              seg_chi2 s
              = protoChi2 (updateParameters theChamber ext
                             (set_protoSegment st0 (seg_hits s))) /\
              seg_intercept s
              = protoIntercept (updateParameters theChamber ext
                                  (set_protoSegment st0 (seg_hits s))) /\
              pt_z (seg_intercept s) = f0)
         (run theChamber ext cfg st rechits0).
Proof.
  apply (run_inv theChamber ext cfg (fun s => True)).
  intros rechits Hrechits. split; [exact I |].
  intros i1 h1 gp1 lp1 i2 h2 st' segs Hh1 Hh2 _ HP.
  apply (seedPair_flow_inv theChamber ext cfg (fun _ => True)); [exact I | exact HP |].
  intros _ _ _. split; [| exact I].
  intro st0.
  set (st2 := grownSegment theChamber ext cfg rechits i1 h1 gp1 lp1 i2 h2 (layer h2) st').
  destruct (finishSegment_hits theChamber ext st2) as [Hhits _].
  assert (Hsame : snd (finishSegment theChamber ext st2)
                  = snd (finishSegment theChamber ext
                           (set_protoSegment st0
                              (seg_hits (snd (finishSegment theChamber ext st2))))))
    by (apply finishSegment_of_hits; now rewrite Hhits).
  revert Hsame. generalize (snd (finishSegment theChamber ext st2)). clear.
  intros s Hsame.
  split; [exact Hsame |].
  destruct (finishSegment_fit (set_protoSegment st0 (seg_hits s))) as (Hchi & Hicpt & _).
  rewrite <- Hsame in Hchi, Hicpt.
  repeat split; [exact Hchi | exact Hicpt |].
  rewrite Hicpt. apply updateParameters_intercept_z.
Qed.

End SegmentParameters.

Section FirstPass.

Context {F : Type} {SF : Scalar F} {E : Type}.
Variable theChamber : CSCChamber F.
Variable ext : Extern F E.
Variable cfg : Config F.

Let Hit : Type := CSCRecHit2D F.
Let State : Type := AlgoState F.

(** [isHitNearSegment] reads the line of the proto-segment and nothing
    else of the state. *)
Lemma isHitNearSegment_of_line (a b : State) (h : Hit) :
  sameLine a b ->
  isHitNearSegment theChamber ext cfg a h = isHitNearSegment theChamber ext cfg b h.
Proof.
  intros (Hi & Hu & Hv). unfold isHitNearSegment. now rewrite Hi, Hu, Hv.
Qed.

(** One turn of the first loop: the hit is passed over, or it is an unused
    near hit other than the seeds and goes to the proto-segment or to the
    close hits. *)
Lemma extend_step_cases (i1 i2 : nat) (st : State) (i : nat) (h : Hit) :
  let st' := extend_step theChamber ext cfg i1 i2 st i h in
  (st' = st /\
   (i = i1 \/ i = i2 \/ nth i (usedHits st) false = true \/
    isHitNearSegment theChamber ext cfg st h = false)) \/
  (i <> i1 /\ i <> i2 /\ nth i (usedHits st) false = false /\
   isHitNearSegment theChamber ext cfg st h = true /\
   ((hasHitOnLayer st (layer h) = false /\ st' = snd (addHit st h (layer h))) \/
    (hasHitOnLayer st (layer h) = true /\ st' = set_closeHits st (closeHits st ++ [h])))).
Proof.
  cbv zeta. unfold extend_step.
  destruct (Nat.eqb i i1) eqn:H1;
    [apply Nat.eqb_eq in H1; left; split; [reflexivity | auto] |].
  destruct (Nat.eqb i i2) eqn:H2;
    [apply Nat.eqb_eq in H2; left; split; [reflexivity | auto] |].
  apply Nat.eqb_neq in H1, H2. cbn [orb].
  destruct (nth i (usedHits st) false) eqn:Hused; [left; auto |].
  destruct (isHitNearSegment theChamber ext cfg st h) eqn:Hnear; [| left; auto].
  right. repeat split; try assumption.
  destruct (hasHitOnLayer st (layer h)); cbn [negb]; auto.
Qed.

Lemma addHit_line (st : State) (h : Hit) (lay : Z) :
  sameLine (snd (addHit st h lay)) st /\
  protoChi2 (snd (addHit st h lay)) = protoChi2 st /\
  protoDirection (snd (addHit st h lay)) = protoDirection st.
Proof.
  unfold addHit, sameLine. destruct (existsb _ _); simpl; auto.
Qed.

Lemma extend_step_line (i1 i2 : nat) (st : State) (i : nat) (h : Hit) :
  sameLine (extend_step theChamber ext cfg i1 i2 st i h) st /\
  protoChi2 (extend_step theChamber ext cfg i1 i2 st i h) = protoChi2 st /\
  protoDirection (extend_step theChamber ext cfg i1 i2 st i h) = protoDirection st /\
  usedHits (extend_step theChamber ext cfg i1 i2 st i h) = usedHits st.
Proof.
  destruct (extend_step_cases i1 i2 st i h)
    as [[-> _] | (_ & _ & _ & _ & [[_ ->] | [_ ->]])].
  - unfold sameLine. auto.
  - destruct (addHit_line st h (layer h)) as (Hl & Hc & Hd).
    repeat split; try assumption; try apply Hl. apply (addHit_frame st h (layer h)).
  - unfold sameLine. simpl. auto.
Qed.

Lemma extendLoop_line (i1 i2 : nat) (rest : list Hit) (i : nat) (st : State) :
  sameLine (extendLoop theChamber ext cfg i1 i2 i rest st) st /\
  protoChi2 (extendLoop theChamber ext cfg i1 i2 i rest st) = protoChi2 st /\
  protoDirection (extendLoop theChamber ext cfg i1 i2 i rest st) = protoDirection st /\
  usedHits (extendLoop theChamber ext cfg i1 i2 i rest st) = usedHits st.
Proof.
  revert i st. induction rest as [| h rest IH]; intros i st; simpl.
  - unfold sameLine. auto.
  - destruct (IH (S i) (extend_step theChamber ext cfg i1 i2 st i h))
      as ((Hi & Hu & Hv) & Hc & Hd & Hused).
    destruct (extend_step_line i1 i2 st i h) as ((Hi' & Hu' & Hv') & Hc' & Hd' & Hused').
    unfold sameLine. repeat split; congruence.
Qed.

(** What a turn appends, to the proto-segment and to the close hits. *)
Lemma extend_step_appends (i1 i2 : nat) (st : State) (i : nat) (h : Hit) :
  let st' := extend_step theChamber ext cfg i1 i2 st i h in
  exists added close : list Hit,
    protoSegment st' = protoSegment st ++ added /\
    closeHits st' = closeHits st ++ close /\
    forall x, In x added \/ In x close ->
              x = h /\ i <> i1 /\ i <> i2 /\ nth i (usedHits st) false = false /\
              isHitNearSegment theChamber ext cfg st h = true /\
              (In x close -> hasHitOnLayer st (layer h) = true).
Proof.
  cbv zeta.
  destruct (extend_step_cases i1 i2 st i h)
    as [[-> _] | (H1 & H2 & Hused & Hnear & [[Hfree ->] | [Hocc ->]])].
  - exists [], []. rewrite !app_nil_r.
    split; [reflexivity | split; [reflexivity |]].
    intros x [[] | []].
  - destruct (addHit_frame st h (layer h)) as [Hclose _].
    destruct (addHit_protoSegment st h (layer h)) as [[_ Heq] | [_ Heq]].
    + exists [h], []. rewrite Heq, Hclose, app_nil_r.
      split; [reflexivity | split; [reflexivity |]].
      intros x [[<- | []] | []]. repeat split; try assumption. intros [].
    + exists [], []. rewrite Heq, !app_nil_r.
      split; [reflexivity | split; [reflexivity |]].
      intros x [[] | []].
  - exists [], [h]. simpl. rewrite app_nil_r.
    split; [reflexivity | split; [reflexivity |]].
    intros x [[] | [<- | []]]. repeat split; try assumption. intros _. assumption.
Qed.

Lemma hasHitOnLayer_In (st : State) (lay : Z) :
  hasHitOnLayer st lay = true <-> In lay (map (@layer F) (protoSegment st)).
Proof.
  unfold hasHitOnLayer. rewrite existsb_exists, in_map_iff.
  split; intros (x & H1 & H2).
  - apply Z.eqb_eq in H2. eauto.
  - exists x. split; [exact H2 | now apply Z.eqb_eq].
Qed.

Lemma extend_step_close_layers (i1 i2 : nat) (st : State) (i : nat) (h : Hit) :
  closeHitsOnOccupiedLayers st ->
  closeHitsOnOccupiedLayers (extend_step theChamber ext cfg i1 i2 st i h).
Proof.
  intros Hocc c Hin.
  destruct (extend_step_appends i1 i2 st i h) as (added & close & Hp & Hc & Hfrom).
  rewrite Hp, map_app, in_app_iff. rewrite Hc in Hin.
  apply in_app_or in Hin as [Hin | Hin].
  - left. now apply Hocc.
  - destruct (Hfrom c (or_intror Hin)) as (-> & _ & _ & _ & _ & Hlay).
    left. apply hasHitOnLayer_In. now apply Hlay.
Qed.

Lemma extendLoop_close_layers (i1 i2 : nat) (rest : list Hit) (i : nat) (st : State) :
  closeHitsOnOccupiedLayers st ->
  closeHitsOnOccupiedLayers (extendLoop theChamber ext cfg i1 i2 i rest st).
Proof.
  revert i st. induction rest as [| h rest IH]; intros i st Hocc; simpl.
  - exact Hocc.
  - apply IH. now apply extend_step_close_layers.
Qed.

Lemma extendLoop_appends (i1 i2 : nat) (rest : list Hit) (i : nat) (st : State) :
  let st1 := extendLoop theChamber ext cfg i1 i2 i rest st in
  exists added close : list Hit,
    protoSegment st1 = protoSegment st ++ added /\
    closeHits st1 = closeHits st ++ close /\
    forall x, In x added \/ In x close ->
              exists k, nth_error rest k = Some x /\ (i + k)%nat <> i1 /\ (i + k)%nat <> i2 /\
                        nth (i + k) (usedHits st) false = false /\
                        isHitNearSegment theChamber ext cfg st x = true.
Proof.
  revert i st. induction rest as [| h rest IH]; intros i st; cbv zeta; simpl.
  - exists [], []. rewrite !app_nil_r.
    split; [reflexivity | split; [reflexivity |]].
    intros x [[] | []].
  - destruct (IH (S i) (extend_step theChamber ext cfg i1 i2 st i h))
      as (added & close & Hp & Hc & Hfrom).
    destruct (extend_step_appends i1 i2 st i h) as (added0 & close0 & Hp0 & Hc0 & Hfrom0).
    destruct (extend_step_line i1 i2 st i h) as (Hline & _ & _ & Hused).
    exists (added0 ++ added), (close0 ++ close).
    rewrite Hp, Hc, Hp0, Hc0, !app_assoc.
    split; [reflexivity | split; [reflexivity |]].
    intros x Hin.
    assert (Hcases : (In x added0 \/ In x close0) \/ (In x added \/ In x close))
      by (rewrite !in_app_iff in Hin; tauto).
    destruct Hcases as [Hin0 | Hin1].
    + destruct (Hfrom0 x Hin0) as (-> & H1 & H2 & Hfree & Hnear & _).
      exists 0%nat. rewrite Nat.add_0_r. repeat split; assumption.
    + destruct (Hfrom x Hin1) as (k & Hk & H1 & H2 & Hfree & Hnear).
      exists (S k). rewrite <- Nat.add_succ_comm.
      rewrite Hused in Hfree.
      rewrite (isHitNearSegment_of_line _ st x Hline) in Hnear.
      repeat split; assumption.
Qed.

(** Every unused near hit other than the seeds is taken: it ends among the
    close hits, or the proto-segment holds it. *)
Lemma extendLoop_takes (i1 i2 : nat) (rest : list Hit) (i : nat) (st : State)
    (k : nat) (h : Hit) :
  nth_error rest k = Some h ->
  (i + k)%nat <> i1 -> (i + k)%nat <> i2 ->
  nth (i + k) (usedHits st) false = false ->
  isHitNearSegment theChamber ext cfg st h = true ->
  let st1 := extendLoop theChamber ext cfg i1 i2 i rest st in
  In h (closeHits st1) \/
  exists x, In x (protoSegment st1) /\ same_hit h x = true.
Proof.
  revert i st k. induction rest as [| h0 rest IH]; intros i st k Hk H1 H2 Hfree Hnear;
    cbv zeta; simpl.
  - destruct k; discriminate.
  - destruct (extend_step_line i1 i2 st i h0) as (Hline & _ & _ & Hused).
    destruct k as [| k]; simpl in Hk.
    + inversion Hk; subst h0. rewrite Nat.add_0_r in *.
      destruct (extendLoop_appends i1 i2 rest (S i)
                  (extend_step theChamber ext cfg i1 i2 st i h))
        as (added & close & Hp & Hc & _).
      rewrite Hp, Hc.
      destruct (extend_step_cases i1 i2 st i h)
        as [[_ [Hno | [Hno | [Hno | Hno]]]] | (_ & _ & _ & _ & [[Hlay Heq] | [Hlay Heq]])];
        try congruence; rewrite Heq.
      * right. unfold addHit.
        destruct (existsb (same_hit h) (protoSegment st)) eqn:Hdup; cbn [snd].
        -- apply existsb_exists in Hdup as (x & Hx & Hsame).
           exists x. split; [apply in_or_app; now left | exact Hsame].
        -- exists h. split.
           ++ apply in_or_app. left. simpl. apply in_or_app. right. now left.
           ++ apply Nat.eqb_refl.
      * left. apply in_or_app. left. simpl. apply in_or_app. right. now left.
    + rewrite <- Nat.add_succ_comm in H1, H2, Hfree.
      apply (IH (S i) (extend_step theChamber ext cfg i1 i2 st i h0) k Hk H1 H2).
      * now rewrite Hused.
      * now rewrite (isHitNearSegment_of_line _ st h Hline).
Qed.

(** X6.  The first pass of [tryAddingHitsToSegment] leaves the line, the
    chi-square and the used flags as they were and only appends hits; every
    hit it appends to the proto-segment or puts among the close hits is an
    unused hit of the chamber, other than the two seeds, that is near the
    line the pass started with; and every such hit is taken: it ends among
    the close hits, or the proto-segment holds it. *)
Theorem first_pass_takes_near_unused_hits (st : State) (rechits : list Hit) (i1 i2 : nat) :
  let st1 := extendLoop theChamber ext cfg i1 i2 0 rechits (set_closeHits st []) in
  (sameLine st1 st /\ protoChi2 st1 = protoChi2 st /\ usedHits st1 = usedHits st) /\
  (exists added : list Hit,
      protoSegment st1 = protoSegment st ++ added /\
      forall x, In x added \/ In x (closeHits st1) ->
                exists i, nth_error rechits i = Some x /\ i <> i1 /\ i <> i2 /\
                          nth i (usedHits st) false = false /\
                          isHitNearSegment theChamber ext cfg st x = true) /\
  (forall i h,
      nth_error rechits i = Some h -> i <> i1 -> i <> i2 ->
      nth i (usedHits st) false = false ->
      isHitNearSegment theChamber ext cfg st h = true ->
      In h (closeHits st1) \/ exists x, In x (protoSegment st1) /\ same_hit h x = true).
Proof.
  cbv zeta.
  assert (Hline0 : sameLine (set_closeHits st []) st) by (unfold sameLine; simpl; auto).
  split; [| split].
  - destruct (extendLoop_line i1 i2 rechits 0 (set_closeHits st []))
      as ((Hi & Hu & Hv) & Hc & _ & Hused).
    unfold sameLine. simpl in *. auto.
  - destruct (extendLoop_appends i1 i2 rechits 0 (set_closeHits st []))
      as (added & close & Hp & Hc & Hfrom).
    exists added. split; [exact Hp |].
    intros x Hin. rewrite Hc in Hin. simpl in Hin.
    destruct (Hfrom x Hin) as (k & Hk & H1 & H2 & Hfree & Hnear).
    exists k. simpl in *.
    rewrite (isHitNearSegment_of_line _ st x Hline0) in Hnear. auto.
  - intros i h Hi H1 H2 Hfree Hnear.
    apply (extendLoop_takes i1 i2 rechits 0 (set_closeHits st []) i h Hi); simpl;
      try assumption;
      now rewrite (isHitNearSegment_of_line _ st h Hline0).
Qed.

End FirstPass.

Section SecondPass.

Context {F : Type} {SF : Scalar F} {E : Type}.
Variable theChamber : CSCChamber F.
Variable ext : Extern F E.
Variable cfg : Config F.

Let Hit : Type := CSCRecHit2D F.
Let State : Type := AlgoState F.

Lemma eraseLayer_absent (lay : Z) (hits : list Hit) :
  ~ In lay (map (@layer F) hits) -> eraseLayer lay hits = hits.
Proof.
  induction hits as [| x rest IH]; intro Hno; simpl in *; [reflexivity |].
  destruct (Z.eqb_spec (layer x) lay) as [Heq | Hneq]; simpl.
  - exfalso. apply Hno. now left.
  - f_equal. apply IH. tauto.
Qed.

(** With one hit to a layer, erasing an occupied layer takes out one hit. *)
Lemma eraseLayer_layers (lay : Z) (hits : list Hit) :
  distinctLayers hits ->
  In lay (map (@layer F) hits) ->
  Permutation (lay :: map (@layer F) (eraseLayer lay hits)) (map (@layer F) hits).
Proof.
  unfold distinctLayers.
  induction hits as [| x rest IH]; intros Hd Hin; simpl in *; [tauto |].
  inversion Hd as [| ? ? Hfresh Hrest]; subst.
  destruct (Z.eqb_spec (layer x) lay) as [Heq | Hneq]; simpl.
  - subst lay. now rewrite (eraseLayer_absent (layer x) rest Hfresh).
  - destruct Hin as [Heq | Hin]; [contradiction |].
    etransitivity; [apply perm_swap |].
    apply perm_skip. now apply IH.
Qed.

Lemma compareProtoSegment_layers (st : State) (h : Hit) :
  distinctLayers (protoSegment st) ->
  In (layer h) (map (@layer F) (protoSegment st)) ->
  Permutation (map (@layer F)
                   (protoSegment (compareProtoSegment theChamber ext st h (layer h))))
              (map (@layer F) (protoSegment st)).
Proof.
  intros Hd Hin.
  destruct (compareProtoSegment_cases theChamber ext st h (layer h))
    as [[-> _] | (-> & _ & Hok)]; [reflexivity |].
  rewrite (substituteHit_protoSegment theChamber ext st h (layer h) Hok).
  rewrite map_app. simpl.
  etransitivity; [symmetry; apply Permutation_cons_append |].
  now apply eraseLayer_layers.
Qed.

Lemma compareProtoSegment_closeHits (st : State) (h : Hit) (lay : Z) :
  closeHits (compareProtoSegment theChamber ext st h lay) = closeHits st.
Proof.
  destruct (compareProtoSegment_cases theChamber ext st h lay)
    as [[-> _] | (-> & _ & _)]; [reflexivity |].
  apply (substituteHit_frame theChamber ext st h lay).
Qed.

Lemma resolve_layers (hits : list Hit) (st : State) :
  distinctLayers (protoSegment st) ->
  (forall c, In c hits -> In (layer c) (map (@layer F) (protoSegment st))) ->
  Permutation
    (map (@layer F)
         (protoSegment
            (fold_left (fun s h => compareProtoSegment theChamber ext s h (layer h)) hits st)))
    (map (@layer F) (protoSegment st)).
Proof.
  revert st. induction hits as [| h hits IH]; intros st Hd Hocc; simpl; [reflexivity |].
  assert (Hstep : Permutation
                    (map (@layer F)
                         (protoSegment (compareProtoSegment theChamber ext st h (layer h))))
                    (map (@layer F) (protoSegment st)))
    by (apply compareProtoSegment_layers; [exact Hd | apply Hocc; now left]).
  etransitivity; [apply IH | exact Hstep].
  - now apply compareProtoSegment_distinct.
  - intros c Hc. apply (Permutation_in _ (Permutation_sym Hstep)).
    apply Hocc. now right.
Qed.

(** X7.  The second pass of [tryAddingHitsToSegment] trades hits layer by
    layer: when the proto-segment it is called with has one hit to a layer,
    the proto-segment it leaves occupies the layers the first pass ended
    with, and has as many hits. *)
Theorem second_pass_keeps_layers (st : State) (rechits : list Hit) (i1 i2 : nat) :
  distinctLayers (protoSegment st) ->
  let st1 := extendLoop theChamber ext cfg i1 i2 0 rechits (set_closeHits st []) in
  let st2 := tryAddingHitsToSegment theChamber ext cfg st rechits i1 i2 in
  Permutation (map (@layer F) (protoSegment st2)) (map (@layer F) (protoSegment st1)) /\
  length (protoSegment st2) = length (protoSegment st1).
Proof.
  intros Hd st1 st2.
  assert (Hperm : Permutation (map (@layer F) (protoSegment st2))
                              (map (@layer F) (protoSegment st1))).
  { subst st2. unfold tryAddingHitsToSegment. fold st1.
    case_if; [reflexivity |].
    destruct (updateParameters_frame theChamber ext st1) as (Hclose & _).
    rewrite Hclose.
    rewrite <- (updateParameters_protoSegment theChamber ext st1) at 1.
    apply resolve_layers.
    - rewrite updateParameters_protoSegment.
      apply extendLoop_distinct. exact Hd.
    - intros c Hc. rewrite updateParameters_protoSegment.
      apply (extendLoop_close_layers theChamber ext cfg i1 i2 rechits 0 (set_closeHits st []));
        [| exact Hc].
      intros c' []. }
  split; [exact Hperm |].
  apply Permutation_length in Hperm. now rewrite !length_map in Hperm.
Qed.

End SecondPass.

Section UsedFlags.

Context {F : Type} {SF : Scalar F} {E : Type}.
Variable theChamber : CSCChamber F.
Variable ext : Extern F E.
Variable cfg : Config F.

Let Hit : Type := CSCRecHit2D F.
Let State : Type := AlgoState F.
Let Segment : Type := CSCSegment F E.

Lemma flagHitsAsUsed_length (st : State) (rechits : list Hit) :
  length (usedHits st) = length rechits ->
  length (usedHits (flagHitsAsUsed st rechits)) = length rechits.
Proof.
  intro Hlen. unfold flagHitsAsUsed. simpl.
  apply flagHits_length. now apply flagHits_length.
Qed.

Lemma flagHitsAsUsed_set (st : State) (rechits : list Hit) (i : nat) (h : Hit) :
  length (usedHits st) = length rechits ->
  nth_error rechits i = Some h ->
  nth i (usedHits (flagHitsAsUsed st rechits)) false = true <->
  (nth i (usedHits st) false = true \/
   exists x, (In x (protoSegment st) \/ In x (closeHits st)) /\ same_hit x h = true).
Proof.
  intros Hlen Hnth.
  rewrite (flagHitsAsUsed_nth st rechits i h Hlen Hnth).
  rewrite !orb_true_iff, !existsb_exists.
  split.
  - intros [(x & Hx & Hs) | [(x & Hx & Hs) | Hold]]; eauto.
  - intros [Hold | (x & [Hx | Hx] & Hs)]; eauto.
Qed.

(** X8.  [flagHitsAsUsed] sets the flag of a position exactly when the hit
    there is, by identity, a hit of the proto-segment or a close hit; it
    clears no flag, keeps the number of flags and changes nothing else. *)
Theorem flagHitsAsUsed_flags (st : State) (rechits : list Hit) :
  length (usedHits st) = length rechits ->
  let st' := flagHitsAsUsed st rechits in
  length (usedHits st') = length rechits /\
  (forall i h,
      nth_error rechits i = Some h ->
      nth i (usedHits st') false = true <->
      (nth i (usedHits st) false = true \/
       exists x, (In x (protoSegment st) \/ In x (closeHits st)) /\ same_hit x h = true)) /\
  st' = set_usedHits st (usedHits st').
Proof.
  intros Hlen st'. split; [now apply flagHitsAsUsed_length |].
  split; [intros i h Hnth; now apply flagHitsAsUsed_set |].
  reflexivity.
Qed.

(** *** An invariant of the state and the stored segments *)

Section Keeps.

Variable rechits : list Hit.
Variable nHit : Z.
Variable Inv : State -> list Segment -> Prop.
Variable R : list Segment -> Prop.

Hypothesis pair_keeps :
  forall (i1 : nat) (h1 : Hit) (gp1 lp1 : Point3 F) (i2 : nat) (h2 : Hit)
         (st : State) (segs : list Segment),
    nth_error rechits i1 = Some h1 ->
    nth_error rechits i2 = Some h2 ->
    Inv st segs ->
    flow_keeps Inv R (seedPair theChamber ext cfg rechits nHit i1 h1 (layer h1) gp1 lp1
                               i2 h2 (layer h2) st segs).

Lemma innerLoop_keeps (i1 : nat) (h1 : Hit) (gp1 lp1 : Point3 F)
    (seconds : list (nat * (Hit * Z))) :
  nth_error rechits i1 = Some h1 ->
  seedsFrom rechits seconds ->
  forall (st : State) (segs : list Segment),
    Inv st segs ->
    flow_keeps Inv R (innerLoop theChamber ext cfg rechits nHit i1 h1 (layer h1) gp1 lp1
                                seconds st segs).
Proof.
  intro Hh1.
  induction seconds as [| [i2 [h2 layer2]] rest IH]; intros Hfrom st segs HI; simpl.
  - exact HI.
  - destruct (Hfrom i2 h2 layer2 (or_introl eq_refl)) as [Hh2 ->].
    pose proof (pair_keeps i1 h1 gp1 lp1 i2 h2 st segs Hh1 Hh2 HI) as Hstep.
    destruct (seedPair theChamber ext cfg rechits nHit i1 h1 (layer h1) gp1 lp1
                       i2 h2 (layer h2) st segs) as [st' segs' | segs']; simpl in Hstep.
    + apply IH; [| exact Hstep].
      intros i h l Hin. apply (Hfrom i). now right.
    + exact Hstep.
Qed.

Lemma outerLoop_keeps (layerIndex : list Z) (firsts : list (nat * (Hit * Z))) :
  seedsFrom rechits (secondSeeds rechits layerIndex) ->
  seedsFrom rechits firsts ->
  forall (st : State) (segs : list Segment),
    Inv st segs ->
    flow_keeps Inv R (outerLoop theChamber ext cfg rechits layerIndex nHit firsts st segs).
Proof.
  intro Hsec.
  induction firsts as [| [i1 [h1 layer1]] rest IH]; intros Hfrom st segs HI; simpl.
  - exact HI.
  - assert (Hrest : seedsFrom rechits rest)
      by (intros i h l Hin; apply (Hfrom i); now right).
    destruct (Hfrom i1 h1 layer1 (or_introl eq_refl)) as [Hh1 ->].
    case_if; [now apply IH |].
    pose proof (innerLoop_keeps i1 h1
                  (layer_toGlobal theChamber (layer h1) (localPosition h1))
                  (toLocal theChamber (layer_toGlobal theChamber (layer h1) (localPosition h1)))
                  (secondSeeds rechits layerIndex) Hh1 Hsec st segs HI) as Hstep.
    destruct (innerLoop theChamber ext cfg rechits nHit i1 h1 (layer h1) _ _
                        (secondSeeds rechits layerIndex) st segs) as [st' segs' | segs'];
      simpl in Hstep.
    + now apply IH.
    + exact Hstep.
Qed.

End Keeps.

Lemma run_keeps (Inv : list Hit -> State -> list Segment -> Prop) (R : list Segment -> Prop)
    (st : State) (rechits0 : list Hit) :
  R [] ->
  (forall rechits : list Hit,
      rechits = rechits0 \/ rechits = rev rechits0 ->
      Inv rechits (set_usedHits st (repeat false (length rechits))) [] /\
      (forall st' segs, Inv rechits st' segs -> R segs) /\
      forall (i1 : nat) (h1 : Hit) (gp1 lp1 : Point3 F) (i2 : nat) (h2 : Hit)
             (st' : State) (segs : list Segment),
        nth_error rechits i1 = Some h1 ->
        nth_error rechits i2 = Some h2 ->
        Inv rechits st' segs ->
        flow_keeps (Inv rechits) R
                   (seedPair theChamber ext cfg rechits (Z.of_nat (length rechits0))
                             i1 h1 (layer h1) gp1 lp1 i2 h2 (layer h2) st' segs)) ->
  R (run theChamber ext cfg st rechits0).
Proof.
  intros Hnone Hinv. unfold run, buildSegments.
  case_if; [exact Hnone |].
  pose proof (orderHits_in_step (layer_z theChamber 1) (layer_z theChamber 6) rechits0) as Hstep.
  pose proof (orderHits_same_or_reversed (layer_z theChamber 1) (layer_z theChamber 6)
                (map (@layer F) rechits0) rechits0) as Hcases.
  destruct (orderHits _ _ _ rechits0) as [layerIndex rechits]; simpl in Hstep. subst layerIndex.
  assert (Hrechits : rechits = rechits0 \/ rechits = rev rechits0)
    by (destruct Hcases as [Heq | Heq]; inversion Heq; auto).
  destruct (Hinv rechits Hrechits) as (HI & HR & Hpair).
  match goal with
  | |- R (flow_segments ?fl) =>
      assert (Hfl : flow_keeps (Inv rechits) R fl)
  end.
  { apply outerLoop_keeps; try assumption.
    - apply seconds_from.
    - apply firsts_from. }
  match goal with
  | |- R (flow_segments ?fl) => destruct fl; simpl in *; eauto
  end.
Qed.

(** *** Hits shared between segments *)

(** Where the hits of a grown proto-segment come from: the two seeds, and
    positions of the chamber whose flag is not set. *)
Lemma grownSegment_origin (rechits : list Hit) (i1 : nat) (h1 : Hit)
    (gp1 lp1 : Point3 F) (i2 : nat) (h2 : Hit) (layer2 : Z) (st : State) (x : Hit) :
  In x (protoSegment (grownSegment theChamber ext cfg rechits i1 h1 gp1 lp1 i2 h2 layer2 st)) ->
  x = h1 \/ x = h2 \/
  exists i, nth_error rechits i = Some x /\ nth i (usedHits st) false = false.
Proof.
  unfold grownSegment, tryAddingHitsToSegment.
  set (st0 := set_protoSegment (seedState st h1 (seedSlopes theChamber h1 gp1 lp1 h2 layer2))
                               [h1; h2]).
  destruct (extendLoop_appends theChamber ext cfg i1 i2 rechits 0 (set_closeHits st0 []))
    as (added & close & Hp & Hc & Hfrom).
  set (st1 := extendLoop theChamber ext cfg i1 i2 0 rechits (set_closeHits st0 [])) in *.
  assert (Hst1 : forall y, In y (protoSegment st1) \/ In y (closeHits st1) ->
                           y = h1 \/ y = h2 \/
                           exists i, nth_error rechits i = Some y /\
                                     nth i (usedHits st) false = false).
  { intros y Hy. rewrite Hp, Hc in Hy. simpl in Hy.
    assert (Hcases : y = h1 \/ y = h2 \/ (In y added \/ In y close))
      by (destruct Hy as [[Hy | [Hy | Hy]] | Hy]; auto).
    destruct Hcases as [Hy1 | [Hy2 | Hy3]]; auto.
    destruct (Hfrom y Hy3) as (k & Hk & _ & _ & Hfree & _).
    right. right. exists k. split; assumption. }
  case_if; intro Hin.
  - apply Hst1. now left.
  - apply resolve_hits in Hin as [Hin | Hin].
    + rewrite updateParameters_protoSegment in Hin. apply Hst1. now left.
    + destruct (updateParameters_frame theChamber ext st1) as (Hclose & _).
      apply Hst1. right. rewrite <- Hclose. exact Hin.
Qed.

Lemma sharedWith_app (segs : list Segment) (temp : Segment) (x : Hit) :
  sharedWith (segs ++ [temp]) x ->
  sharedWith segs x \/ exists h, In h (seg_hits temp) /\ same_hit h x = true.
Proof.
  intros (s & h & Hs & Hh & Hsame).
  apply in_app_or in Hs as [Hs | [<- | []]].
  - left. exists s, h. auto.
  - right. eauto.
Qed.

Lemma sharesFirstSeedOnly_snoc (rechits0 : list Hit) (segs : list Segment)
    (temp : Segment) (h1 : Hit) :
  sharesFirstSeedOnly rechits0 segs ->
  In h1 rechits0 ->
  (forall x, In x (seg_hits temp) -> sharedWith segs x -> x = h1) ->
  sharesFirstSeedOnly rechits0 (segs ++ [temp]).
Proof.
  intros Hsegs Hh1 Htemp b sb Hb.
  destruct (Nat.lt_ge_cases b (length segs)) as [Hlt | Hge].
  - rewrite nth_error_app1 in Hb by exact Hlt.
    rewrite firstn_app.
    replace (b - length segs)%nat with 0%nat by lia.
    simpl. rewrite app_nil_r. now apply Hsegs.
  - rewrite nth_error_app2 in Hb by exact Hge.
    destruct (b - length segs)%nat as [| n] eqn:Hn; simpl in Hb;
      [| destruct n; discriminate].
    inversion Hb; subst sb.
    assert (b = length segs) by lia. subst b.
    rewrite firstn_app, firstn_all, Nat.sub_diag. simpl. rewrite app_nil_r.
    exists h1. split; assumption.
Qed.

(** X9.  Two segments returned by [run] share at most one hit: of the hits
    of a segment, only one, a hit of the chamber, can be (by identity) a
    hit of the segments returned before it. *)
Theorem run_segments_share_first_seed_only (st : State) (rechits0 : list Hit) :
  sharesFirstSeedOnly rechits0 (run theChamber ext cfg st rechits0).
Proof.
  apply (run_keeps
           (fun rechits s segs =>
              length (usedHits s) = length rechits /\
              sharesFirstSeedOnly rechits0 segs /\
              forall x i, sharedWith segs x -> nth_error rechits i = Some x ->
                          nth i (usedHits s) false = true)).
  - intros b sb Hb. destruct b; discriminate.
  - intros rechits Hrechits. split; [| split].
    + split; [simpl; apply repeat_length |].
      split; [intros b sb Hb; destruct b; discriminate |].
      intros x i (s & h & [] & _).
    + intros st' segs (_ & HR & _). exact HR.
    + intros i1 h1 gp1 lp1 i2 h2 st' segs Hh1 Hh2 (Hlen & HR & Hcover).
      set (st2 := grownSegment theChamber ext cfg rechits i1 h1 gp1 lp1 i2 h2 (layer h2) st').
      destruct (finishSegment_hits theChamber ext st2) as [Hhits Hhits3].
      assert (Hused3 : usedHits (fst (finishSegment theChamber ext st2)) = usedHits st').
      { rewrite finishSegment_usedHits. apply grownSegment_usedHits. }
      assert (Hnew : nth i2 (usedHits st') false = false ->
                     sharesFirstSeedOnly rechits0
                       (segs ++ [snd (finishSegment theChamber ext st2)])).
      { intro Hfree.
        apply (sharesFirstSeedOnly_snoc rechits0 segs _ h1 HR).
        - apply (ordered_In rechits rechits0 h1 Hrechits). now apply nth_error_In in Hh1.
        - intros x Hx Hshared. rewrite Hhits in Hx.
          apply grownSegment_origin in Hx as [Hx | [Hx | (i & Hi & Hno)]]; [exact Hx | |].
          + subst x. rewrite (Hcover h2 i2 Hshared Hh2) in Hfree. discriminate.
          + rewrite (Hcover x i Hshared Hi) in Hno. discriminate. }
      destruct (seedPair_cases theChamber ext cfg rechits (Z.of_nat (length rechits0))
                               i1 h1 (layer h1) gp1 lp1 i2 h2 (layer h2) st' segs)
        as [(st'' & -> & Hused) | (Hgap & Hfree & Hsize & [[-> _] | (-> & _)])];
        cbn [flow_keeps].
      * rewrite Hused. auto.
      * now apply Hnew.
      * split; [| split; [now apply Hnew |]].
        -- apply flagHitsAsUsed_length.
           exact (eq_trans (f_equal (@length bool) Hused3) Hlen).
        -- intros x i Hshared Hi.
           apply (proj2 (flagHitsAsUsed_set (fst (finishSegment theChamber ext st2)) rechits i x
                           (eq_trans (f_equal (@length bool) Hused3) Hlen) Hi)).
           apply sharedWith_app in Hshared as [Hold | (h & Hh & Hsame)].
           ++ left. rewrite Hused3. now apply (Hcover x i).
           ++ right. exists h. split; [| exact Hsame].
              left. rewrite Hhits3, <- Hhits. exact Hh.
Qed.

End UsedFlags.

(** ** The return on few hits left *)

Section EarlyReturn.

Context {F : Type} {SF : Scalar F} {E : Type}.
Variable theChamber : CSCChamber F.
Variable ext : Extern F E.
Variable cfg : Config F.



End EarlyReturn.

Section StateIndependence.

Context {F : Type} {SF : Scalar F} {E : Type}.
Variable theChamber : CSCChamber F.
Variable ext : Extern F E.
Variable cfg : Config F.

(** *** What the members hold on entry does not matter *)

Lemma updateParameters_same (a b : AlgoState F) :
  sameUpToChi2Direction a b ->
  sameUpToDirection (updateParameters theChamber ext a) (updateParameters theChamber ext b).
Proof.
  intros (Hp & _ & Hc & Hu).
  unfold updateParameters. rewrite Hp.
  destruct (fold_left _ _ _) as [m v].
  destruct (solve ext m v) as [[[p1 p2] p3] p4].
  unfold sameUpToDirection, sameUpToChi2Direction, sameLine. simpl. auto 10.
Qed.

Lemma sameUpToDirection_weaken (a b : AlgoState F) :
  sameUpToDirection a b -> sameUpToChi2Direction a b.
Proof.
  now intros [H _].
Qed.

Lemma addHit_same (a b : AlgoState F) (h : CSCRecHit2D F) (lay : Z) :
  sameUpToChi2Direction a b ->
  fst (addHit a h lay) = fst (addHit b h lay) /\
  sameUpToChi2Direction (snd (addHit a h lay)) (snd (addHit b h lay)).
Proof.
  intros (Hp & Hl & Hc & Hu).
  unfold addHit. rewrite Hp.
  destruct (existsb _ _); simpl.
  - split; [reflexivity |]. unfold sameUpToChi2Direction. auto.
  - split; [reflexivity |]. unfold sameUpToChi2Direction, sameLine in *. simpl. auto.
Qed.

Lemma extend_step_same (i1 i2 : nat) (a b : AlgoState F) (i : nat) (h : CSCRecHit2D F) :
  sameUpToChi2Direction a b ->
  sameUpToChi2Direction (extend_step theChamber ext cfg i1 i2 a i h)
                        (extend_step theChamber ext cfg i1 i2 b i h).
Proof.
  intros Hsame. pose proof Hsame as (Hp & Hl & Hc & Hu).
  unfold extend_step.
  rewrite Hu, (isHitNearSegment_of_line theChamber ext cfg a b h Hl).
  unfold hasHitOnLayer. rewrite Hp.
  repeat case_if; try exact Hsame.
  - apply addHit_same. exact Hsame.
  - unfold sameUpToChi2Direction, sameLine in *. simpl. rewrite Hc. tauto.
Qed.

Lemma extendLoop_same (i1 i2 : nat) (rest : list (CSCRecHit2D F)) (i : nat)
    (a b : AlgoState F) :
  sameUpToChi2Direction a b ->
  sameUpToChi2Direction (extendLoop theChamber ext cfg i1 i2 i rest a)
                        (extendLoop theChamber ext cfg i1 i2 i rest b).
Proof.
  revert i a b. induction rest as [| h rest IH]; intros i a b Hsame; simpl.
  - exact Hsame.
  - apply IH. now apply extend_step_same.
Qed.

Lemma substituteHit_same (a b : AlgoState F) (h : CSCRecHit2D F) (lay : Z) :
  sameUpToDirection a b ->
  fst (substituteHit theChamber ext a h lay) = fst (substituteHit theChamber ext b h lay) /\
  sameUpToDirection (snd (substituteHit theChamber ext a h lay))
                    (snd (substituteHit theChamber ext b h lay)).
Proof.
  intros [Hsame Hchi]. pose proof Hsame as (Hp & Hl & Hc & Hu).
  unfold substituteHit.
  assert (Herased : sameUpToChi2Direction
                      (set_protoSegment a (eraseLayer lay (protoSegment a)))
                      (set_protoSegment b (eraseLayer lay (protoSegment b))))
    by (unfold sameUpToChi2Direction, sameLine in *; simpl; rewrite Hp; tauto).
  destruct (addHit_same _ _ h lay Herased) as [Hok Hadded].
  assert (Hchi' : protoChi2 (snd (addHit (set_protoSegment a (eraseLayer lay (protoSegment a)))
                                         h lay))
                  = protoChi2 (snd (addHit (set_protoSegment b (eraseLayer lay (protoSegment b)))
                                           h lay))).
  { unfold addHit. rewrite Hp. destruct (existsb _ _); simpl; exact Hchi. }
  destruct (addHit (set_protoSegment a _) h lay) as [oka a1].
  destruct (addHit (set_protoSegment b _) h lay) as [okb b1].
  simpl in *. subst okb. split; [reflexivity |].
  destruct oka.
  - now apply updateParameters_same.
  - split; assumption.
Qed.

Lemma compareProtoSegment_same (a b : AlgoState F) (h : CSCRecHit2D F) (lay : Z) :
  sameUpToDirection a b ->
  sameUpToDirection (compareProtoSegment theChamber ext a h lay)
                    (compareProtoSegment theChamber ext b h lay).
Proof.
  intros Hsame. pose proof Hsame as ((Hp & Hl & Hc & Hu) & Hchi).
  destruct (substituteHit_same a b h lay Hsame) as [Hok Hsub].
  unfold compareProtoSegment.
  destruct (substituteHit theChamber ext a h lay) as [oka a1].
  destruct (substituteHit theChamber ext b h lay) as [okb b1].
  simpl in Hok, Hsub. subst okb.
  pose proof Hsub as ((Hp1 & Hl1 & Hc1 & Hu1) & Hchi1).
  rewrite Hchi, Hchi1.
  case_if; [| exact Hsub].
  unfold sameUpToDirection, sameUpToChi2Direction, sameLine in *. simpl. tauto.
Qed.

Lemma resolve_same (hits : list (CSCRecHit2D F)) (a b : AlgoState F) :
  sameUpToDirection a b ->
  sameUpToDirection
    (fold_left (fun s h => compareProtoSegment theChamber ext s h (layer h)) hits a)
    (fold_left (fun s h => compareProtoSegment theChamber ext s h (layer h)) hits b).
Proof.
  revert a b. induction hits as [| h hits IH]; intros a b Hsame; simpl.
  - exact Hsame.
  - apply IH. now apply compareProtoSegment_same.
Qed.

(** [tryAddingHitsToSegment] reads the proto-segment, its line and the
    used flags; the close hits, the chi-square and the direction it finds
    do not enter. *)
Lemma tryAddingHitsToSegment_same (a b : AlgoState F) (rechits : list (CSCRecHit2D F))
    (i1 i2 : nat) :
  protoSegment a = protoSegment b ->
  sameLine a b ->
  usedHits a = usedHits b ->
  sameUpToChi2Direction (tryAddingHitsToSegment theChamber ext cfg a rechits i1 i2)
                        (tryAddingHitsToSegment theChamber ext cfg b rechits i1 i2).
Proof.
  intros Hp Hl Hu.
  assert (Hstart : sameUpToChi2Direction (set_closeHits a []) (set_closeHits b []))
    by (unfold sameUpToChi2Direction, sameLine in *; simpl; tauto).
  pose proof (extendLoop_same i1 i2 rechits 0 _ _ Hstart) as Hfirst.
  unfold tryAddingHitsToSegment.
  pose proof Hfirst as (Hp1 & _ & Hc1 & _).
  rewrite Hp1, Hc1.
  case_if; [exact Hfirst |].
  apply sameUpToDirection_weaken.
  pose proof (updateParameters_same _ _ Hfirst) as Hfit.
  pose proof Hfit as ((_ & _ & Hc2 & _) & _).
  rewrite Hc2. now apply resolve_same.
Qed.

Lemma finishSegment_same (a b : AlgoState F) :
  sameUpToChi2Direction a b ->
  finishSegment theChamber ext a = finishSegment theChamber ext b.
Proof.
  intro Hsame.
  destruct (updateParameters_same a b Hsame) as ((Hp & (Hi & Hu & Hv) & Hc & Hused) & Hchi).
  unfold finishSegment. cbv zeta.
  rewrite Hp, Hi, Hu, Hv, Hc, Hused, Hchi. reflexivity.
Qed.

Lemma sameFlow_refl (fl : Flow F E) : sameFlow fl fl.
Proof.
  destruct fl; simpl; auto.
Qed.

Lemma seedPair_same (rechits : list (CSCRecHit2D F)) (nHit : Z)
    (i1 : nat) (h1 : CSCRecHit2D F) (layer1 : Z) (gp1 lp1 : Point3 F)
    (i2 : nat) (h2 : CSCRecHit2D F) (layer2 : Z)
    (a b : AlgoState F) (segs : list (CSCSegment F E)) :
  usedHits a = usedHits b ->
  sameFlow (seedPair theChamber ext cfg rechits nHit i1 h1 layer1 gp1 lp1 i2 h2 layer2 a segs)
           (seedPair theChamber ext cfg rechits nHit i1 h1 layer1 gp1 lp1 i2 h2 layer2 b segs).
Proof.
  intro Hu. unfold seedPair. rewrite Hu.
  case_if; [simpl; auto |].
  case_if; [simpl; auto |].
  cbn [seedState protoSlope_v protoSlope_u].
  case_if; [simpl; auto |].
  case_if; [simpl; auto |].
  assert (Hgrown : sameUpToChi2Direction
                     (tryAddingHitsToSegment theChamber ext cfg
                        (set_protoSegment
                           (seedState a h1 (seedSlopes theChamber h1 gp1 lp1 h2 layer2))
                           [h1; h2]) rechits i1 i2)
                     (tryAddingHitsToSegment theChamber ext cfg
                        (set_protoSegment
                           (seedState b h1 (seedSlopes theChamber h1 gp1 lp1 h2 layer2))
                           [h1; h2]) rechits i1 i2)).
  { apply tryAddingHitsToSegment_same; [reflexivity | | exact Hu].
    unfold sameLine. simpl. auto. }
  pose proof Hgrown as (Hp & _ & _ & Hused).
  rewrite Hp.
  case_if; [simpl; auto |].
  rewrite (finishSegment_same _ _ Hgrown).
  apply sameFlow_refl.
Qed.

Lemma innerLoop_same (rechits : list (CSCRecHit2D F)) (nHit : Z)
    (i1 : nat) (h1 : CSCRecHit2D F) (layer1 : Z) (gp1 lp1 : Point3 F)
    (seconds : list (nat * (CSCRecHit2D F * Z)))
    (a b : AlgoState F) (segs : list (CSCSegment F E)) :
  usedHits a = usedHits b ->
  sameFlow (innerLoop theChamber ext cfg rechits nHit i1 h1 layer1 gp1 lp1 seconds a segs)
           (innerLoop theChamber ext cfg rechits nHit i1 h1 layer1 gp1 lp1 seconds b segs).
Proof.
  revert a b segs.
  induction seconds as [| [i2 [h2 layer2]] rest IH]; intros a b segs Hu; simpl.
  - auto.
  - pose proof (seedPair_same rechits nHit i1 h1 layer1 gp1 lp1 i2 h2 layer2 a b segs Hu)
      as Hstep.
    destruct (seedPair theChamber ext cfg rechits nHit i1 h1 layer1 gp1 lp1 i2 h2 layer2 a segs)
      as [a' sa | sa];
      destruct (seedPair theChamber ext cfg rechits nHit i1 h1 layer1 gp1 lp1 i2 h2 layer2
                         b segs) as [b' sb | sb];
      simpl in Hstep; try contradiction.
    + destruct Hstep as [Hu' ->]. now apply IH.
    + exact Hstep.
Qed.

Lemma outerLoop_same (rechits : list (CSCRecHit2D F)) (layerIndex : list Z) (nHit : Z)
    (firsts : list (nat * (CSCRecHit2D F * Z)))
    (a b : AlgoState F) (segs : list (CSCSegment F E)) :
  usedHits a = usedHits b ->
  sameFlow (outerLoop theChamber ext cfg rechits layerIndex nHit firsts a segs)
           (outerLoop theChamber ext cfg rechits layerIndex nHit firsts b segs).
Proof.
  revert a b segs.
  induction firsts as [| [i1 [h1 layer1]] rest IH]; intros a b segs Hu; simpl.
  - auto.
  - rewrite Hu. case_if; [now apply IH |].
    pose proof (innerLoop_same rechits nHit i1 h1 layer1
                  (layer_toGlobal theChamber layer1 (localPosition h1))
                  (toLocal theChamber (layer_toGlobal theChamber layer1 (localPosition h1)))
                  (secondSeeds rechits layerIndex) a b segs Hu) as Hstep.
    destruct (innerLoop theChamber ext cfg rechits nHit i1 h1 layer1 _ _
                        (secondSeeds rechits layerIndex) a segs) as [a' sa | sa];
      destruct (innerLoop theChamber ext cfg rechits nHit i1 h1 layer1 _ _
                          (secondSeeds rechits layerIndex) b segs) as [b' sb | sb];
      simpl in Hstep; try contradiction.
    + destruct Hstep as [Hu' ->]. now apply IH.
    + exact Hstep.
Qed.

(** X10.  [run] has no memory: the segments it returns for a chamber do
    not depend on what the members of the algorithm object (proto-segment,
    line, chi-square, direction, close hits, used flags) hold on entry. *)
Theorem run_forgets_state (st st' : AlgoState F) (rechits0 : list (CSCRecHit2D F)) :
  run theChamber ext cfg st rechits0 = run theChamber ext cfg st' rechits0.
Proof.
  unfold run, buildSegments.
  case_if; [reflexivity |].
  destruct (orderHits _ _ _ rechits0) as [layerIndex rechits].
  pose proof (outerLoop_same rechits layerIndex (Z.of_nat (length rechits0))
                (enumerate (combine rechits layerIndex))
                (set_usedHits st (repeat false (length rechits)))
                (set_usedHits st' (repeat false (length rechits))) [] eq_refl) as Hflow.
  destruct (outerLoop theChamber ext cfg rechits layerIndex _ _
                      (set_usedHits st (repeat false (length rechits))) [])
    as [a sa | sa];
    destruct (outerLoop theChamber ext cfg rechits layerIndex _ _
                        (set_usedHits st' (repeat false (length rechits))) [])
      as [b sb | sb];
    simpl in *; try contradiction.
  - now destruct Hflow.
  - exact Hflow.
Qed.

End StateIndependence.

Section ErrorMatrixProperties.

Context {F : Type} {SF : Scalar F}.

(** *** The reordering *)

Ltac small_index r :=
  destruct r as [| [| [| [| [| r]]]]].

Lemma reorderError_entry (a : SymMatrix F) (r c : nat) :
  sym_get (reorderError a) r c
  = if ((r <=? 2) && (c <=? 2) && (1 <=? r) && (1 <=? c))%nat
       || ((3 <=? r) && (r <=? 4) && (3 <=? c) && (c <=? 4))%nat
    then sym_get a (slopesFirst r) (slopesFirst c)
    else sym_get a r c.
Proof.
  small_index r; small_index c; reflexivity.
Qed.

Lemma reorderError_twice (a : SymMatrix F) (r c : nat) :
  sym_get (reorderError (reorderError a)) r c = sym_get a r c.
Proof.
  small_index r; small_index c; reflexivity.
Qed.

(** X11.  The reordering at the end of [calculateError] exchanges the
    position block (entries 1, 2) and the slope block (entries 3, 4) of the
    4x4 matrix and leaves every entry that links a position to a slope
    where it was; done twice it gives the matrix back.  It is the
    covariance matrix of the parameters in the order (slope u, slope v,
    u0, v0) exactly when the entries (1,4) and (2,3) of the matrix it is
    given are equal. *)
Theorem reorderError_exchanges_blocks (a : SymMatrix F) :
  (forall r c : nat,
      sym_get (reorderError a) r c
      = if ((r <=? 2) && (c <=? 2) && (1 <=? r) && (1 <=? c))%nat
           || ((3 <=? r) && (r <=? 4) && (3 <=? c) && (c <=? 4))%nat
        then sym_get a (slopesFirst r) (slopesFirst c)
        else sym_get a r c) /\
  (forall r c : nat, sym_get (reorderError (reorderError a)) r c = sym_get a r c) /\
  ((forall r c : nat,
       (1 <= r <= 4)%nat -> (1 <= c <= 4)%nat ->
       sym_get (reorderError a) r c = sym_get a (slopesFirst r) (slopesFirst c)) <->
   sym_get a 1 4 = sym_get a 2 3).
Proof.
  split; [apply reorderError_entry |].
  split; [apply reorderError_twice |].
  split.
  - intro Hall. apply (Hall 1%nat 4%nat); lia.
  - intros Hcross r c Hr Hc.
    small_index r; try lia; small_index c; try lia;
      try reflexivity; cbv in Hcross |- *; congruence.
Qed.

(** *** The inputs of the inversion *)

Ltac index_cases :=
  repeat match goal with
         | |- context [Nat.eqb ?a ?b] => destruct (Nat.eqb_spec a b)
         end;
  cbn [andb]; try reflexivity; try lia.

Lemma errorInputs_step_entries (row : nat) (W : SymMatrix F) (A : Matrix F)
    (z xx xy yy : F) :
  let res := errorInputs_step (row, W, A) (z, xx, xy, yy) in
  fst (fst res) = (row + 2)%nat /\
  (snd (fst res) (row + 1) (row + 1) = xx /\
   snd (fst res) (row + 2) (row + 1) = xy /\
   snd (fst res) (row + 2) (row + 2) = yy /\
   snd res (row + 1) 1 = f1 /\
   snd res (row + 1) 3 = z /\
   snd res (row + 2) 2 = f1 /\
   snd res (row + 2) 4 = z)%nat /\
  (forall i j : nat,
      ~ ((i = row + 1 /\ j = row + 1) \/ (i = row + 2 /\ (j = row + 1 \/ j = row + 2)))%nat ->
      snd (fst res) i j = W i j) /\
  (forall i j : nat,
      ~ ((i = row + 1 /\ (j = 1 \/ j = 3)) \/ (i = row + 2 /\ (j = 2 \/ j = 4)))%nat ->
      snd res i j = A i j).
Proof.
  cbv zeta. unfold errorInputs_step. cbn [fst snd].
  split; [lia |].
  split; [| split].
  - unfold sym_set, mat_set. repeat split; index_cases.
  - intros i j Hno. unfold sym_set. index_cases.
  - intros i j Hno. unfold mat_set. index_cases.
Qed.

Lemma errorInputs_from (hits : list (F * F * F * F)) :
  forall (row : nat) (W : SymMatrix F) (A : Matrix F),
    let res := fold_left errorInputs_step hits (row, W, A) in
    fst (fst res) = (row + 2 * length hits)%nat /\
    (forall k z xx xy yy,
        nth_error hits k = Some (z, xx, xy, yy) ->
        (snd (fst res) (row + 2 * k + 1) (row + 2 * k + 1) = xx /\
         snd (fst res) (row + 2 * k + 2) (row + 2 * k + 1) = xy /\
         snd (fst res) (row + 2 * k + 2) (row + 2 * k + 2) = yy /\
         snd res (row + 2 * k + 1) 1 = f1 /\
         snd res (row + 2 * k + 1) 3 = z /\
         snd res (row + 2 * k + 2) 2 = f1 /\
         snd res (row + 2 * k + 2) 4 = z)%nat) /\
    (forall i j : nat,
        (forall k, (k < length hits)%nat ->
                   ~ ((i = row + 2 * k + 1 /\ j = row + 2 * k + 1) \/
                      (i = row + 2 * k + 2 /\
                       (j = row + 2 * k + 1 \/ j = row + 2 * k + 2)))%nat) ->
        snd (fst res) i j = W i j) /\
    (forall i j : nat,
        (forall k, (k < length hits)%nat ->
                   ~ ((i = row + 2 * k + 1 /\ (j = 1 \/ j = 3)) \/
                      (i = row + 2 * k + 2 /\ (j = 2 \/ j = 4)))%nat) ->
        snd res i j = A i j).
Proof.
  induction hits as [| [[[z0 xx0] xy0] yy0] rest IH]; intros row W A; cbv zeta.
  - simpl. split; [lia |]. split; [| split; reflexivity].
    intros k z xx xy yy Hk. destruct k; discriminate.
  - cbn [fold_left length].
    destruct (errorInputs_step_entries row W A z0 xx0 xy0 yy0)
      as (Hrow0 & (Hxx0 & Hxy0 & Hyy0 & Ha1 & Ha3 & Ha2 & Ha4) & HW0 & HA0).
    destruct (errorInputs_step (row, W, A) (z0, xx0, xy0, yy0)) as [[row1 W1] A1].
    cbn [fst snd] in *. subst row1.
    destruct (IH (row + 2)%nat W1 A1) as (Hrow & Hhit & HW & HA).
    split; [lia |].
    split; [| split].
    + intros k z xx xy yy Hk. destruct k as [| k]; simpl in Hk.
      * inversion Hk; subst. replace (row + 2 * 0 + 1)%nat with (row + 1)%nat by lia.
        replace (row + 2 * 0 + 2)%nat with (row + 2)%nat by lia.
        rewrite !HW, !HA by (intros k Hk'; lia).
        repeat split; assumption.
      * replace (row + 2 * S k + 1)%nat with (row + 2 + 2 * k + 1)%nat by lia.
        replace (row + 2 * S k + 2)%nat with (row + 2 + 2 * k + 2)%nat by lia.
        now apply Hhit.
    + intros i j Hno. rewrite HW.
      * apply HW0. specialize (Hno 0%nat). lia.
      * intros k Hk. specialize (Hno (S k)). lia.
    + intros i j Hno. rewrite HA.
      * apply HA0. specialize (Hno 0%nat). lia.
      * intros k Hk. specialize (Hno (S k)). lia.
Qed.

(** X12.  The loop of [calculateError] leaves [row] at twice the number of
    hits; [weights] holds the error matrix of the k-th hit in rows and
    columns 2k+1 and 2k+2 and zero between the rows of different hits; in
    [A], row 2k+1 holds 1 and z in columns 1 and 3 and row 2k+2 holds them
    in columns 2 and 4, and the other four entries of the two rows are
    never written: they hold what the constructor of [A] left there. *)
Theorem errorInputs_blocks (A0 : Matrix F) (hits : list (F * F * F * F)) :
  let row := fst (fst (errorInputs A0 hits)) in
  let weights := snd (fst (errorInputs A0 hits)) in
  let A := snd (errorInputs A0 hits) in
  row = (2 * length hits)%nat /\
  (forall k z xx xy yy,
      nth_error hits k = Some (z, xx, xy, yy) ->
      (sym_get weights (2 * k + 1) (2 * k + 1) = xx /\
       sym_get weights (2 * k + 1) (2 * k + 2) = xy /\
       sym_get weights (2 * k + 2) (2 * k + 1) = xy /\
       sym_get weights (2 * k + 2) (2 * k + 2) = yy)%nat /\
      (A (2 * k + 1) 1 = f1 /\ A (2 * k + 1) 3 = z /\
       A (2 * k + 2) 2 = f1 /\ A (2 * k + 2) 4 = z)%nat /\
      (A (2 * k + 1) 2 = A0 (2 * k + 1) 2 /\ A (2 * k + 1) 4 = A0 (2 * k + 1) 4 /\
       A (2 * k + 2) 1 = A0 (2 * k + 2) 1 /\ A (2 * k + 2) 3 = A0 (2 * k + 2) 3)%nat) /\
  (forall r c : nat,
      ((r + 1) / 2 <> (c + 1) / 2)%nat -> sym_get weights r c = f0).
Proof.
  cbv zeta. unfold errorInputs.
  destruct (errorInputs_from hits 0 (fun _ _ => f0) A0) as (Hrow & Hhit & HW & HA).
  cbv zeta in *. cbn [Nat.add] in *.
  split; [exact Hrow |].
  split.
  - intros k z xx xy yy Hk.
    destruct (Hhit k z xx xy yy Hk) as (Hxx & Hxy & Hyy & Ha1 & Ha3 & Ha2 & Ha4).
    split; [| split].
    + unfold sym_get.
      replace (2 * k + 1 <=? 2 * k + 1)%nat with true by (symmetry; apply Nat.leb_le; lia).
      replace (2 * k + 2 <=? 2 * k + 2)%nat with true by (symmetry; apply Nat.leb_le; lia).
      replace (2 * k + 2 <=? 2 * k + 1)%nat with false by (symmetry; apply Nat.leb_gt; lia).
      replace (2 * k + 1 <=? 2 * k + 2)%nat with true by (symmetry; apply Nat.leb_le; lia).
      repeat split; assumption.
    + repeat split; assumption.
    + repeat split; apply HA; intros k' Hk'; lia.
  - intros r c Hblocks. unfold sym_get.
    assert (Hdiv : forall n k : nat,
               (n = 2 * k + 1 \/ n = 2 * k + 2)%nat -> ((n + 1) / 2 = k + 1)%nat).
    { intros n k Hn. symmetry. apply (Nat.div_unique (n + 1) 2 (k + 1) (n - 2 * k - 1)); lia. }
    destruct (c <=? r)%nat; rewrite HW; try reflexivity.
    + intros k Hk Hpos. apply Hblocks.
      rewrite (Hdiv r k), (Hdiv c k) by lia. reflexivity.
    + intros k Hk Hpos. apply Hblocks.
      rewrite (Hdiv r k), (Hdiv c k) by lia. reflexivity.
Qed.

End ErrorMatrixProperties.

Section SecondPassChi2.

Context {F : Type} {SF : Scalar F} {E : Type}.
Variable theChamber : CSCChamber F.
Variable ext : Extern F E.
Variable cfg : Config F.

Hypothesis order_total : total_order F.
Hypothesis order_trans :
  forall a b c : F, fle a b = true -> fle b c = true -> fle a c = true.

(** One call, for chi-squares that are numbers: the chi-square left is a
    number and at most the one the call began with. *)
Lemma compareProtoSegment_chi2_step (st : AlgoState F) (h : CSCRecHit2D F) (lay : Z) :
  is_number (protoChi2 st) ->
  is_number (protoChi2 (snd (substituteHit theChamber ext st h lay))) ->
  is_number (protoChi2 (compareProtoSegment theChamber ext st h lay)) /\
  fle (protoChi2 (compareProtoSegment theChamber ext st h lay)) (protoChi2 st) = true.
Proof.
  intros Hold Hnew.
  destruct (compareProtoSegment_cases theChamber ext st h lay)
    as [[-> _] | (-> & Hle & _)].
  - split; exact Hold.
  - split; [exact Hnew |]. now apply order_total.
Qed.

Lemma resolve_chi2 (hits : list (CSCRecHit2D F)) (st : AlgoState F) :
  is_number (protoChi2 st) ->
  Forall is_number (secondPassChi2 theChamber ext st hits) ->
  fle (protoChi2
         (fold_left (fun s h => compareProtoSegment theChamber ext s h (layer h)) hits st))
      (protoChi2 st) = true.
Proof.
  revert st. induction hits as [| h hits IH]; intros st Hold Hmet; simpl.
  - exact Hold.
  - cbn [secondPassChi2] in Hmet.
    inversion Hmet as [| ? ? Hnew Hrest]; subst.
    destruct (compareProtoSegment_chi2_step st h (layer h) Hold Hnew) as [Hnum Hstep].
    exact (order_trans _ _ _ (IH _ Hnum Hrest) Hstep).
Qed.

End SecondPassChi2.

Section SecondPassChi2Theorem.

Context {F : Type} {SF : Scalar F} {E : Type}.
Variable theChamber : CSCChamber F.
Variable ext : Extern F E.
Variable cfg : Config F.

(** X13.  In an arithmetic whose order is total on numbers and
    transitive (binary64 is one), the second pass of
    [tryAddingHitsToSegment] never raises the chi-square, as long as the
    chi-squares it meets are numbers: the one of the fit made between the
    passes and, at each close hit, the one of the proto-segment with that
    hit substituted.  The call ends with the first pass, or the chi-square
    it leaves is at most that of the fit made between the passes. *)
Theorem second_pass_chi2_not_raised
    (st : AlgoState F) (rechits : list (CSCRecHit2D F)) (i1 i2 : nat) :
  total_order F ->
  (forall a b c : F, fle a b = true -> fle b c = true -> fle a c = true) ->
  let st1 := extendLoop theChamber ext cfg i1 i2 0 rechits (set_closeHits st []) in
  let st2 := updateParameters theChamber ext st1 in
  is_number (protoChi2 st2) ->
  Forall is_number (secondPassChi2 theChamber ext st2 (closeHits st2)) ->
  tryAddingHitsToSegment theChamber ext cfg st rechits i1 i2 = st1 \/
  fle (protoChi2 (tryAddingHitsToSegment theChamber ext cfg st rechits i1 i2))
      (protoChi2 st2) = true.
Proof.
  intros Htotal Htrans st1 st2 Hfit Hmet. unfold tryAddingHitsToSegment. fold st1.
  case_if; [now left |].
  right. fold st2. now apply resolve_chi2.
Qed.

End SecondPassChi2Theorem.

Section SeedsStay.

Context {F : Type} {SF : Scalar F} {E : Type}.
Variable theChamber : CSCChamber F.
Variable ext : Extern F E.
Variable cfg : Config F.

(** A proto-segment grown from seeds on two different layers never has
    fewer hits than the two it began with. *)
Lemma grownSegment_at_least_seeds (rechits : list (CSCRecHit2D F)) (i1 : nat)
    (h1 : CSCRecHit2D F) (gp1 lp1 : Point3 F) (i2 : nat) (h2 : CSCRecHit2D F)
    (st : AlgoState F) :
  layer h1 <> layer h2 ->
  (2 <= length (protoSegment
                  (grownSegment theChamber ext cfg rechits i1 h1 gp1 lp1 i2 h2 (layer h2) st)))%nat.
Proof.
  intro Hlayers. unfold grownSegment, tryAddingHitsToSegment.
  set (st0 := set_protoSegment (seedState st h1 (seedSlopes theChamber h1 gp1 lp1 h2 (layer h2)))
                               [h1; h2]).
  assert (Hd0 : distinctLayers (protoSegment (set_closeHits st0 []))).
  { unfold distinctLayers. simpl.
    constructor; [simpl; intros [Heq | []]; congruence |].
    constructor; [simpl; tauto | constructor]. }
  destruct (extendLoop_appends theChamber ext cfg i1 i2 rechits 0 (set_closeHits st0 []))
    as (added & close & Hp & _ & _).
  pose proof (extendLoop_distinct theChamber ext cfg i1 i2 rechits 0 (set_closeHits st0 []) Hd0)
    as Hd1.
  assert (Hocc : closeHitsOnOccupiedLayers
                   (extendLoop theChamber ext cfg i1 i2 0 rechits (set_closeHits st0 [])))
    by (apply extendLoop_close_layers; intros c []).
  set (st1 := extendLoop theChamber ext cfg i1 i2 0 rechits (set_closeHits st0 [])) in *.
  assert (Hfirst : (2 <= length (protoSegment st1))%nat)
    by (rewrite Hp, length_app; simpl; lia).
  case_if; [exact Hfirst |].
  destruct (updateParameters_frame theChamber ext st1) as (Hclose & _).
  assert (Hperm : Permutation
                    (map (@layer F)
                         (protoSegment
                            (fold_left
                               (fun s h => compareProtoSegment theChamber ext s h (layer h))
                               (closeHits (updateParameters theChamber ext st1))
                               (updateParameters theChamber ext st1))))
                    (map (@layer F) (protoSegment (updateParameters theChamber ext st1)))).
  { apply resolve_layers.
    - now rewrite updateParameters_protoSegment.
    - intros c Hc. rewrite updateParameters_protoSegment. apply Hocc.
      now rewrite Hclose in Hc. }
  apply Permutation_length in Hperm.
  rewrite !length_map, updateParameters_protoSegment in Hperm.
  rewrite Hperm. exact Hfirst.
Qed.

(** X14.  With [minLayersApart >= 1], every segment [run] returns has at
    least two hits, whatever [minHitsPerSegment] is. *)
Theorem run_segments_have_two_hits (st : AlgoState F) (rechits0 : list (CSCRecHit2D F)) :
  (1 <= minLayersApart cfg)%Z ->
  Forall (fun s : CSCSegment F E => (2 <= length (seg_hits s))%nat)
         (run theChamber ext cfg st rechits0).
Proof.
  intro Hapart.
  apply (run_inv theChamber ext cfg (fun s => True)).
  intros rechits Hrechits. split; [exact I |].
  intros i1 h1 gp1 lp1 i2 h2 st' segs Hh1 Hh2 _ HP.
  apply (seedPair_flow_inv theChamber ext cfg (fun _ => True)); [exact I | exact HP |].
  intros Hgap _ _. split; [| exact I].
  destruct (finishSegment_hits theChamber ext
              (grownSegment theChamber ext cfg rechits i1 h1 gp1 lp1 i2 h2 (layer h2) st'))
    as [-> _].
  apply grownSegment_at_least_seeds. lia.
Qed.

End SeedsStay.

Section NearnessCuts.

Context {F : Type} {SF : Scalar F} {E : Type}.
Variable theChamber : CSCChamber F.
Variable ext : Extern F E.
Local Open Scope fl_scope.

(** X15.  Loosening the cuts never turns a near hit away: in an arithmetic
    in which [a < b] and [b <= c] give [a < c] (binary64 is one), a hit
    that [isHitNearSegment] accepts is accepted under every configuration
    whose [dRPhiFineMax] and [dPhiFineMax] are at least as large. *)
Theorem isHitNearSegment_loosened (cfg cfg' : Config F) (st : AlgoState F)
    (hit : CSCRecHit2D F) :
  (forall a b c : F, (a <? b) = true -> (b <=? c) = true -> (a <? c) = true) ->
  (dRPhiFineMax cfg <=? dRPhiFineMax cfg') = true ->
  (dPhiFineMax cfg <=? dPhiFineMax cfg') = true ->
  isHitNearSegment theChamber ext cfg st hit = true ->
  isHitNearSegment theChamber ext cfg' st hit = true.
Proof.
  intros Hlaw HR Hphi. unfold isHitNearSegment. cbv zeta.
  rewrite !andb_true_iff. intros [H1 H2]. split.
  - exact (Hlaw _ _ _ H1 HR).
  - exact (Hlaw _ _ _ H2 Hphi).
Qed.

End NearnessCuts.

(** *** The further theorems at concrete inputs *)

Section FurtherRuns.

Import Examples.

Lemma run_without_seed_pair_witness :
  (forall h1 h2 : CSCRecHit2D float,
      In h1 oneLayer -> In h2 oneLayer ->
      (layer h2 - layer h1 < minLayersApart standardConfig)%Z) /\
  run chamberUp standIns standardConfig freshState oneLayer = [].
Proof.
  assert (Hgap : forall h1 h2 : CSCRecHit2D float,
             In h1 oneLayer -> In h2 oneLayer ->
             (layer h2 - layer h1 < minLayersApart standardConfig)%Z).
  { intros h1 h2 H1 H2.
    assert (L1 : layer h1 = 6%Z)
      by (destruct H1 as [<- | [<- | [<- | [<- | []]]]]; reflexivity).
    assert (L2 : layer h2 = 6%Z)
      by (destruct H2 as [<- | [<- | [<- | [<- | []]]]]; reflexivity).
    rewrite L1, L2. simpl. lia. }
  split; [exact Hgap |].
  exact (run_without_seed_pair chamberUp standIns standardConfig freshState oneLayer
           (or_intror Hgap)).
Defined.

Lemma run_segment_size_witness :
  (1 <= minLayersApart standardConfig)%Z /\
  Forall (fun s : CSCSegment float (list (float * float * float * float)) =>
            (length (seg_hits s) <= length fiveTracks)%nat /\
            ((forall h, In h fiveTracks -> (1 <= layer h <= 6)%Z) ->
             (length (seg_hits s) <= 6)%nat))
         (run chamberUp standIns standardConfig freshState fiveTracks).
Proof.
  assert (Hapart : (1 <= minLayersApart standardConfig)%Z) by (simpl; lia).
  split; [exact Hapart |].
  exact (run_segment_size chamberUp standIns standardConfig freshState fiveTracks Hapart).
Defined.

Lemma run_segments_have_two_hits_witness :
  (1 <= minLayersApart twoHitConfig)%Z /\
  Forall (fun s : CSCSegment float (list (float * float * float * float)) =>
            (2 <= length (seg_hits s))%nat)
         (run chamberUp standIns twoHitConfig freshState fan).
Proof.
  assert (Hapart : (1 <= minLayersApart twoHitConfig)%Z) by (simpl; lia).
  split; [exact Hapart |].
  exact (run_segments_have_two_hits chamberUp standIns twoHitConfig freshState fan Hapart).
Defined.

Lemma second_pass_keeps_layers_witness :
  distinctLayers (protoSegment noisySeeds) /\
  Permutation
    (map (@layer float)
         (protoSegment (tryAddingHitsToSegment chamberUp standIns standardConfig
                                               noisySeeds noisyTrack 0 5)))
    (map (@layer float)
         (protoSegment (extendLoop chamberUp standIns standardConfig 0 5 0 noisyTrack
                                   (set_closeHits noisySeeds [])))) /\
  length (protoSegment (tryAddingHitsToSegment chamberUp standIns standardConfig
                                               noisySeeds noisyTrack 0 5))
  = length (protoSegment (extendLoop chamberUp standIns standardConfig 0 5 0 noisyTrack
                                     (set_closeHits noisySeeds []))).
Proof.
  assert (Hd : distinctLayers (protoSegment noisySeeds)).
  { unfold distinctLayers. simpl.
    constructor; [simpl; intros [H | []]; discriminate |].
    constructor; [simpl; tauto | constructor]. }
  split; [exact Hd |].
  exact (second_pass_keeps_layers chamberUp standIns standardConfig noisySeeds noisyTrack
           0 5 Hd).
Defined.

Lemma flagHitsAsUsed_flags_witness :
  length (usedHits straightFlagged) = length fiveTracks /\
  length (usedHits (flagHitsAsUsed straightFlagged fiveTracks)) = length fiveTracks /\
  (forall i h,
      nth_error fiveTracks i = Some h ->
      nth i (usedHits (flagHitsAsUsed straightFlagged fiveTracks)) false = true <->
      (nth i (usedHits straightFlagged) false = true \/
       exists x, (In x (protoSegment straightFlagged) \/ In x (closeHits straightFlagged)) /\
                 same_hit x h = true)) /\
  flagHitsAsUsed straightFlagged fiveTracks
  = set_usedHits straightFlagged (usedHits (flagHitsAsUsed straightFlagged fiveTracks)).
Proof.
  assert (Hlen : length (usedHits straightFlagged) = length fiveTracks) by reflexivity.
  split; [exact Hlen |].
  exact (flagHitsAsUsed_flags straightFlagged fiveTracks Hlen).
Defined.

(** A hit near the seeds of [noisyTrack] under the standard cuts, and
    under cuts twice as wide. *)
Lemma isHitNearSegment_loosened_witness :
  fle (dRPhiFineMax standardConfig) (dRPhiFineMax looseConfig) = true /\
  fle (dPhiFineMax standardConfig) (dPhiFineMax looseConfig) = true /\
  isHitNearSegment chamberUp standIns standardConfig noisySeeds (hitAt 2 3 100 0) = true /\
  isHitNearSegment chamberUp standIns looseConfig noisySeeds (hitAt 2 3 100 0) = true.
Proof.
  assert (HR : fle (dRPhiFineMax standardConfig) (dRPhiFineMax looseConfig) = true)
    by now vm_compute.
  assert (Hphi : fle (dPhiFineMax standardConfig) (dPhiFineMax looseConfig) = true)
    by now vm_compute.
  assert (Hnear : isHitNearSegment chamberUp standIns standardConfig noisySeeds
                                   (hitAt 2 3 100 0) = true)
    by now vm_compute.
  split; [exact HR | split; [exact Hphi | split; [exact Hnear |]]].
  exact (isHitNearSegment_loosened chamberUp standIns standardConfig looseConfig
           noisySeeds (hitAt 2 3 100 0) float_lt_le_trans HR Hphi Hnear).
Defined.

(** The second pass on [noisyTrack] in binary64: two close hits, both
    substitutions with chi-squares that are numbers. *)
Lemma second_pass_chi2_not_raised_witness :
  let st1 := extendLoop chamberUp standIns standardConfig 0 5 0 noisyTrack
                        (set_closeHits noisySeeds []) in
  let st2 := updateParameters chamberUp standIns st1 in
  is_number (protoChi2 st2) /\
  map (@hit_id float) (closeHits st2) = [2; 4]%nat /\
  Forall is_number (secondPassChi2 chamberUp standIns st2 (closeHits st2)) /\
  (tryAddingHitsToSegment chamberUp standIns standardConfig noisySeeds noisyTrack 0 5 = st1 \/
   fle (protoChi2 (tryAddingHitsToSegment chamberUp standIns standardConfig noisySeeds
                                          noisyTrack 0 5))
       (protoChi2 st2) = true).
Proof.
  intros st1 st2.
  assert (Hfit : is_number (protoChi2 st2)) by now vm_compute.
  assert (Hmet : Forall is_number (secondPassChi2 chamberUp standIns st2 (closeHits st2)))
    by (vm_compute; repeat constructor).
  split; [exact Hfit | split; [now vm_compute | split; [exact Hmet |]]].
  exact (second_pass_chi2_not_raised chamberUp standIns standardConfig noisySeeds noisyTrack
           0 5 float_total_order float_le_trans Hfit Hmet).
Defined.


End FurtherRuns.
